(** * GhostPeer: the chunked, encrypted file-transfer service

    A shallow embedding of [FileTransferService] and [EncryptionService]
    (services/fileTransfer.ts and services/encryption.ts, the 4KB-chunk
    revision) together with the properties of the transfer protocol that
    the design document states about them, of the message handler of the
    application and of the connection registry of [PeerService]
    (services/peerService.ts).

    Conventions of the embedding:
    - a JavaScript [Map] is an association list in insertion order with
      unique keys ([JSMap]);
    - [FileTransfer] objects live in a heap and the registry stores
      references, because the sender loop, the control calls and the
      receiver all mutate the same object;
    - byte buffers ([ArrayBuffer], [Uint8Array]) are [list byte]; a binary
      string built with [String.fromCharCode] is the same list of bytes;
    - observable effects (calls of the send function, of the three
      callbacks and of the download helper) are collected in a trace;
    - the Web Crypto primitives and the wall clock are parameters;
    - [progress] and [speed] are JavaScript doubles in the source; they are
      modelled by exact rationals extended with the two infinities.
      Every operation the code applies to them is correctly rounded,
      hence monotone, so the facts of non-strict order carry over.  So
      does the sign of a progress and of a speed: both are quotients of
      integers, far from the range where a double underflows.  A strict
      comparison of a progress with 100 would not carry over, as two
      quotients that differ may round to the same double, and none is
      stated;
    - the index of a chunk, which the receiver takes from the message as
      it comes, ranges over the integers, the negative ones included; a
      message whose index is not an integer is outside the embedding. *)

From Stdlib Require Import List String Ascii NArith ZArith QArith Lia Bool.
From Stdlib Require Import ZifyNat ZifyN DecimalString Sorted.
From Stdlib.Strings Require Import Byte.
From stdpp Require Import base list.
Import ListNotations.

Local Open Scope nat_scope.

(** ** JavaScript [Map] with string keys *)

Module JSMap.

Definition t (V : Type) : Type := list (string * V).

Definition empty {V} : t V := [].

Fixpoint get {V} (k : string) (m : t V) : option V :=
  match m with
  | [] => None
  | (k', v) :: m' => if String.eqb k k' then Some v else get k m'
  end.

Definition has {V} (k : string) (m : t V) : bool :=
  match get k m with Some _ => true | None => false end.

(** [set] keeps the position of a key that is already present and appends
    a new key at the end. *)
Fixpoint set {V} (k : string) (v : V) (m : t V) : t V :=
  match m with
  | [] => [(k, v)]
  | (k', v') :: m' =>
      if String.eqb k k' then (k', v) :: m' else (k', v') :: set k v m'
  end.

Fixpoint delete {V} (k : string) (m : t V) : t V :=
  match m with
  | [] => []
  | (k', v') :: m' =>
      if String.eqb k k' then delete k m' else (k', v') :: delete k m'
  end.

Definition keys {V} (m : t V) : list string := map fst m.
Definition values {V} (m : t V) : list V := map snd m.

End JSMap.

(** ** [btoa] and [atob] on binary strings

    [btoa] is the padded RFC 4648 encoding; [atob] is the WHATWG
    forgiving-base64 decoder. *)

Module Base64.

Local Open Scope N_scope.

Definition alphabet : string :=
  "ABCDEFGHIJKLMNOPQRSTUVWXYZabcdefghijklmnopqrstuvwxyz0123456789+/".

Definition char_of_sextet (n : N) : ascii :=
  match String.get (N.to_nat n) alphabet with
  | Some c => c
  | None => "="%char
  end.

Fixpoint index_from (c : ascii) (s : string) (i : N) : option N :=
  match s with
  | EmptyString => None
  | String c' s' => if Ascii.eqb c c' then Some i else index_from c s' (N.succ i)
  end.

Definition sextet_of_char (c : ascii) : option N := index_from c alphabet 0.

Definition byte_of_N (n : N) : byte :=
  match Byte.of_N (n mod 256) with
  | Some b => b
  | None => x00
  end.

(** The sextets of a byte sequence, three bytes at a time. *)
Fixpoint sextets (bs : list byte) : list N :=
  match bs with
  | [] => []
  | [a] =>
      let n := Byte.to_N a * 16 in
      [n / 64; n mod 64]
  | [a; b] =>
      let n := (Byte.to_N a * 256 + Byte.to_N b) * 4 in
      [n / 4096; (n / 64) mod 64; n mod 64]
  | a :: b :: c :: rest =>
      let n := (Byte.to_N a * 256 + Byte.to_N b) * 256 + Byte.to_N c in
      [n / 262144; (n / 4096) mod 64; (n / 64) mod 64; n mod 64]
        ++ sextets rest
  end.

Definition padding (len : nat) : list ascii :=
  match Nat.modulo len 3 with
  | 1%nat => ["="%char; "="%char]
  | 2%nat => ["="%char]
  | _ => []
  end.

Definition btoa (bs : list byte) : string :=
  string_of_list_ascii
    (map char_of_sextet (sextets bs) ++ padding (length bs)).

Definition is_ascii_whitespace (c : ascii) : bool :=
  match N_of_ascii c with
  | 9 | 10 | 12 | 13 | 32 => true
  | _ => false
  end.

(** A text whose length is a multiple of four loses one or two trailing
    [=] signs. *)
Definition strip_padding (data : list ascii) : list ascii :=
  match rev data with
  | c1 :: r1 =>
      if Ascii.eqb c1 "="
      then match r1 with
           | c2 :: r2 => if Ascii.eqb c2 "=" then rev r2 else rev r1
           | [] => rev r1
           end
      else data
  | [] => data
  end.

Fixpoint all_sextets (data : list ascii) : option (list N) :=
  match data with
  | [] => Some []
  | c :: data' =>
      match sextet_of_char c, all_sextets data' with
      | Some n, Some ns => Some (n :: ns)
      | _, _ => None
      end
  end.

(** 24 bits give three bytes; a tail of 12 bits gives one byte and a tail
    of 18 bits gives two, the surplus low bits being discarded. *)
Fixpoint bytes_of_sextets (ns : list N) : list byte :=
  match ns with
  | a :: b :: c :: d :: rest =>
      let n := ((a * 64 + b) * 64 + c) * 64 + d in
      byte_of_N (n / 65536) :: byte_of_N (n / 256) :: byte_of_N n
        :: bytes_of_sextets rest
  | [a; b; c] =>
      let n := ((a * 64 + b) * 64 + c) / 4 in
      [byte_of_N (n / 256); byte_of_N n]
  | [a; b] =>
      let n := (a * 64 + b) / 16 in
      [byte_of_N n]
  | _ => []
  end.

Definition atob (s : string) : option (list byte) :=
  let data := List.filter (fun c => negb (is_ascii_whitespace c)) (list_ascii_of_string s) in
  let data :=
    if Nat.eqb (Nat.modulo (length data) 4) 0 then strip_padding data else data in
  if Nat.eqb (Nat.modulo (length data) 4) 1 then None
  else option_map bytes_of_sextets (all_sextets data).

End Base64.

(** ** Exceptions *)

Inductive JSError : Type :=
| Error (message : string)          (* [new Error(message)] of the services *)
| TypeError                          (* property read on [undefined] *)
| RangeError                         (* [TypedArray.prototype.set] out of bounds *)
| DOMException (name : string).      (* raised by [atob] and [crypto.subtle] *)

Inductive result (A : Type) : Type :=
| Ok (a : A)
| Throw (e : JSError).
Arguments Ok {A} a.
Arguments Throw {A} e.

Definition bind {A B} (r : result A) (k : A -> result B) : result B :=
  match r with
  | Ok a => k a
  | Throw e => Throw e
  end.

Notation "'try!' x <- r 'then' k" := (bind r (fun x => k))
  (at level 10, x name, r at level 99, k at level 200).

(** The text of [`${n}`] for a non-negative integer, and for an integer. *)
Definition number_to_string (n : nat) : string :=
  NilEmpty.string_of_uint (Nat.to_uint n).

Definition integer_to_string (z : Z) : string :=
  match z with
  | Z.neg p => "-" ++ number_to_string (Pos.to_nat p)
  | _ => number_to_string (Z.to_nat z)
  end.

(** [Error.prototype.toString]: the name, then the message if there is
    one. *)
Definition name_and_message (name message : string) : string :=
  if String.eqb message "" then name else name ++ ": " ++ message.

(** ** The part of the platform the services call: Web Crypto, and the
    wording of the exceptions that the platform raises *)

Class WebCrypto : Type := {
  (** [crypto.subtle.encrypt({name: 'AES-GCM', iv}, key, data)] *)
  aes_gcm_encrypt : list byte -> list byte -> list byte -> list byte;
  (** [crypto.subtle.decrypt]; [None] is the [OperationError] of a failed
      authentication *)
  aes_gcm_decrypt : list byte -> list byte -> list byte -> option (list byte);
  (** [crypto.subtle.digest('SHA-256', data)] *)
  sha256 : list byte -> list byte;
  (** the [message] of an exception that the platform raises; the wording
      is the engine's *)
  exception_message : JSError -> string
}.

(** The text of [`${error}`]. *)
Definition error_to_string `{WebCrypto} (e : JSError) : string :=
  match e with
  | Error message => name_and_message "Error" message
  | TypeError => name_and_message "TypeError" (exception_message e)
  | RangeError => name_and_message "RangeError" (exception_message e)
  | DOMException name => name_and_message name (exception_message e)
  end.

(** What AES-GCM guarantees of a ciphertext decrypted under the key and
    nonce it was produced with. *)
Class WebCryptoCorrect `{WebCrypto} : Prop :=
  aes_gcm_decrypt_encrypt :
    forall key iv data,
      aes_gcm_decrypt key iv (aes_gcm_encrypt key iv data) = Some data.

(** ** encryption.ts *)

Module EncryptionService.

Definition KEY_LENGTH : nat := 256.
Definition IV_LENGTH : nat := 12.

(** An AES-GCM [CryptoKey] with usages encrypt and decrypt. *)
Record CryptoKey : Type := {
  keyData : list byte;
  extractable : bool
}.

(** [random] is the entropy the call draws. *)
Definition generateKey (random : nat -> byte) : CryptoKey :=
  {| keyData := map random (seq 0 (KEY_LENGTH / 8)); extractable := true |}.

Definition exportKey (key : CryptoKey) : result string :=
  if extractable key
  then Ok (Base64.btoa (keyData key))
  else Throw (DOMException "InvalidAccessError").

Definition importKey (keyData : string) : result CryptoKey :=
  match Base64.atob keyData with
  | None => Throw (DOMException "InvalidCharacterError")
  | Some keyBuffer =>
      let bits := length keyBuffer * 8 in
      if (bits =? 128) || (bits =? 192) || (bits =? 256)
      then Ok {| EncryptionService.keyData := keyBuffer; extractable := true |}
      else Throw (DOMException "DataError")
  end.

Section WithCrypto.
Context `{WebCrypto}.

(** [random] is what [crypto.getRandomValues] writes. *)
Definition encrypt (random : nat -> byte) (data : list byte) (key : CryptoKey)
  : list byte * list byte :=
  let iv := map random (seq 0 IV_LENGTH) in
  let encrypted := aes_gcm_encrypt (keyData key) iv data in
  (encrypted, iv).

Definition decrypt (encryptedData : list byte) (key : CryptoKey) (iv : list byte)
  : result (list byte) :=
  match aes_gcm_decrypt (keyData key) iv encryptedData with
  | Some data => Ok data
  | None => Throw (DOMException "OperationError")
  end.

Definition hex_digit (n : N) : ascii :=
  match String.get (N.to_nat n) "0123456789abcdef" with
  | Some c => c
  | None => "0"%char
  end.

(** [b.toString(16).padStart(2, '0')] *)
Definition hex_of_byte (b : byte) : string :=
  String (hex_digit (Byte.to_N b / 16))
    (String (hex_digit (Byte.to_N b mod 16)) EmptyString).

Definition generateChecksum (data : list byte) : string :=
  String.concat "" (map hex_of_byte (sha256 data)).

Definition verifyChecksum (data : list byte) (expectedChecksum : string) : bool :=
  String.eqb (generateChecksum data) expectedChecksum.

End WithCrypto.

End EncryptionService.

(** ** JavaScript numbers that the services compute *)

Inductive Number : Type :=
| Num (q : Q)
| Infinity
| NaN
| NegInfinity.

(** [a / b] on non-negative integers. *)
Definition quotient (a b : nat) : Number :=
  match b, a with
  | 0, 0 => NaN
  | 0, S _ => Infinity
  | S _, _ => Num (Z.of_nat a # Pos.of_nat b)
  end.

(** [a / b] for an integer [a] of either sign and a non-negative integer
    [b]. *)
Definition signed_quotient (a : Z) (b : nat) : Number :=
  match b with
  | 0 => if (a =? 0)%Z then NaN else if (0 <? a)%Z then Infinity else NegInfinity
  | S _ => Num (a # Pos.of_nat b)
  end.

(** [x * k] for a positive finite [k]. *)
Definition times (x : Number) (k : Q) : Number :=
  match x with
  | Num q => Num (q * k)
  | Infinity => Infinity
  | NaN => NaN
  | NegInfinity => NegInfinity
  end.



(** [Math.ceil(a / b)] on non-negative integers with [b] positive.  The
    quotient by the chunk size, a power of two, is exact in double
    precision, so the integer ceiling is what the source computes. *)
Definition Math_ceil_div (a b : nat) : nat :=
  if a mod b =? 0 then a / b else S (a / b).

(** [chunks[index] = value] on a JavaScript array: writing past the end
    leaves holes. *)
Definition array_set {A} (index : nat) (value : A) (chunks : list (option A))
  : list (option A) :=
  if index <? length chunks
  then <[index := Some value]> chunks
  else chunks ++ replicate (index - length chunks) None ++ [Some value].

(** [chunks[index] = value] for an integer index.  A negative index names
    a property of the array object that is no element of the array:
    [length], [reduce] and [for ... of] do not see it. *)
Definition array_store {A} (index : Z) (value : A) (chunks : list (option A))
  : list (option A) :=
  if (index <? 0)%Z then chunks else array_set (Z.to_nat index) value chunks.

(** [target.set(source, offset)] on typed arrays. *)
Definition typed_array_set (target source : list byte) (offset : nat)
  : result (list byte) :=
  if length target <? offset + length source
  then Throw RangeError
  else Ok (take offset target ++ source ++ drop (offset + length source) target).

(** ** types/index.ts *)

Inductive TransferStatus : Type :=
| pending | transferring | paused | completed | failed.

Definition TransferStatus_eqb (a b : TransferStatus) : bool :=
  match a, b with
  | pending, pending | transferring, transferring | paused, paused
  | completed, completed | failed, failed => true
  | _, _ => false
  end.

(** A [File].  On the receiving side the application builds a placeholder
    whose [size] property is the announced size while its content is
    empty, so [size] is a field of its own. *)
Module File.
Record t : Type := {
  name : string;
  size : nat;
  content : list byte
}.

(** [file.slice(start, end)] *)
Definition slice (f : t) (start end_ : nat) : list byte :=
  take (end_ - start) (drop start (content f)).
End File.

Module FileTransfer.
Import EncryptionService.

Record t : Type := {
  id : string;
  file : File.t;
  status : TransferStatus;
  progress : Number;
  speed : Number;
  startTime : Z;
  encryptionKey : CryptoKey;
  checksum : string;
  peerId : string
}.

Definition set_id (v : string) (x : t) : t :=
  {| id := v; file := file x; status := status x; progress := progress x;
     speed := speed x; startTime := startTime x;
     encryptionKey := encryptionKey x; checksum := checksum x;
     peerId := peerId x |}.

Definition set_status (v : TransferStatus) (x : t) : t :=
  {| id := id x; file := file x; status := v; progress := progress x;
     speed := speed x; startTime := startTime x;
     encryptionKey := encryptionKey x; checksum := checksum x;
     peerId := peerId x |}.

Definition set_progress (v : Number) (x : t) : t :=
  {| id := id x; file := file x; status := status x; progress := v;
     speed := speed x; startTime := startTime x;
     encryptionKey := encryptionKey x; checksum := checksum x;
     peerId := peerId x |}.

Definition set_speed (v : Number) (x : t) : t :=
  {| id := id x; file := file x; status := status x; progress := progress x;
     speed := v; startTime := startTime x;
     encryptionKey := encryptionKey x; checksum := checksum x;
     peerId := peerId x |}.
End FileTransfer.

(** ** Wire messages *)

Module TransferStart.
Record t : Type := {
  transferId : string;
  fileName : string;
  fileSize : nat;
  totalChunks : nat;
  encryptionKey : string;
  checksum : string
}.
End TransferStart.

Module FileChunk.
Record t : Type := {
  transferId : string;
  chunkIndex : Z;
  encryptedData : string;
  iv : string;
  checksum : string;
  isLastChunk : bool
}.
End FileChunk.

Inductive Message : Type :=
| transfer_start (m : TransferStart.t)
| file_chunk (m : FileChunk.t).

(** ** Observable effects

    A callback triple registered with the service is named by a handle;
    the events carry the [FileTransfer] as the callback sees it. *)

Definition handle : Type := nat.

Inductive Event : Type :=
| Send (message : Message) (accepted : bool)
| OnProgress (h : handle) (transfer : FileTransfer.t)
| OnComplete (h : handle) (transfer : FileTransfer.t)
| OnError (h : handle) (transfer : FileTransfer.t) (error : string)
| Download (blob : list byte) (fileName : string).

(** ** fileTransfer.ts *)

Module FileTransferService.
Import EncryptionService.

Definition CHUNK_SIZE : nat := 4 * 1024.

(** A reference to a [FileTransfer] object: its index in the heap. *)
Abbreviation ref := nat (only parsing).

Record t : Type := {
  heap : list FileTransfer.t;
  activeTransfers : JSMap.t ref;
  transferCallbacks : JSMap.t handle;
  receivedChunks : JSMap.t (list (option (list byte)))
}.

Definition empty : t :=
  {| heap := []; activeTransfers := JSMap.empty;
     transferCallbacks := JSMap.empty; receivedChunks := JSMap.empty |}.

Definition set_heap (v : list FileTransfer.t) (st : t) : t :=
  {| heap := v; activeTransfers := activeTransfers st;
     transferCallbacks := transferCallbacks st;
     receivedChunks := receivedChunks st |}.

Definition set_activeTransfers (v : JSMap.t ref) (st : t) : t :=
  {| heap := heap st; activeTransfers := v;
     transferCallbacks := transferCallbacks st;
     receivedChunks := receivedChunks st |}.

Definition set_transferCallbacks (v : JSMap.t handle) (st : t) : t :=
  {| heap := heap st; activeTransfers := activeTransfers st;
     transferCallbacks := v; receivedChunks := receivedChunks st |}.

Definition set_receivedChunks (v : JSMap.t (list (option (list byte)))) (st : t) : t :=
  {| heap := heap st; activeTransfers := activeTransfers st;
     transferCallbacks := transferCallbacks st; receivedChunks := v |}.

(** Assignment to a property of the object behind [r]. *)
Definition update (r : ref) (f : FileTransfer.t -> FileTransfer.t) (st : t) : t :=
  set_heap (alter f r (heap st)) st.

(** [transfer.status === s] for the object behind [r]. *)
Definition status_is (s : TransferStatus) (r : ref) (st : t) : bool :=
  match heap st !! r with
  | Some transfer => TransferStatus_eqb (FileTransfer.status transfer) s
  | None => false
  end.

(** [this.transferCallbacks.get(transferId)?.cb(transfer)] *)
Definition callback (cb : handle -> FileTransfer.t -> Event)
    (transferId : string) (r : ref) (st : t) : list Event :=
  match JSMap.get transferId (transferCallbacks st), heap st !! r with
  | Some h, Some transfer => [cb h transfer]
  | _, _ => []
  end.

(** What the rest of the program supplies while [sendFileChunks] runs:
    the clock, the random source, and whatever other tasks do to the
    service while the loop is suspended at an [await].  Window [0] is the
    [await] of [exportKey]; window [S i] gathers the [await]s of
    [readFileChunk], [encrypt] and [generateChecksum] for chunk [i]. *)
Record Ambient : Type := {
  Date_now : nat -> Z;
  getRandomValues : nat -> nat -> byte;
  interleaved : nat -> t -> t
}.

(** Registration, as [startFileTransfer] and [registerIncomingTransfer]
    do it: a new object, stored under its own id. *)
Definition registerIncomingTransfer (transfer : FileTransfer.t) (h : handle) (st : t) : t :=
  let r := length (heap st) in
  {| heap := heap st ++ [transfer];
     activeTransfers := JSMap.set (FileTransfer.id transfer) r (activeTransfers st);
     transferCallbacks := JSMap.set (FileTransfer.id transfer) h (transferCallbacks st);
     receivedChunks := receivedChunks st |}.

(** [now] is the value of [Date.now()]; the test is [elapsedTime > 0]. *)
Definition calculateTransferSpeed (now : Z) (transfer : FileTransfer.t)
    (bytesTransferred : Z) : Number :=
  let elapsedTime := (inject_Z (now - FileTransfer.startTime transfer) / 1000)%Q in
  if negb (Qle_bool elapsedTime 0)
  then Num (inject_Z bytesTransferred / elapsedTime)%Q
  else Num 0.

Definition handleTransferError (transferId : string) (error : string) (st : t)
  : t * list Event :=
  match JSMap.get transferId (activeTransfers st) with
  | Some r =>
      let st := update r (FileTransfer.set_status failed) st in
      (st, callback (fun h transfer => OnError h transfer error) transferId r st)
  | None => (st, [])
  end.

Definition pauseTransfer (transferId : string) (st : t) : t :=
  match JSMap.get transferId (activeTransfers st) with
  | Some r =>
      if status_is transferring r st
      then update r (FileTransfer.set_status paused) st
      else st
  | None => st
  end.

Definition resumeTransfer (transferId : string) (st : t) : t :=
  match JSMap.get transferId (activeTransfers st) with
  | Some r =>
      if status_is paused r st
      then update r (FileTransfer.set_status transferring) st
      else st
  | None => st
  end.

Definition cancelTransfer (transferId : string) (st : t) : t :=
  match JSMap.get transferId (activeTransfers st) with
  | Some r =>
      let st := update r (FileTransfer.set_status failed) st in
      let st := set_activeTransfers (JSMap.delete transferId (activeTransfers st)) st in
      set_transferCallbacks (JSMap.delete transferId (transferCallbacks st)) st
  | None => st
  end.

Definition getTransfer (transferId : string) (st : t) : option FileTransfer.t :=
  match JSMap.get transferId (activeTransfers st) with
  | Some r => heap st !! r
  | None => None
  end.

Definition getAllTransfers (st : t) : list FileTransfer.t :=
  omap (fun r => heap st !! r) (JSMap.values (activeTransfers st)).

Definition readFileChunk (file : File.t) (start end_ : nat) : list byte :=
  File.slice file start end_.

Section WithCrypto.
Context `{WebCrypto}.

Definition calculateFileChecksum (file : File.t) : string :=
  generateChecksum (File.content file).

(** [transferId] is what [generateTransferId] returned, [random] the
    entropy of [generateKey] and [now] the clock. *)
Definition startFileTransfer (transferId : string) (random : nat -> byte) (now : Z)
    (file : File.t) (peerId : string) (h : handle) (st : t) : t :=
  let encryptionKey := generateKey random in
  let checksum := calculateFileChecksum file in
  let transfer :=
    {| FileTransfer.id := transferId; FileTransfer.file := file;
       FileTransfer.status := pending; FileTransfer.progress := Num 0;
       FileTransfer.speed := Num 0; FileTransfer.startTime := now;
       FileTransfer.encryptionKey := encryptionKey;
       FileTransfer.checksum := checksum; FileTransfer.peerId := peerId |} in
  registerIncomingTransfer transfer h st.

Section Sender.
Variable sendDataFunction : Message -> bool.
Variable amb : Ambient.
Variable transferId : string.
(** the locals [transfer], [file], [encryptionKey], [totalChunks] *)
Variable r : ref.
Variable file : File.t.
Variable encryptionKey : CryptoKey.
Variable totalChunks : nat.

Definition chunkMessage (i : nat) : Message :=
  let start := i * CHUNK_SIZE in
  let end_ := Nat.min (start + CHUNK_SIZE) (File.size file) in
  let chunkData := readFileChunk file start end_ in
  let '(encrypted, iv) := encrypt (getRandomValues amb i) chunkData encryptionKey in
  let chunkChecksum := generateChecksum chunkData in
  file_chunk
    {| FileChunk.transferId := transferId;
       FileChunk.chunkIndex := Z.of_nat i;
       FileChunk.encryptedData := Base64.btoa encrypted;
       FileChunk.iv := Base64.btoa iv;
       FileChunk.checksum := chunkChecksum;
       FileChunk.isLastChunk := i =? totalChunks - 1 |}.

(** The [for] loop with [remaining = totalChunks - i] iterations to
    go.  The flag is [false] when the function returned from inside
    the loop. *)
Fixpoint sendLoop (remaining i sentChunks : nat) (st : t) : t * list Event * bool :=
  match remaining with
  | 0 => (st, [], true)
  | S remaining' =>
      if status_is paused r st then (st, [], true)
      else
        let st := interleaved amb (S i) st in
        let message := chunkMessage i in
        if negb (sendDataFunction message) then
          let '(st, evs) :=
            handleTransferError transferId
              ("Failed to send chunk " ++ number_to_string i) st in
          (st, Send message false :: evs, false)
        else
          let sentChunks := S sentChunks in
          let st :=
            update r (FileTransfer.set_progress
                        (times (quotient sentChunks totalChunks) 100)) st in
          let st :=
            update r (fun transfer =>
                        FileTransfer.set_speed
                          (calculateTransferSpeed (Date_now amb i) transfer
                             (Z.of_nat (sentChunks * CHUNK_SIZE))) transfer) st in
          let evs := callback OnProgress transferId r st in
          let '(st, evs', finished) := sendLoop remaining' (S i) sentChunks st in
          (st, Send message true :: evs ++ evs', finished)
  end.
End Sender.

Definition sendFileChunks (transferId : string)
    (sendDataFunction : Message -> bool) (amb : Ambient) (st : t)
  : t * list Event * result unit :=
  match JSMap.get transferId (activeTransfers st) with
  | None => (st, [], Throw (Error "Transfer not found"))
  | Some r =>
      match heap st !! r with
      | None => (st, [], Throw TypeError) (* no registered reference dangles *)
      | Some transfer =>
          let st := update r (FileTransfer.set_status transferring) st in
          let file := FileTransfer.file transfer in
          let encryptionKey := FileTransfer.encryptionKey transfer in
          let totalChunks := Math_ceil_div (File.size file) CHUNK_SIZE in
          let st := interleaved amb 0 st in
          match exportKey encryptionKey with
          | Throw e => (st, [], Throw e)
          | Ok keyData =>
              let metadata :=
                transfer_start
                  {| TransferStart.transferId := transferId;
                     TransferStart.fileName := File.name file;
                     TransferStart.fileSize := File.size file;
                     TransferStart.totalChunks := totalChunks;
                     TransferStart.encryptionKey := keyData;
                     TransferStart.checksum :=
                       match heap st !! r with
                       | Some transfer' => FileTransfer.checksum transfer'
                       | None => FileTransfer.checksum transfer
                       end |} in
              if negb (sendDataFunction metadata) then
                let '(st, evs) :=
                  handleTransferError transferId
                    "Failed to send transfer metadata" st in
                (st, Send metadata false :: evs, Ok tt)
              else
                let '(st, evs, finished) :=
                  sendLoop sendDataFunction amb transferId r file
                    encryptionKey totalChunks totalChunks 0 0 st in
                if finished && status_is transferring r st then
                  let st := update r (FileTransfer.set_status completed) st in
                  (st, Send metadata true :: evs
                         ++ callback OnComplete transferId r st, Ok tt)
                else (st, Send metadata true :: evs, Ok tt)
          end
      end
  end.

(** [reconstructFile]: [reduce] skips the holes of the array, the
    [for ... of] loop visits them as [undefined]. *)
Definition totalSize (chunks : list (option (list byte))) : nat :=
  fold_left (fun size chunk =>
               match chunk with
               | Some c => size + length c
               | None => size
               end) chunks 0.

Fixpoint combineChunks (chunks : list (option (list byte))) (combined : list byte)
    (offset : nat) : result (list byte) :=
  match chunks with
  | [] => Ok combined
  | Some chunk :: chunks' =>
      try! combined <- typed_array_set combined chunk offset then
      combineChunks chunks' combined (offset + length chunk)
  | None :: _ =>
      try! combined <- typed_array_set combined [] offset then
      Throw TypeError
  end.

Definition reconstructFile (transferId : string) (st : t) : result (list byte) :=
  match JSMap.get transferId (receivedChunks st) with
  | None => Throw (Error "No chunks found for transfer")
  | Some chunks =>
      combineChunks chunks (replicate (totalSize chunks) x00) 0
  end.

(** The statements of [handleIncomingChunk] that store the chunk. *)
Definition storeChunk (transferId : string) (chunkIndex : Z)
    (decryptedData : list byte) (st : t) : t :=
  let chunks :=
    match JSMap.get transferId (receivedChunks st) with
    | Some chunks => chunks
    | None => []
    end in
  set_receivedChunks
    (JSMap.set transferId (array_store chunkIndex decryptedData chunks)
       (receivedChunks st)) st.

(** The [try] block of [handleIncomingChunk]; [Throw] is an exception
    that reaches the [catch].  The handling of one chunk is taken as one
    step: nothing is interleaved at its [await]s.  The callbacks and the
    download helper, which the application provides, are taken to return
    without an exception, and the engine to allocate the output buffer of
    [reconstructFile]. *)
Definition processChunk (now : Z) (message : FileChunk.t) (r : ref) (st : t)
  : t * list Event * result unit :=
  let transferId := FileChunk.transferId message in
  let chunkIndex := FileChunk.chunkIndex message in
  match Base64.atob (FileChunk.encryptedData message),
        Base64.atob (FileChunk.iv message),
        heap st !! r with
  | Some encryptedBuffer, Some ivArray, Some transfer =>
      match decrypt encryptedBuffer (FileTransfer.encryptionKey transfer) ivArray with
      | Throw e => (st, [], Throw e)
      | Ok decryptedData =>
          if negb (verifyChecksum decryptedData (FileChunk.checksum message)) then
            let '(st, evs) :=
              handleTransferError transferId
                ("Checksum verification failed for chunk "
                   ++ integer_to_string chunkIndex) st in
            (st, evs, Ok tt)
          else
            let st := storeChunk transferId chunkIndex decryptedData st in
            let totalChunks :=
              Math_ceil_div (File.size (FileTransfer.file transfer)) CHUNK_SIZE in
            let st :=
              update r (FileTransfer.set_progress
                          (times (signed_quotient (chunkIndex + 1) totalChunks)
                             100)) st in
            let st :=
              update r (fun transfer =>
                          FileTransfer.set_speed
                            (calculateTransferSpeed now transfer
                               ((chunkIndex + 1) * Z.of_nat CHUNK_SIZE)%Z)
                            transfer) st in
            let evs := callback OnProgress transferId r st in
            if FileChunk.isLastChunk message then
              match reconstructFile transferId st with
              | Throw e => (st, evs, Throw e)
              | Ok completeFile =>
                  let download :=
                    Download completeFile (File.name (FileTransfer.file transfer)) in
                  let st := update r (FileTransfer.set_status completed) st in
                  let evs' := callback OnComplete transferId r st in
                  let st :=
                    set_receivedChunks
                      (JSMap.delete transferId (receivedChunks st)) st in
                  (st, evs ++ download :: evs', Ok tt)
              end
            else (st, evs, Ok tt)
      end
  | None, _, _ | _, None, _ => (st, [], Throw (DOMException "InvalidCharacterError"))
  | _, _, None => (st, [], Throw TypeError)
  end.

(** The fallback of [handleIncomingChunk] for an unknown id: the first
    registered transfer that is 'transferring' is stored again under
    the incoming id. *)
Definition findFallback (st : t) : option ref :=
  List.find (fun r => status_is transferring r st)
            (JSMap.values (activeTransfers st)).

Definition rekey (r : ref) (transferId : string) (st : t) : t :=
  let st :=
    match heap st !! r with
    | Some transfer =>
        set_activeTransfers
          (JSMap.delete (FileTransfer.id transfer) (activeTransfers st)) st
    | None => st
    end in
  let st := update r (FileTransfer.set_id transferId) st in
  set_activeTransfers (JSMap.set transferId r (activeTransfers st)) st.

Definition handleIncomingChunk (now : Z) (message : FileChunk.t) (st : t)
  : t * list Event :=
  let transferId := FileChunk.transferId message in
  let found :=
    match JSMap.get transferId (activeTransfers st) with
    | Some r => Some (r, st)
    | None =>
        match findFallback st with
        | Some r => Some (r, rekey r transferId st)
        | None => None
        end
    end in
  match found with
  | None => (st, [])
  | Some (r, st) =>
      match processChunk now message r st with
      | (st, evs, Ok _) => (st, evs)
      | (st, evs, Throw error) =>
          let '(st, evs') :=
            handleTransferError transferId
              ("Failed to process chunk "
                 ++ integer_to_string (FileChunk.chunkIndex message)
                 ++ ": " ++ error_to_string error) st in
          (st, evs ++ evs')
      end
  end.

End WithCrypto.

End FileTransferService.

(** ** App.tsx: what the receiving peer does with a 'transfer-start' *)

Module App.
Import EncryptionService FileTransferService.

Definition onTransferStart (now : Z) (peerId : string) (data : TransferStart.t)
    (h : handle) (st : FileTransferService.t) : FileTransferService.t :=
  match importKey (TransferStart.encryptionKey data) with
  | Throw _ => st
  | Ok encryptionKey =>
      let mockFile :=
        {| File.name := TransferStart.fileName data;
           File.size := TransferStart.fileSize data;
           File.content := [] |} in
      let transfer :=
        {| FileTransfer.id := TransferStart.transferId data;
           FileTransfer.file := mockFile;
           FileTransfer.status := transferring;
           FileTransfer.progress := Num 0;
           FileTransfer.speed := Num 0;
           FileTransfer.startTime := now;
           FileTransfer.encryptionKey := encryptionKey;
           FileTransfer.checksum := TransferStart.checksum data;
           FileTransfer.peerId := peerId |} in
      registerIncomingTransfer transfer h st
  end.

(** The handler that the application installs with [peerService.onData],
    for the two kinds of message that the services exchange. *)
Definition onData `{WebCrypto} (now : Z) (peerId : string) (data : Message)
    (h : handle) (st : FileTransferService.t)
  : FileTransferService.t * list Event :=
  match data with
  | transfer_start data => (onTransferStart now peerId data h st, [])
  | file_chunk data => handleIncomingChunk now data st
  end.

End App.

(** ** peerService.ts: the registry of data connections

    A PeerJS [DataConnection] is seen through its [open] flag and through
    what [send] was given; the [Peer] through its [id] and its [open] and
    [disconnected] flags. *)

Module DataConnection.
Record t : Type := {
  open : bool;
  sent : list Message
}.

(** [connection.send(data)] *)
Definition send (data : Message) (connection : t) : t :=
  {| open := open connection; sent := sent connection ++ [data] |}.
End DataConnection.

Module Peer.
Record t : Type := {
  id : string;
  open : bool;
  disconnected : bool
}.
End Peer.

Module PeerService.

Record t : Type := {
  peer : option Peer.t;
  connections : JSMap.t DataConnection.t
}.

Definition set_connections (v : JSMap.t DataConnection.t) (st : t) : t :=
  {| peer := peer st; connections := v |}.

(** The part of [setupConnection] that changes the service. *)
Definition setupConnection (peerId : string) (connection : DataConnection.t)
    (st : t) : t :=
  set_connections (JSMap.set peerId connection (connections st)) st.

(** The handler that [setupConnection] installs for the 'close' and the
    'error' event of the connection to [peerId]. *)
Definition onClose (peerId : string) (st : t) : t :=
  set_connections (JSMap.delete peerId (connections st)) st.

Definition in_range (lo hi c : ascii) : bool :=
  (N_of_ascii lo <=? N_of_ascii c)%N && (N_of_ascii c <=? N_of_ascii hi)%N.

(** [[0-9a-f]] under the flag [i] *)
Definition is_hex_digit (c : ascii) : bool :=
  in_range "0" "9" c || in_range "a" "f" c || in_range "A" "F" c.

(** [[a-zA-Z0-9-_]] *)
Definition is_id_char (c : ascii) : bool :=
  in_range "a" "z" c || in_range "A" "Z" c || in_range "0" "9" c
  || Ascii.eqb c "-" || Ascii.eqb c "_".

(** [[0-9a-f]{n}] at the head of [s]; the rest of [s] on a match. *)
Fixpoint hex_run (n : nat) (s : list ascii) : option (list ascii) :=
  match n, s with
  | 0, _ => Some s
  | S n', c :: s' => if is_hex_digit c then hex_run n' s' else None
  | S _, [] => None
  end.

(** [-] at the head of [s]. *)
Definition dash (s : list ascii) : option (list ascii) :=
  match s with
  | c :: s' => if Ascii.eqb c "-" then Some s' else None
  | [] => None
  end.

(** [/^[0-9a-f]{8}-[0-9a-f]{4}-[0-9a-f]{4}-[0-9a-f]{4}-[0-9a-f]{12}$/i] *)
Definition uuidRegex_test (s : string) : bool :=
  match
    s0 ← hex_run 8 (list_ascii_of_string s); s1 ← dash s0;
    s2 ← hex_run 4 s1; s3 ← dash s2;
    s4 ← hex_run 4 s3; s5 ← dash s4;
    s6 ← hex_run 4 s5; s7 ← dash s6;
    hex_run 12 s7
  with
  | Some [] => true
  | _ => false
  end.

(** [/^[a-zA-Z0-9-_]{1,50}$/] *)
Definition shortIdRegex_test (s : string) : bool :=
  let cs := list_ascii_of_string s in
  (1 <=? length cs) && (length cs <=? 50) && forallb is_id_char cs.

Definition validatePeerId (peerId : string) : bool :=
  uuidRegex_test peerId || shortIdRegex_test peerId.

(** How a call of [connectToPeer] goes on before it waits for the
    connection to open. *)
Inductive Attempt : Type :=
| Rejected (message : string)
| Resolved
| Waiting (st : t).

(** [connection] is what [peer.connect] returns. *)
Definition connectToPeer (peerId : string) (connection : DataConnection.t)
    (st : t) : Attempt :=
  if negb (validatePeerId peerId)
  then Rejected "Invalid peer ID format. Expected UUID or alphanumeric string."
  else
    match peer st with
    | None => Rejected "Peer not initialized"
    | Some p =>
        if negb (Peer.open p) then Rejected "Peer not ready"
        else if JSMap.has peerId (connections st) then Resolved
        else if String.eqb peerId (Peer.id p)
        then Rejected "Cannot connect to your own peer ID"
        else Waiting (setupConnection peerId connection st)
    end.

Definition sendData (peerId : string) (data : Message) (st : t) : t * bool :=
  match JSMap.get peerId (connections st) with
  | Some connection =>
      if DataConnection.open connection
      then (set_connections
              (JSMap.set peerId (DataConnection.send data connection)
                 (connections st)) st, true)
      else (st, false)
  | None => (st, false)
  end.

Definition broadcast (data : Message) (st : t) : t :=
  set_connections
    (map (fun '(peerId, connection) =>
            (peerId,
             if DataConnection.open connection
             then DataConnection.send data connection
             else connection))
       (connections st)) st.

Definition getConnectedPeers (st : t) : list string :=
  List.filter
    (fun peerId =>
       match JSMap.get peerId (connections st) with
       | Some connection => DataConnection.open connection
       | None => false
       end)
    (JSMap.keys (connections st)).

(** [connection.close()] ends a connection that is taken out of the map
    in the same call. *)
Definition disconnect (peerId : string) (st : t) : t :=
  match JSMap.get peerId (connections st) with
  | Some _ => set_connections (JSMap.delete peerId (connections st)) st
  | None => st
  end.

Definition isConnectedTo (peerId : string) (st : t) : bool :=
  match JSMap.get peerId (connections st) with
  | Some connection => DataConnection.open connection
  | None => false
  end.

Inductive ConnectionStatus : Type :=
| disconnected | connecting | connected.

Definition getConnectionStatus (st : t) : ConnectionStatus :=
  match peer st with
  | None => disconnected
  | Some p =>
      if Peer.disconnected p then disconnected
      else if length (connections st) =? 0 then disconnected
      else connected
  end.

End PeerService.

(** ** Specification-side vocabulary *)

Module Spec.
Import EncryptionService FileTransferService.

(** The messages handed to the send function, in order. *)
Definition sentMessages (tr : list Event) : list Message :=
  omap (fun e => match e with Send m _ => Some m | _ => None end) tr.

(** The progress values reported to the progress callback, in order. *)
Definition reportedProgress (tr : list Event) : list Number :=
  omap (fun e => match e with
                 | OnProgress _ transfer => Some (FileTransfer.progress transfer)
                 | _ => None
                 end) tr.


(** The transfers reported to the completion callback, in order. *)
Definition completions (tr : list Event) : list FileTransfer.t :=
  omap (fun e => match e with OnComplete _ transfer => Some transfer | _ => None end) tr.

(** What happens after the first message that the channel refused, if
    there is one. *)
Fixpoint afterRefusal (tr : list Event) : option (list Event) :=
  match tr with
  | [] => None
  | Send _ false :: rest => Some rest
  | _ :: rest => afterRefusal rest
  end.

(** [(n / totalChunks) * 100] *)
Definition percent (totalChunks n : nat) : Number :=
  times (quotient n totalChunks) 100.

(** The same for an integer [n] of either sign. *)
Definition signed_percent (totalChunks : nat) (n : Z) : Number :=
  times (signed_quotient n totalChunks) 100.

(** The call of a callback of the triple [callbacks], if there is one. *)
Definition notified (callbacks : option handle) (event : handle -> Event)
  : list Event :=
  match callbacks with
  | Some h => [event h]
  | None => []
  end.

(** The status of the object behind [r]. *)
Definition statusOf (r : ref) (st : FileTransferService.t) : option TransferStatus :=
  FileTransfer.status <$> heap st !! r.

(** No other task touches the service while the sender is suspended. *)
Definition quiet : nat -> FileTransferService.t -> FileTransferService.t :=
  fun _ st => st.

(** [pauseTransfer transferId] runs in window [w], nothing else happens. *)
Definition pauseAt (transferId : string) (w : nat)
  : nat -> FileTransferService.t -> FileTransferService.t :=
  fun w' st => if w' =? w then pauseTransfer transferId st else st.

(** [cancelTransfer transferId] runs in window [w], nothing else happens. *)
Definition cancelAt (transferId : string) (w : nat)
  : nat -> FileTransferService.t -> FileTransferService.t :=
  fun w' st => if w' =? w then cancelTransfer transferId st else st.

(** The other tasks leave the object behind [r], and what is registered
    under [transferId], as they are. *)
Definition undisturbed (transferId : string) (r : ref)
    (other : nat -> FileTransferService.t -> FileTransferService.t) : Prop :=
  forall w st,
    heap (other w st) !! r = heap st !! r
    /\ JSMap.get transferId (activeTransfers (other w st))
       = JSMap.get transferId (activeTransfers st)
    /\ JSMap.get transferId (transferCallbacks (other w st))
       = JSMap.get transferId (transferCallbacks st).

(** The other tasks may change the object behind [r] but keep it and its
    callbacks registered under [transferId]. *)
Definition keepsRegistered (transferId : string) (r : ref)
    (other : nat -> FileTransferService.t -> FileTransferService.t) : Prop :=
  forall w st,
    (is_Some (heap st !! r) -> is_Some (heap (other w st) !! r))
    /\ JSMap.get transferId (activeTransfers (other w st))
       = JSMap.get transferId (activeTransfers st)
    /\ JSMap.get transferId (transferCallbacks (other w st))
       = JSMap.get transferId (transferCallbacks st).

(** The transfer as the progress callback sees it after chunk [i]. *)
Definition progressSnapshot (amb : Ambient) (totalChunks : nat)
    (transfer : FileTransfer.t) (i : nat) : FileTransfer.t :=
  let transfer :=
    FileTransfer.set_progress (times (quotient (S i) totalChunks) 100) transfer in
  FileTransfer.set_speed
    (calculateTransferSpeed (Date_now amb i) transfer
       (Z.of_nat (S i * CHUNK_SIZE))) transfer.

(** The transfer after the last of [totalChunks] progress updates. *)
Definition lastSnapshot (amb : Ambient) (totalChunks : nat)
    (transfer : FileTransfer.t) : FileTransfer.t :=
  match totalChunks with
  | 0 => transfer
  | S i => progressSnapshot amb totalChunks transfer i
  end.

(** The 'transfer-start' message of a transfer. *)
Definition metadata (transferId : string) (transfer : FileTransfer.t) : Message :=
  let file := FileTransfer.file transfer in
  transfer_start
    {| TransferStart.transferId := transferId;
       TransferStart.fileName := File.name file;
       TransferStart.fileSize := File.size file;
       TransferStart.totalChunks := Math_ceil_div (File.size file) CHUNK_SIZE;
       TransferStart.encryptionKey :=
         Base64.btoa (keyData (FileTransfer.encryptionKey transfer));
       TransferStart.checksum := FileTransfer.checksum transfer |}.

(** The bytes of a file from position [lo] up to, not including, [hi]. *)
Definition isWindow (file : File.t) (lo hi : nat) (chunkData : list byte) : Prop :=
  length chunkData = hi - lo
  /\ forall j, j < hi - lo -> chunkData !! j = File.content file !! (lo + j).

(** The chunk message decodes, decrypts under the key of the transfer and
    passes the checksum test, with plaintext [data]. *)
Definition carries `{WebCrypto} (transfer : FileTransfer.t) (message : FileChunk.t)
    (data : list byte) : Prop :=
  exists encryptedBuffer ivArray,
    Base64.atob (FileChunk.encryptedData message) = Some encryptedBuffer
    /\ Base64.atob (FileChunk.iv message) = Some ivArray
    /\ decrypt encryptedBuffer (FileTransfer.encryptionKey transfer) ivArray = Ok data
    /\ verifyChecksum data (FileChunk.checksum message) = true.

(** The chunk buffer of a transfer once [data] is stored at [index]. *)
Definition bufferWith (transferId : string) (index : Z) (data : list byte)
    (st : FileTransferService.t) : list (option (list byte)) :=
  array_store index data
    match JSMap.get transferId (receivedChunks st) with
    | Some chunks => chunks
    | None => []
    end.

(** The transfer as the receiver's progress callback sees it. *)
Definition receivedSnapshot (now : Z) (transfer : FileTransfer.t) (chunkIndex : Z)
  : FileTransfer.t :=
  let totalChunks :=
    Math_ceil_div (File.size (FileTransfer.file transfer)) CHUNK_SIZE in
  let transfer :=
    FileTransfer.set_progress (signed_percent totalChunks (chunkIndex + 1)) transfer in
  FileTransfer.set_speed
    (calculateTransferSpeed now transfer ((chunkIndex + 1) * Z.of_nat CHUNK_SIZE)%Z)
    transfer.


(** The chunks of a buffer without holes, in index order. *)
Definition concatenation (chunks : list (option (list byte))) : list byte :=
  concat (omap (fun c => c) chunks).

(** The chunks that [sendFileChunks] reads from a file, in index order. *)
Definition windows (file : File.t) : list (list byte) :=
  map (fun i =>
         readFileChunk file (i * CHUNK_SIZE)
           (Nat.min (i * CHUNK_SIZE + CHUNK_SIZE) (File.size file)))
      (seq 0 (Math_ceil_div (File.size file) CHUNK_SIZE)).

(** Every registered id leads to a transfer object, and this object
    carries the id. *)
Definition consistent (st : FileTransferService.t) : Prop :=
  forall transferId r,
    JSMap.get transferId (activeTransfers st) = Some r ->
    exists transfer,
      heap st !! r = Some transfer /\ FileTransfer.id transfer = transferId.

(** Two snapshots of a transfer that differ at most in [status],
    [progress] and [speed]. *)
Definition sameTransfer (a b : FileTransfer.t) : Prop :=
  FileTransfer.id a = FileTransfer.id b
  /\ FileTransfer.file a = FileTransfer.file b
  /\ FileTransfer.startTime a = FileTransfer.startTime b
  /\ FileTransfer.encryptionKey a = FileTransfer.encryptionKey b
  /\ FileTransfer.checksum a = FileTransfer.checksum b
  /\ FileTransfer.peerId a = FileTransfer.peerId b.

(** From [st] to [st'] nothing changed but the object behind [r], and of
    this object at most [status], [progress] and [speed]; the registry
    and the callbacks are as they were. *)
Definition touchesOnly (r : ref) (st st' : FileTransferService.t) : Prop :=
  activeTransfers st' = activeTransfers st
  /\ transferCallbacks st' = transferCallbacks st
  /\ length (heap st') = length (heap st)
  /\ (forall r', r' <> r -> heap st' !! r' = heap st !! r')
  /\ (forall transfer,
        heap st !! r = Some transfer ->
        exists transfer', heap st' !! r = Some transfer' /\ sameTransfer transfer transfer').

(** A 'transfer-start' with another checksum. *)
Definition withChecksum (checksum : string) (m : Message) : Message :=
  match m with
  | transfer_start data =>
      transfer_start
        {| TransferStart.transferId := TransferStart.transferId data;
           TransferStart.fileName := TransferStart.fileName data;
           TransferStart.fileSize := TransferStart.fileSize data;
           TransferStart.totalChunks := TransferStart.totalChunks data;
           TransferStart.encryptionKey := TransferStart.encryptionKey data;
           TransferStart.checksum := checksum |}
  | file_chunk _ => m
  end.

(** What the download helper was given, in order. *)
Definition downloaded (tr : list Event) : list (list byte * string) :=
  omap (fun e => match e with
                 | Download blob fileName => Some (blob, fileName)
                 | _ => None
                 end) tr.

(** The errors reported to the error callback, in order. *)
Definition reportedErrors (tr : list Event) : list string :=
  omap (fun e => match e with OnError _ _ error => Some error | _ => None end) tr.

(** The messages that the channel accepted, in order: what reaches the
    other peer. *)
Definition acceptedMessages (tr : list Event) : list Message :=
  omap (fun e => match e with Send m true => Some m | _ => None end) tr.

(** The receiving peer handles the messages in the order of their arrival,
    each one to its end before the next; message [n] arrives at time
    [clock n]. *)
Fixpoint received `{WebCrypto} (clock : nat -> Z) (peerId : string) (h : handle)
    (n : nat) (messages : list Message) (st : FileTransferService.t)
  : FileTransferService.t * list Event :=
  match messages with
  | [] => (st, [])
  | m :: messages' =>
      let '(st, evs) := App.onData (clock n) peerId m h st in
      let '(st, evs') := received clock peerId h (S n) messages' st in
      (st, evs ++ evs')
  end.

End Spec.

(** ** A stand-in for the platform, to run the services on examples *)

Module Demo.
Import EncryptionService FileTransferService.

Fixpoint bytes_eqb (a b : list byte) : bool :=
  match a, b with
  | [], [] => true
  | x :: a', y :: b' => Byte.eqb x y && bytes_eqb a' b'
  | _, _ => false
  end.

(** The ciphertext is the plaintext behind the key and the nonce, which
    decryption checks. *)
Definition toyCrypto : WebCrypto :=
  {| aes_gcm_encrypt key iv data := key ++ iv ++ data;
     aes_gcm_decrypt key iv encrypted :=
       let n := length key + length iv in
       if bytes_eqb (take n encrypted) (key ++ iv)
       then Some (drop n encrypted) else None;
     sha256 data := take 4 data;
     exception_message e :=
       match e with
       | TypeError =>
           "Cannot read properties of undefined (reading 'byteLength')"%string
       | DOMException name =>
           if String.eqb name "InvalidCharacterError"
           then "The string to be decoded is not correctly encoded."%string
           else ""%string
       | _ => ""%string
       end |}.

Definition zeros : nat -> byte := fun _ => x00.

Definition ambient (other : nat -> FileTransferService.t -> FileTransferService.t)
  : Ambient :=
  {| Date_now := fun i => (1000 + 1000 * Z.of_nat i)%Z;
     getRandomValues := fun _ _ => x07;
     interleaved := other |}.

Definition accept : Message -> bool := fun _ => true.

(** The channel accepts the metadata and the chunks below [n]. *)
Definition acceptBelow (n : nat) : Message -> bool :=
  fun m => match m with
           | transfer_start _ => true
           | file_chunk c => (FileChunk.chunkIndex c <? Z.of_nat n)%Z
           end.

(** A file of 9000 bytes: three chunks of 4096, 4096 and 808 bytes. *)
Definition report : File.t :=
  {| File.name := "report.bin"; File.size := 9 * 1000;
     File.content := replicate (9 * 1000) x2a |}.

Definition emptyFile : File.t :=
  {| File.name := "empty.txt"; File.size := 0; File.content := [] |}.

(** The sender after [startFileTransfer] of [report]. *)
Definition sender : FileTransferService.t :=
  @startFileTransfer toyCrypto "t1" zeros 0 report "peer-b" 7
    FileTransferService.empty.

(** The transfer object that [sender] holds. *)
Definition reportTransfer : FileTransfer.t :=
  {| FileTransfer.id := "t1"; FileTransfer.file := report;
     FileTransfer.status := pending; FileTransfer.progress := Num 0;
     FileTransfer.speed := Num 0; FileTransfer.startTime := 0;
     FileTransfer.encryptionKey := generateKey zeros;
     FileTransfer.checksum := @calculateFileChecksum toyCrypto report;
     FileTransfer.peerId := "peer-b" |}.

Definition senderOfEmpty : FileTransferService.t :=
  @startFileTransfer toyCrypto "t0" zeros 0 emptyFile "peer-b" 7
    FileTransferService.empty.

Definition emptyTransfer : FileTransfer.t :=
  {| FileTransfer.id := "t0"; FileTransfer.file := emptyFile;
     FileTransfer.status := pending; FileTransfer.progress := Num 0;
     FileTransfer.speed := Num 0; FileTransfer.startTime := 0;
     FileTransfer.encryptionKey := generateKey zeros;
     FileTransfer.checksum := @calculateFileChecksum toyCrypto emptyFile;
     FileTransfer.peerId := "peer-b" |}.

(** What the sender announces for [report]. *)
Definition announcement (transferId : string) (fileSize : nat) : TransferStart.t :=
  {| TransferStart.transferId := transferId;
     TransferStart.fileName := "report.bin";
     TransferStart.fileSize := fileSize;
     TransferStart.totalChunks := Math_ceil_div fileSize CHUNK_SIZE;
     TransferStart.encryptionKey := Base64.btoa (map zeros (seq 0 32));
     TransferStart.checksum := "" |}.

(** A receiver that accepted the announcement of a transfer [transferId]
    of [fileSize] bytes. *)
Definition receiver (transferId : string) (fileSize : nat) (h : handle)
    (st : FileTransferService.t) : FileTransferService.t :=
  App.onTransferStart 0 "peer-a" (announcement transferId fileSize) h st.

(** A chunk as the sender frames it. *)
Definition chunk (transferId : string) (index : Z) (data : list byte)
    (isLast : bool) : FileChunk.t :=
  let '(encrypted, iv) :=
    @encrypt toyCrypto (fun _ => x07) data (generateKey zeros) in
  {| FileChunk.transferId := transferId;
     FileChunk.chunkIndex := index;
     FileChunk.encryptedData := Base64.btoa encrypted;
     FileChunk.iv := Base64.btoa iv;
     FileChunk.checksum := @generateChecksum toyCrypto data;
     FileChunk.isLastChunk := isLast |}.

(** The receiver of [report] after the 'transfer-start', and the transfer
    object it holds. *)
Definition receiving : FileTransferService.t :=
  receiver "t1" (9 * 1000) 7 FileTransferService.empty.

Definition incomingTransfer (transferId : string) : FileTransfer.t :=
  {| FileTransfer.id := transferId;
     FileTransfer.file :=
       {| File.name := "report.bin"; File.size := 9 * 1000; File.content := [] |};
     FileTransfer.status := transferring; FileTransfer.progress := Num 0;
     FileTransfer.speed := Num 0; FileTransfer.startTime := 0;
     FileTransfer.encryptionKey := generateKey zeros;
     FileTransfer.checksum := ""; FileTransfer.peerId := "peer-a" |}.

Definition hi : list byte := [x68; x69].

(** The last chunk of [report] arrives first. *)
Definition lastFirst : FileChunk.t := chunk "t1" 2 hi true.


(** Chunk 1 arrives before chunk 0. *)
Definition second : FileChunk.t := chunk "t1" 1 hi false.
Definition first : FileChunk.t := chunk "t1" 0 hi false.

(** A receiver with two incoming transfers, neither with a chunk yet, and
    a chunk for an id that is not registered. *)
Definition receivingTwo : FileTransferService.t :=
  receiver "b" (9 * 1000) 8 (receiver "a" (9 * 1000) 7 FileTransferService.empty).

Definition orphan : FileChunk.t := chunk "c" 0 hi false.



(** A receiver whose only transfer is paused. *)
Definition receivingPaused : FileTransferService.t :=
  pauseTransfer "t1" receiving.

(** [receiving] once chunk 0 is in the buffer. *)
Definition receivedOne : FileTransferService.t :=
  (@handleIncomingChunk toyCrypto 5000 first receiving).1.



(** The user cancels while chunk 0 is read and encrypted; the channel
    accepts everything. *)
Definition cancelledRun : FileTransferService.t * list Event * result unit :=
  @sendFileChunks toyCrypto "t1" accept (ambient (Spec.cancelAt "t1" 1)) sender.

(** The same, and the channel refuses chunk 1. *)
Definition cancelledRefusedRun : FileTransferService.t * list Event * result unit :=
  @sendFileChunks toyCrypto "t1" (acceptBelow 1) (ambient (Spec.cancelAt "t1" 1)) sender.

(** A chunk for an id that is not registered arrives in window [w]. *)
Definition orphanAt (w : nat) : nat -> FileTransferService.t -> FileTransferService.t :=
  fun w' st =>
    if w' =? w then (@handleIncomingChunk toyCrypto 5000 orphan st).1 else st.

(** Such a chunk arrives while chunk 0 is read and encrypted, and the
    channel refuses chunk 1. *)
Definition rekeyedRefusedRun : FileTransferService.t * list Event * result unit :=
  @sendFileChunks toyCrypto "t1" (acceptBelow 1) (ambient (orphanAt 1)) sender.

(** The receiving peer: every message of a run, in order, goes through the
    message handler of the application. *)
Definition deliver (messages : list Message) : FileTransferService.t * list Event :=
  fold_left
    (fun '(st, evs) m =>
       match m with
       | transfer_start data => (App.onTransferStart 0 "peer-a" data 9 st, evs)
       | file_chunk c =>
           let '(st, evs') := @handleIncomingChunk toyCrypto 7000 c st in
           (st, evs ++ evs')
       end)
    messages (FileTransferService.empty, []).

(** What the download helper was given. *)
Definition downloads (tr : list Event) : list (list byte * string) :=
  omap (fun e => match e with
                 | Download blob fileName => Some (blob, fileName)
                 | _ => None
                 end) tr.

(** A peer that is ready and has no connection yet, and a connection as
    [peer.connect] returns it: not open so far. *)
Definition peerService : PeerService.t :=
  {| PeerService.peer :=
       Some {| Peer.id := "peer-a"; Peer.open := true; Peer.disconnected := false |};
     PeerService.connections := JSMap.empty |}.

Definition pendingConnection : DataConnection.t :=
  {| DataConnection.open := false; DataConnection.sent := [] |}.

End Demo.

(** * Properties *)

(** ** Base64 *)

Section Base64Facts.
Import Base64.
Local Open Scope N_scope.

Lemma sextet_of_char_of_sextet (n : N) :
  n < 64 -> sextet_of_char (char_of_sextet n) = Some n.
Proof.
  intros Hn.
  assert (Hcases : exists k : nat, (k < 64)%nat /\ n = N.of_nat k).
  { exists (N.to_nat n). split; lia. }
  destruct Hcases as (k & Hk & ->).
  do 64 (destruct k as [|k]; [reflexivity|]). lia.
Qed.

Lemma byte_of_N_to_N (b : byte) : byte_of_N (Byte.to_N b) = b.
Proof.
  unfold byte_of_N.
  pose proof (Byte.to_N_bounded b) as Hb.
  rewrite N.mod_small by lia.
  now rewrite Byte.of_to_N.
Qed.

Lemma byte_of_N_mod (n : N) : byte_of_N (n mod 256) = byte_of_N n.
Proof. unfold byte_of_N. now rewrite N.Div0.mod_mod. Qed.

Lemma byte_of_N_eq (n : N) (b : byte) :
  n mod 256 = Byte.to_N b -> byte_of_N n = b.
Proof.
  intros H. rewrite <- byte_of_N_mod, H. apply byte_of_N_to_N.
Qed.

(** Induction on byte sequences three bytes at a time. *)
Lemma list_ind3 {A} (P : list A -> Prop) :
  P [] -> (forall a, P [a]) -> (forall a b, P [a; b]) ->
  (forall a b c rest, P rest -> P (a :: b :: c :: rest)) ->
  forall l, P l.
Proof.
  intros H0 H1 H2 H3.
  assert (Hall : forall l, P l /\ (forall a, P (a :: l)) /\ (forall a b, P (a :: b :: l))).
  { induction l as [|x l (IH0 & IH1 & IH2)]; [now auto|].
    repeat split; auto. }
  intros l. apply Hall.
Qed.

Lemma bytes_of_sextets_sextets (bs : list byte) :
  bytes_of_sextets (sextets bs) = bs.
Proof.
  induction bs as [|a|a b|a b c rest IH] using list_ind3.
  - reflexivity.
  - pose proof (Byte.to_N_bounded a).
    cbn [sextets bytes_of_sextets]. f_equal.
    apply byte_of_N_eq.
    zify; Z.to_euclidean_division_equations; lia.
  - pose proof (Byte.to_N_bounded a). pose proof (Byte.to_N_bounded b).
    cbn [sextets bytes_of_sextets]. 
    f_equal; [|f_equal]; apply byte_of_N_eq;
    zify; Z.to_euclidean_division_equations; lia.
  - pose proof (Byte.to_N_bounded a). pose proof (Byte.to_N_bounded b).
    pose proof (Byte.to_N_bounded c).
    cbn [sextets bytes_of_sextets app]. rewrite IH.
    f_equal; [|f_equal; [|f_equal]]; apply byte_of_N_eq;
    zify; Z.to_euclidean_division_equations; lia.
Qed.

Lemma char_of_sextet_plain (n : N) :
  n < 64 ->
  is_ascii_whitespace (char_of_sextet n) = false
  /\ Ascii.eqb (char_of_sextet n) "=" = false.
Proof.
  intros Hn.
  assert (Hcases : exists k : nat, (k < 64)%nat /\ n = N.of_nat k).
  { exists (N.to_nat n). split; lia. }
  destruct Hcases as (k & Hk & ->).
  do 64 (destruct k as [|k]; [split; reflexivity|]). lia.
Qed.

Lemma sextets_lt (bs : list byte) : Forall (fun n => n < 64) (sextets bs).
Proof.
  induction bs as [|a|a b|a b c rest IH] using list_ind3;
    cbn [sextets app].
  - apply List.Forall_nil.
  - pose proof (Byte.to_N_bounded a).
    repeat apply List.Forall_cons; try apply List.Forall_nil;
      first [apply N.mod_lt; lia | apply N.Div0.div_lt_upper_bound; lia].
  - pose proof (Byte.to_N_bounded a). pose proof (Byte.to_N_bounded b).
    repeat apply List.Forall_cons; try apply List.Forall_nil;
      first [apply N.mod_lt; lia | apply N.Div0.div_lt_upper_bound; lia].
  - pose proof (Byte.to_N_bounded a). pose proof (Byte.to_N_bounded b).
    pose proof (Byte.to_N_bounded c).
    repeat apply List.Forall_cons; try assumption;
      first [apply N.mod_lt; lia | apply N.Div0.div_lt_upper_bound; lia].
Qed.

Lemma sextets_length (bs : list byte) :
  (length (sextets bs) = 4 * (length bs / 3) +
     match length bs mod 3 with 0 => 0 | 1 => 2 | _ => 3 end)%nat.
Proof.
  induction bs as [|a|a b|a b c rest IH] using list_ind3; try reflexivity.
  cbn [sextets app length]. rewrite IH.
  set (n := length rest).
  assert (Hd : (S (S (S n)) / 3 = S (n / 3))%nat)
    by (zify; Z.to_euclidean_division_equations; lia).
  assert (Hm : (S (S (S n)) mod 3 = n mod 3)%nat)
    by (zify; Z.to_euclidean_division_equations; lia).
  rewrite Hd, Hm. lia.
Qed.

Lemma all_sextets_chars (ns : list N) :
  Forall (fun n => n < 64) ns ->
  all_sextets (map char_of_sextet ns) = Some ns.
Proof.
  induction 1 as [|n ns Hn _ IH]; [reflexivity|].
  cbn [map all_sextets]. now rewrite sextet_of_char_of_sextet, IH.
Qed.

Lemma filter_chars (ns : list N) (pad : list ascii) :
  Forall (fun n => n < 64) ns ->
  Forall (fun c => c = "="%char) pad ->
  List.filter (fun c => negb (is_ascii_whitespace c)) (map char_of_sextet ns ++ pad)
  = map char_of_sextet ns ++ pad.
Proof.
  intros Hns Hpad. rewrite List.filter_app. f_equal.
  - induction Hns as [|n ns Hn _ IH]; [reflexivity|].
    cbn [map List.filter].
    destruct (char_of_sextet_plain n Hn) as [-> _]. cbn [negb]. now rewrite IH.
  - induction Hpad as [|c pad -> _ IH]; [reflexivity|].
    cbn [List.filter]. now rewrite IH.
Qed.

Lemma strip_padding_chars (ns : list N) (k : nat) :
  Forall (fun n => n < 64) ns ->
  strip_padding (map char_of_sextet ns ++ padding k) = map char_of_sextet ns.
Proof.
  intros Hns. unfold strip_padding. rewrite rev_app_distr, <- map_rev.
  assert (Hrev : Forall (fun n => n < 64) (rev ns)) by now apply Forall_rev.
  assert (Hback : rev (map char_of_sextet (rev ns)) = map char_of_sextet ns).
  { now rewrite map_rev, rev_involutive. }
  unfold padding.
  destruct (k mod 3)%nat as [|[|[|j]]]; cbn [rev app Ascii.eqb Bool.eqb].
  - rewrite app_nil_r.
    destruct Hrev as [|n r Hn _]; [reflexivity|]. cbn [map].
    now destruct (char_of_sextet_plain n Hn) as [_ ->].
  - exact Hback.
  - destruct Hrev as [|n r Hn Hr]; [exact Hback|]. cbn [map app].
    destruct (char_of_sextet_plain n Hn) as [_ ->]. exact Hback.
  - rewrite app_nil_r.
    destruct Hrev as [|n r Hn _]; [reflexivity|]. cbn [map].
    now destruct (char_of_sextet_plain n Hn) as [_ ->].
Qed.

(** Decoding what [btoa] produced gives the bytes back. *)
Lemma atob_btoa (bs : list byte) : atob (btoa bs) = Some bs.
Proof.
  unfold atob, btoa.
  rewrite list_ascii_of_string_of_list_ascii.
  pose proof (sextets_lt bs) as Hlt.
  pose proof (sextets_length bs) as Hlen.
  assert (Hpad : Forall (fun c => c = "="%char) (padding (length bs))).
  { unfold padding. destruct (length bs mod 3)%nat as [|[|[|j]]]; repeat constructor. }
  rewrite filter_chars by assumption.
  assert (Hfull : (length (map char_of_sextet (sextets bs) ++ padding (length bs)) mod 4 = 0)%nat).
  { rewrite length_app, length_map, Hlen. unfold padding.
    pose proof (Nat.mod_upper_bound (length bs) 3 ltac:(lia)).
    destruct (length bs mod 3)%nat as [|[|[|j]]]; cbn [length];
      zify; Z.to_euclidean_division_equations; lia. }
  rewrite Hfull. cbn [Nat.eqb].
  rewrite strip_padding_chars by assumption.
  assert (Hrem : (length (map char_of_sextet (sextets bs)) mod 4 <> 1)%nat).
  { rewrite length_map, Hlen.
    pose proof (Nat.mod_upper_bound (length bs) 3 ltac:(lia)).
    destruct (length bs mod 3)%nat as [|[|[|j]]];
      zify; Z.to_euclidean_division_equations; lia. }
  destruct (Nat.eqb_spec (length (map char_of_sextet (sextets bs)) mod 4) 1) as [E|_];
    [contradiction|].
  rewrite all_sextets_chars by assumption. cbn [option_map].
  now rewrite bytes_of_sextets_sextets.
Qed.

Example btoa_two_bytes : btoa Demo.hi = "aGk="%string.
Proof. reflexivity. Qed.

Example atob_skips_whitespace : atob " a G k = " = Some Demo.hi.
Proof. reflexivity. Qed.

Example atob_rejects_bad_padding : atob "aGk==" = None.
Proof. reflexivity. Qed.

End Base64Facts.

(** ** JavaScript maps *)

Section JSMapFacts.
Context {V : Type}.
Implicit Types (m : JSMap.t V) (k : string) (v : V).

Lemma get_set_eq m k v : JSMap.get k (JSMap.set k v m) = Some v.
Proof.
  induction m as [|[k' v'] m IH]; cbn [JSMap.set JSMap.get].
  - now rewrite String.eqb_refl.
  - destruct (String.eqb_spec k k') as [->|Hne]; cbn [JSMap.get].
    + now rewrite String.eqb_refl.
    + destruct (String.eqb_spec k k'); [contradiction|exact IH].
Qed.

Lemma get_set_ne m k k' v :
  k <> k' -> JSMap.get k (JSMap.set k' v m) = JSMap.get k m.
Proof.
  intros Hne. induction m as [|[k0 v0] m IH]; cbn [JSMap.set JSMap.get].
  - destruct (String.eqb_spec k k'); [contradiction|reflexivity].
  - destruct (String.eqb_spec k' k0) as [->|Hne0]; cbn [JSMap.get].
    + destruct (String.eqb_spec k k0); [contradiction|reflexivity].
    + destruct (String.eqb_spec k k0); [reflexivity|exact IH].
Qed.

Lemma get_delete_eq m k : JSMap.get k (JSMap.delete k m) = None.
Proof.
  induction m as [|[k' v'] m IH]; cbn [JSMap.delete JSMap.get]; [reflexivity|].
  destruct (String.eqb_spec k k') as [->|Hne]; [exact IH|].
  cbn [JSMap.get]. destruct (String.eqb_spec k k'); [contradiction|exact IH].
Qed.

Lemma get_delete_ne m k k' :
  k <> k' -> JSMap.get k (JSMap.delete k' m) = JSMap.get k m.
Proof.
  intros Hne. induction m as [|[k0 v0] m IH]; cbn [JSMap.delete JSMap.get];
    [reflexivity|].
  destruct (String.eqb_spec k' k0) as [->|Hne0].
  - destruct (String.eqb_spec k k0); [contradiction|exact IH].
  - cbn [JSMap.get]. destruct (String.eqb_spec k k0); [reflexivity|exact IH].
Qed.

End JSMapFacts.

(** ** The ceiling of the quotient by the chunk size *)

Section Ceiling.
Import FileTransferService.

Lemma CHUNK_SIZE_pos : 0 < CHUNK_SIZE.
Proof. unfold CHUNK_SIZE. lia. Qed.

(** [Math_ceil_div a b] is the least [t] with [a <= t * b]. *)
Lemma Math_ceil_div_spec (a b : nat) :
  0 < b ->
  a <= Math_ceil_div a b * b /\
  (forall t, a <= t * b -> Math_ceil_div a b <= t).
Proof.
  intros Hb. unfold Math_ceil_div.
  pose proof (Nat.div_mod_eq a b) as Hdm.
  pose proof (Nat.mod_upper_bound a b ltac:(lia)) as Hlt.
  destruct (Nat.eqb_spec (a mod b) 0) as [E|E]; split.
  - nia.
  - intros t Ht. apply Nat.Div0.div_le_upper_bound. lia.
  - nia.
  - intros t Ht.
    destruct (Nat.le_gt_cases (S (a / b)) t) as [|Hgt]; [assumption|].
    assert (t * b <= (a / b) * b) by (apply Nat.mul_le_mono_r; lia). nia.
Qed.

Lemma Math_ceil_div_zero (a b : nat) :
  0 < b -> (Math_ceil_div a b = 0 <-> a = 0).
Proof.
  intros Hb. destruct (Math_ceil_div_spec a b Hb) as [Hup Hleast]. split.
  - intros E. rewrite E in Hup. lia.
  - intros ->. specialize (Hleast 0). lia.
Qed.

Example three_chunks : Math_ceil_div (9 * 1000) CHUNK_SIZE = 3.
Proof. reflexivity. Qed.

Example exact_multiple : Math_ceil_div (2 * CHUNK_SIZE) CHUNK_SIZE = 2.
Proof. reflexivity. Qed.

End Ceiling.

(** ** The encryption service *)

Section Encryption.
Import EncryptionService.

Lemma toyCrypto_correct : @WebCryptoCorrect Demo.toyCrypto.
Proof.
  intros key iv data. cbn.
  replace (length key + length iv) with (length (key ++ iv)) by now rewrite length_app.
  rewrite app_assoc, take_app_length, drop_app_length.
  assert (Hrefl : forall l, Demo.bytes_eqb l l = true).
  { induction l as [|b l IH]; [reflexivity|]. cbn.
    rewrite IH, andb_true_r. now destruct b. }
  now rewrite Hrefl.
Qed.

Lemma importKey_exportKey (random : nat -> byte) :
  bind (exportKey (generateKey random)) importKey = Ok (generateKey random).
Proof.
  unfold exportKey, generateKey, importKey, bind. cbn [extractable keyData].
  rewrite atob_btoa. rewrite length_map, length_seq. reflexivity.
Qed.

(** C3.  A ciphertext decrypted under the key and the nonce that [encrypt]
    returned with it gives the plaintext back, and a generated key that
    went through [exportKey] and [importKey] is the same key, so that
    what one encrypts the other decrypts. *)
Theorem encrypt_decrypt_round_trip `{WebCryptoCorrect} :
  (forall random plaintext key,
      decrypt (encrypt random plaintext key).1 key
              (encrypt random plaintext key).2 = Ok plaintext)
  /\ (forall random,
        let key := generateKey random in
        exists exported,
          exportKey key = Ok exported
          /\ importKey exported = Ok key
          /\ forall key', importKey exported = Ok key' ->
               forall rnd plaintext,
                 decrypt (encrypt rnd plaintext key).1 key'
                         (encrypt rnd plaintext key).2 = Ok plaintext
                 /\ decrypt (encrypt rnd plaintext key').1 key
                            (encrypt rnd plaintext key').2 = Ok plaintext).
Proof.
  assert (Hrt : forall random plaintext key,
             decrypt (encrypt random plaintext key).1 key
                     (encrypt random plaintext key).2 = Ok plaintext).
  { intros random plaintext key. unfold encrypt, decrypt. cbn [fst snd].
    now rewrite aes_gcm_decrypt_encrypt. }
  split; [exact Hrt|].
  intros random key.
  pose proof (importKey_exportKey random) as Hie. fold key in Hie.
  destruct (exportKey key) as [exported|e] eqn:Hexp; [|discriminate].
  exists exported. cbn [bind] in Hie. repeat split; try assumption.
  - assert (key' = key) as -> by congruence. apply Hrt.
  - assert (key' = key) as -> by congruence. apply Hrt.
Qed.

Lemma encrypt_decrypt_round_trip_witness :
  (forall random plaintext key,
      @decrypt Demo.toyCrypto (@encrypt Demo.toyCrypto random plaintext key).1 key
              (@encrypt Demo.toyCrypto random plaintext key).2 = Ok plaintext)
  /\ (forall random,
        let key := generateKey random in
        exists exported,
          exportKey key = Ok exported
          /\ importKey exported = Ok key
          /\ forall key', importKey exported = Ok key' ->
               forall rnd plaintext,
                 @decrypt Demo.toyCrypto (@encrypt Demo.toyCrypto rnd plaintext key).1 key'
                         (@encrypt Demo.toyCrypto rnd plaintext key).2 = Ok plaintext
                 /\ @decrypt Demo.toyCrypto (@encrypt Demo.toyCrypto rnd plaintext key').1 key
                            (@encrypt Demo.toyCrypto rnd plaintext key').2 = Ok plaintext).
Proof.
  exact (@encrypt_decrypt_round_trip Demo.toyCrypto toyCrypto_correct).
Defined.

End Encryption.

(** ** Progress and speed values *)

Section Numbers.
Import FileTransferService.






(** On integers that are not negative, the quotient of either sign is the
    quotient. *)
Lemma signed_quotient_of_nat a b : signed_quotient (Z.of_nat a) b = quotient a b.
Proof.
  unfold signed_quotient, quotient. destruct b as [|b]; [|reflexivity].
  destruct a as [|a]; reflexivity.
Qed.

Lemma signed_percent_of_nat totalChunks n :
  Spec.signed_percent totalChunks (Z.of_nat n) = Spec.percent totalChunks n.
Proof. unfold Spec.signed_percent, Spec.percent. now rewrite signed_quotient_of_nat. Qed.





End Numbers.

(** ** Assignments to a transfer object *)

Section Objects.
Import FileTransferService.
Implicit Types (st : FileTransferService.t) (r : ref).

Lemma lookup_update_eq st r f :
  heap (update r f st) !! r = f <$> heap st !! r.
Proof. cbn [update set_heap heap]. apply list_lookup_alter_eq. Qed.

Lemma lookup_update_ne st r r' f :
  r <> r' -> heap (update r f st) !! r' = heap st !! r'.
Proof. intros Hne. cbn [update set_heap heap]. now apply list_lookup_alter_ne. Qed.

Lemma update_id st r f transfer :
  heap st !! r = Some transfer -> f transfer = transfer -> update r f st = st.
Proof.
  intros Hr Hf. destruct st as [h a c rc]. unfold update, set_heap. cbn in *. f_equal.
  apply list_eq. intros j. destruct (decide (r = j)) as [->|Hne].
  - rewrite list_lookup_alter_eq, Hr. cbn. now rewrite Hf.
  - now rewrite list_lookup_alter_ne.
Qed.

Lemma status_is_true s r st :
  status_is s r st = true <-> Spec.statusOf r st = Some s.
Proof.
  unfold status_is, Spec.statusOf. destruct (heap st !! r) as [transfer|]; cbn.
  - destruct (FileTransfer.status transfer), s; cbn; split; congruence.
  - split; congruence.
Qed.

Lemma status_is_false s r st :
  status_is s r st = false <-> Spec.statusOf r st <> Some s.
Proof.
  rewrite <- status_is_true. destruct (status_is s r st); split; congruence.
Qed.

Lemma statusOf_set_status st r s :
  is_Some (heap st !! r) ->
  Spec.statusOf r (update r (FileTransfer.set_status s) st) = Some s.
Proof.
  intros [transfer Hr]. unfold Spec.statusOf. now rewrite lookup_update_eq, Hr.
Qed.

End Objects.

(** ** Control calls *)

Section Control.
Import FileTransferService.
Implicit Types (st : FileTransferService.t) (r : ref).

(** C10.  For an id that is not registered, [sendFileChunks] throws
    'Transfer not found': the service is left as it was and nothing is
    sent and no callback runs. *)
Theorem sendFileChunks_unknown_transfer `{WebCrypto}
    (transferId : string) (sendDataFunction : Message -> bool)
    (amb : Ambient) st :
  JSMap.get transferId (activeTransfers st) = None ->
  sendFileChunks transferId sendDataFunction amb st
  = (st, [], Throw (Error "Transfer not found")).
Proof. intros Hnone. unfold sendFileChunks. now rewrite Hnone. Qed.

Lemma sendFileChunks_unknown_transfer_witness :
  @sendFileChunks Demo.toyCrypto "t2" Demo.accept (Demo.ambient Spec.quiet) Demo.sender
  = (Demo.sender, [], Throw (Error "Transfer not found")).
Proof.
  apply (@sendFileChunks_unknown_transfer Demo.toyCrypto). reflexivity.
Defined.

Lemma pauseTransfer_spec transferId st :
  (forall r, JSMap.get transferId (activeTransfers st) = Some r ->
             Spec.statusOf r st = Some transferring ->
             pauseTransfer transferId st
             = update r (FileTransfer.set_status paused) st)
  /\ ((forall r, JSMap.get transferId (activeTransfers st) = Some r ->
                 Spec.statusOf r st <> Some transferring) ->
      pauseTransfer transferId st = st).
Proof.
  unfold pauseTransfer. split.
  - intros r -> Hs. apply status_is_true in Hs. now rewrite Hs.
  - intros Hn. destruct (JSMap.get transferId (activeTransfers st)) as [r|]; [|reflexivity].
    specialize (Hn r eq_refl). apply status_is_false in Hn. now rewrite Hn.
Qed.

Lemma resumeTransfer_spec transferId st :
  (forall r, JSMap.get transferId (activeTransfers st) = Some r ->
             Spec.statusOf r st = Some paused ->
             resumeTransfer transferId st
             = update r (FileTransfer.set_status transferring) st)
  /\ ((forall r, JSMap.get transferId (activeTransfers st) = Some r ->
                 Spec.statusOf r st <> Some paused) ->
      resumeTransfer transferId st = st).
Proof.
  unfold resumeTransfer. split.
  - intros r -> Hs. apply status_is_true in Hs. now rewrite Hs.
  - intros Hn. destruct (JSMap.get transferId (activeTransfers st)) as [r|]; [|reflexivity].
    specialize (Hn r eq_refl). apply status_is_false in Hn. now rewrite Hn.
Qed.

(** [cancelTransfer] never touches the chunk buffers. *)
Lemma cancelTransfer_receivedChunks transferId st :
  receivedChunks (cancelTransfer transferId st) = receivedChunks st.
Proof.
  unfold cancelTransfer.
  now destruct (JSMap.get transferId (activeTransfers st)).
Qed.

Lemma cancelTransfer_unregisters transferId st r :
  JSMap.get transferId (activeTransfers st) = Some r ->
  JSMap.get transferId (activeTransfers (cancelTransfer transferId st)) = None
  /\ JSMap.get transferId (transferCallbacks (cancelTransfer transferId st)) = None
  /\ (is_Some (heap st !! r) ->
      Spec.statusOf r (cancelTransfer transferId st) = Some failed).
Proof.
  intros Hr. unfold cancelTransfer. rewrite Hr. cbn.
  repeat split; try apply get_delete_eq.
  intros [transfer Ht]. unfold Spec.statusOf. cbn.
  now rewrite list_lookup_alter_eq, Ht.
Qed.

End Control.

(** ** The sender *)

Section SenderFacts.
Import EncryptionService FileTransferService.
Context `{WebCrypto}.
Implicit Types (st : FileTransferService.t) (r : ref) (tr evs : list Event).

Lemma sentMessages_app tr1 tr2 :
  Spec.sentMessages (tr1 ++ tr2) = Spec.sentMessages tr1 ++ Spec.sentMessages tr2.
Proof. apply omap_app. Qed.

Lemma sentMessages_send m accepted tr :
  Spec.sentMessages (Send m accepted :: tr) = m :: Spec.sentMessages tr.
Proof. reflexivity. Qed.

Lemma sentMessages_callback_progress transferId r st :
  Spec.sentMessages (callback OnProgress transferId r st) = [].
Proof.
  unfold callback.
  now destruct (JSMap.get transferId (transferCallbacks st)), (heap st !! r).
Qed.

Lemma sentMessages_callback_complete transferId r st :
  Spec.sentMessages (callback OnComplete transferId r st) = [].
Proof.
  unfold callback.
  now destruct (JSMap.get transferId (transferCallbacks st)), (heap st !! r).
Qed.

Lemma sentMessages_callback_error error transferId r st :
  Spec.sentMessages
    (callback (fun h transfer => OnError h transfer error) transferId r st) = [].
Proof.
  unfold callback.
  now destruct (JSMap.get transferId (transferCallbacks st)), (heap st !! r).
Qed.

Lemma sentMessages_handleTransferError transferId error st :
  Spec.sentMessages (handleTransferError transferId error st).2 = [].
Proof.
  unfold handleTransferError.
  destruct (JSMap.get transferId (activeTransfers st)) as [r|]; [|reflexivity].
  cbn [snd]. apply sentMessages_callback_error.
Qed.

Lemma handleTransferError_registered transferId error st r h transfer :
  JSMap.get transferId (activeTransfers st) = Some r ->
  JSMap.get transferId (transferCallbacks st) = Some h ->
  heap st !! r = Some transfer ->
  handleTransferError transferId error st
  = (update r (FileTransfer.set_status failed) st,
     [OnError h (FileTransfer.set_status failed transfer) error]).
Proof.
  intros Hr Hh Ht. unfold handleTransferError, callback. rewrite Hr.
  rewrite lookup_update_eq, Ht. cbn [update set_heap transferCallbacks].
  now rewrite Hh.
Qed.

Section Loop.
Variable sendDataFunction : Message -> bool.
Variable amb : Ambient.
Variable transferId : string.
Variable r : ref.
Variable file : File.t.
Variable encryptionKey : CryptoKey.
Variable totalChunks : nat.

Let loop := sendLoop sendDataFunction amb transferId r file encryptionKey totalChunks.
Let message := chunkMessage amb transferId file encryptionKey totalChunks.

(** Whatever the channel and the other tasks do, the loop hands the chunks
    to the send function one index after the other. *)
Lemma sendLoop_messages remaining i sentChunks st :
  exists k, k <= remaining /\
    Spec.sentMessages (loop remaining i sentChunks st).1.2 = map message (seq i k).
Proof.
  revert i sentChunks st.
  induction remaining as [|remaining IH]; intros i sentChunks st.
  - exists 0. split; [lia|reflexivity].
  - subst loop. cbn [sendLoop].
    destruct (status_is paused r st).
    { exists 0. split; [lia|reflexivity]. }
    fold message.
    destruct (sendDataFunction (message i)); cbn [negb].
    + match goal with
      | |- context [sendLoop _ _ _ _ _ _ _ remaining (S i) ?s ?st'] =>
          destruct (IH (S i) s st') as (k & Hk & Hm);
          destruct (sendLoop sendDataFunction amb transferId r file encryptionKey
                      totalChunks remaining (S i) s st') as [[st2 evs2] fin] eqn:E
      end.
      exists (S k). split; [lia|].
      cbn [fst snd]. cbn [fst snd] in Hm.
      rewrite sentMessages_send, sentMessages_app,
        sentMessages_callback_progress, Hm.
      reflexivity.
    + match goal with
      | |- context [handleTransferError ?a ?b ?c] =>
          pose proof (sentMessages_handleTransferError a b c) as He;
          destruct (handleTransferError a b c) as [st1 evs1]
      end.
      exists 1. split; [lia|]. cbn [fst snd] in *.
      now rewrite sentMessages_send, He.
Qed.

Lemma progressSnapshot_overwrite (t0 : FileTransfer.t) p s i :
  Spec.progressSnapshot amb totalChunks
    (FileTransfer.set_speed s (FileTransfer.set_progress p t0)) i
  = Spec.progressSnapshot amb totalChunks t0 i.
Proof. reflexivity. Qed.

Lemma progressSnapshot_shape (t0 : FileTransfer.t) i :
  exists p s,
    Spec.progressSnapshot amb totalChunks t0 i
    = FileTransfer.set_speed s (FileTransfer.set_progress p t0).
Proof. eexists _, _. reflexivity. Qed.

(** With every message accepted and the transfer left alone by the other
    tasks, the loop sends every chunk and reports progress after each. *)
Lemma sendLoop_undisturbed h (t0 : FileTransfer.t) remaining :
  Spec.undisturbed transferId r (interleaved amb) ->
  (forall m, sendDataFunction m = true) ->
  FileTransfer.status t0 = transferring ->
  forall i st p s,
    heap st !! r = Some (FileTransfer.set_speed s (FileTransfer.set_progress p t0)) ->
    JSMap.get transferId (transferCallbacks st) = Some h ->
    exists st',
      loop remaining i i st
      = (st',
         flat_map (fun j => [Send (message j) true;
                             OnProgress h (Spec.progressSnapshot amb totalChunks t0 j)])
                  (seq i remaining),
         true)
      /\ JSMap.get transferId (transferCallbacks st') = Some h
      /\ exists p' s',
           heap st' !! r
           = Some (FileTransfer.set_speed s' (FileTransfer.set_progress p' t0))
           /\ (0 < remaining ->
               FileTransfer.set_speed s' (FileTransfer.set_progress p' t0)
               = Spec.progressSnapshot amb totalChunks t0 (i + remaining - 1)).
Proof.
  intros Hquiet Haccept Hstatus.
  induction remaining as [|remaining IH]; intros i st p s Hheap Hcb.
  - exists st. repeat split; [assumption|]. exists p, s. split; [assumption|lia].
  - unfold loop in *. cbn [sendLoop].
    assert (Hnp : status_is paused r st = false).
    { unfold status_is. rewrite Hheap. cbn. now rewrite Hstatus. }
    rewrite Hnp. fold message. rewrite Haccept. cbn [negb].
    destruct (Hquiet (S i) st) as (Hh1 & _ & Hc1).
    set (st1 := interleaved amb (S i) st) in *.
    set (st2 := update r _ (update r _ st1)).
    assert (Hheap2 : heap st2 !! r
                     = Some (Spec.progressSnapshot amb totalChunks t0 i)).
    { subst st2. rewrite !lookup_update_eq, Hh1, Hheap. reflexivity. }
    assert (Hcb2 : JSMap.get transferId (transferCallbacks st2) = Some h).
    { subst st2. cbn [update set_heap transferCallbacks]. now rewrite Hc1. }
    destruct (progressSnapshot_shape t0 i) as (p1 & s1 & Hshape).
    rewrite Hshape in Hheap2.
    destruct (IH (S i) st2 p1 s1 Hheap2 Hcb2) as (st' & Hrun & Hcb' & p' & s' & Hheap' & Hlast).
    rewrite Hrun.
    exists st'. split; [|split; [assumption|]].
    + f_equal. f_equal. cbn [seq flat_map app]. f_equal.
      unfold callback. rewrite Hcb2, Hheap2, <- Hshape. reflexivity.
    + exists p', s'. split; [assumption|]. intros _.
      destruct remaining as [|remaining'].
      * cbn [sendLoop] in Hrun.
        assert (st' = st2) as -> by congruence.
        replace (i + 1 - 1) with i by lia. rewrite Hshape. congruence.
      * rewrite Hlast by lia. f_equal. lia.
Qed.

End Loop.

Lemma slice_window (file : File.t) lo hi :
  lo <= hi -> hi <= length (File.content file) ->
  Spec.isWindow file lo hi (File.slice file lo hi).
Proof.
  intros Hlo Hhi. unfold Spec.isWindow, File.slice. split.
  - rewrite length_take, length_drop. lia.
  - intros j Hj. rewrite lookup_take_lt by lia. apply lookup_drop.
Qed.

(** Chunk [i] carries the bytes from [i * CHUNK_SIZE] up to the end of the
    file or of the chunk, whichever comes first, and is flagged as the
    last one exactly at index [totalChunks - 1]. *)
Lemma chunkMessage_window (amb : Ambient) transferId (file : File.t) key i :
  File.size file = length (File.content file) ->
  i < Math_ceil_div (File.size file) CHUNK_SIZE ->
  exists chunkData,
    Spec.isWindow file (i * CHUNK_SIZE)
                  (Nat.min (File.size file) ((i + 1) * CHUNK_SIZE)) chunkData
    /\ chunkMessage amb transferId file key
         (Math_ceil_div (File.size file) CHUNK_SIZE) i
       = file_chunk
           {| FileChunk.transferId := transferId;
              FileChunk.chunkIndex := Z.of_nat i;
              FileChunk.encryptedData :=
                Base64.btoa (encrypt (getRandomValues amb i) chunkData key).1;
              FileChunk.iv :=
                Base64.btoa (encrypt (getRandomValues amb i) chunkData key).2;
              FileChunk.checksum := generateChecksum chunkData;
              FileChunk.isLastChunk :=
                bool_decide (i = Math_ceil_div (File.size file) CHUNK_SIZE - 1) |}.
Proof.
  intros Hsize Hi.
  pose proof CHUNK_SIZE_pos as Hpos.
  destruct (Math_ceil_div_spec (File.size file) CHUNK_SIZE Hpos) as [Hup Hleast].
  assert (Hlo : i * CHUNK_SIZE < File.size file).
  { destruct (Nat.le_gt_cases (File.size file) (i * CHUNK_SIZE)) as [Hle|]; [|assumption].
    specialize (Hleast i Hle). lia. }
  exists (File.slice file (i * CHUNK_SIZE)
            (Nat.min (File.size file) ((i + 1) * CHUNK_SIZE))).
  split.
  - apply slice_window; lia.
  - unfold chunkMessage, readFileChunk, encrypt. cbn [fst snd].
    replace (Nat.min (i * CHUNK_SIZE + CHUNK_SIZE) (File.size file))
      with (Nat.min (File.size file) ((i + 1) * CHUNK_SIZE)) by lia.
    do 2 f_equal.
    destruct (Nat.eqb_spec i (Math_ceil_div (File.size file) CHUNK_SIZE - 1));
      [now rewrite bool_decide_eq_true_2 | now rewrite bool_decide_eq_false_2].
Qed.

(** One 'transfer-start', then chunks [0], [1], ... in this order. *)
Lemma sendFileChunks_messages transferId sendDataFunction (amb : Ambient) st r
    (transfer : FileTransfer.t) :
  JSMap.get transferId (activeTransfers st) = Some r ->
  heap st !! r = Some transfer ->
  extractable (FileTransfer.encryptionKey transfer) = true ->
  let file := FileTransfer.file transfer in
  let totalChunks := Math_ceil_div (File.size file) CHUNK_SIZE in
  exists m k,
    k <= totalChunks
    /\ Spec.sentMessages (sendFileChunks transferId sendDataFunction amb st).1.2
       = transfer_start m
           :: map (chunkMessage amb transferId file
                     (FileTransfer.encryptionKey transfer) totalChunks) (seq 0 k)
    /\ TransferStart.transferId m = transferId
    /\ TransferStart.fileName m = File.name file
    /\ TransferStart.fileSize m = File.size file
    /\ TransferStart.totalChunks m = totalChunks.
Proof.
  intros Hr Ht Hex file totalChunks.
  unfold sendFileChunks. rewrite Hr, Ht. unfold exportKey. rewrite Hex.
  fold file. fold totalChunks.
  match goal with
  | |- context [sendDataFunction (transfer_start ?m)] => set (meta := m)
  end.
  exists meta.
  destruct (sendDataFunction (transfer_start meta)); cbn [negb].
  - match goal with
    | |- context [sendLoop ?f ?a ?t ?r0 ?fl ?k ?T ?n ?i ?s ?st0] =>
        destruct (sendLoop_messages f a t r0 fl k T n i s st0) as (k' & Hk & Hm);
        destruct (sendLoop f a t r0 fl k T n i s st0) as [[st2 evs2] fin]
    end.
    exists k'. cbn [fst snd] in Hm. split; [assumption|]. split; [|now subst meta].
    destruct (fin && status_is transferring r st2); cbn [fst snd];
      rewrite sentMessages_send; [rewrite sentMessages_app, sentMessages_callback_complete, app_nil_r|];
      now rewrite Hm.
  - match goal with
    | |- context [handleTransferError ?a ?b ?c] =>
        pose proof (sentMessages_handleTransferError a b c) as He;
        destruct (handleTransferError a b c) as [st1 evs1]
    end.
    exists 0. cbn [fst snd] in *. split; [lia|]. split; [|now subst meta].
    now rewrite sentMessages_send, He.
Qed.

(** With every message accepted and the transfer left alone, the run is:
    the metadata, every chunk followed by its progress report, and the
    completion report of a 'completed' transfer. *)
Lemma sendFileChunks_completes transferId sendDataFunction (amb : Ambient) st r h
    (transfer : FileTransfer.t) :
  JSMap.get transferId (activeTransfers st) = Some r ->
  heap st !! r = Some transfer ->
  extractable (FileTransfer.encryptionKey transfer) = true ->
  JSMap.get transferId (transferCallbacks st) = Some h ->
  Spec.undisturbed transferId r (interleaved amb) ->
  (forall m, sendDataFunction m = true) ->
  let file := FileTransfer.file transfer in
  let totalChunks := Math_ceil_div (File.size file) CHUNK_SIZE in
  let started := FileTransfer.set_status transferring transfer in
  exists st',
    sendFileChunks transferId sendDataFunction amb st
    = (st',
       Send (Spec.metadata transferId transfer) true
         :: flat_map
              (fun i =>
                 [Send (chunkMessage amb transferId file
                          (FileTransfer.encryptionKey transfer) totalChunks i) true;
                  OnProgress h (Spec.progressSnapshot amb totalChunks started i)])
              (seq 0 totalChunks)
         ++ [OnComplete h
               (FileTransfer.set_status completed
                  (Spec.lastSnapshot amb totalChunks started))],
       Ok tt)
    /\ Spec.statusOf r st' = Some completed.
Proof.
  intros Hr Ht Hex Hcb Hquiet Haccept file totalChunks started.
  unfold sendFileChunks. rewrite Hr, Ht. unfold exportKey. rewrite Hex.
  fold file. fold totalChunks.
  destruct (Hquiet 0 (update r (FileTransfer.set_status transferring) st))
    as (Hh0 & _ & Hc0).
  set (st0 := interleaved amb 0 _) in *.
  assert (Hheap0 : heap st0 !! r = Some started).
  { rewrite Hh0, lookup_update_eq, Ht. reflexivity. }
  assert (Hcb0 : JSMap.get transferId (transferCallbacks st0) = Some h).
  { now rewrite Hc0. }
  rewrite Hheap0. rewrite Haccept. cbn [negb].
  assert (Hshape : started
                   = FileTransfer.set_speed (FileTransfer.speed started)
                       (FileTransfer.set_progress (FileTransfer.progress started) started)).
  { now destruct transfer. }
  rewrite Hshape in Hheap0.
  destruct (sendLoop_undisturbed sendDataFunction amb transferId r file
              (FileTransfer.encryptionKey transfer) totalChunks h started totalChunks
              Hquiet Haccept eq_refl 0 st0 _ _ Hheap0 Hcb0)
    as (st1 & Hrun & Hcb1 & p' & s' & Hheap1 & Hlast).
  rewrite Hrun.
  assert (Hst : status_is transferring r st1 = true).
  { unfold status_is. now rewrite Hheap1. }
  rewrite Hst. cbn [andb].
  eexists. split.
  - f_equal. f_equal. f_equal. f_equal.
    unfold callback. cbn [update set_heap transferCallbacks]. rewrite Hcb1.
    rewrite lookup_update_eq, Hheap1. cbn [fmap option_fmap option_map].
    do 3 f_equal. unfold Spec.lastSnapshot.
    destruct totalChunks as [|n] eqn:HT.
    + cbn [sendLoop] in Hrun. assert (st1 = st0) as -> by congruence.
      pose proof (eq_trans (eq_sym Hheap1) Hheap0) as E.
      apply (inj Some) in E. now rewrite E, <- Hshape.
    + rewrite Hlast by lia. f_equal. lia.
  - apply statusOf_set_status. rewrite Hheap1. eauto.
Qed.

End SenderFacts.

Section Pausing.
Import EncryptionService FileTransferService.
Context `{WebCrypto}.
Variable sendDataFunction : Message -> bool.
Variable amb : Ambient.
Variable transferId : string.
Variable r : ref.
Variable file : File.t.
Variable encryptionKey : CryptoKey.
Variable totalChunks : nat.

Let loop := sendLoop sendDataFunction amb transferId r file encryptionKey totalChunks.
Let message := chunkMessage amb transferId file encryptionKey totalChunks.

Lemma completions_app tr1 tr2 :
  Spec.completions (tr1 ++ tr2) = Spec.completions tr1 ++ Spec.completions tr2.
Proof. apply omap_app. Qed.

Lemma completions_callback_progress st :
  Spec.completions (callback OnProgress transferId r st) = [].
Proof.
  unfold callback.
  now destruct (JSMap.get transferId (transferCallbacks st)), (heap st !! r).
Qed.

Lemma completions_handleTransferError error st :
  Spec.completions (handleTransferError transferId error st).2 = [].
Proof.
  unfold handleTransferError.
  destruct (JSMap.get transferId (activeTransfers st)) as [r'|]; [|reflexivity].
  cbn [snd]. unfold callback.
  match goal with
  | |- context [JSMap.get ?a ?b] => destruct (JSMap.get a b); [|reflexivity]
  end.
  match goal with
  | |- context [heap ?a !! ?b] => now destruct (heap a !! b)
  end.
Qed.

(** The loop itself never reports completion. *)
Lemma sendLoop_no_completion remaining i sentChunks st :
  Spec.completions (loop remaining i sentChunks st).1.2 = [].
Proof.
  revert i sentChunks st.
  induction remaining as [|remaining IH]; intros i sentChunks st; [reflexivity|].
  unfold loop in *. cbn [sendLoop].
  destruct (status_is paused r st); [reflexivity|].
  destruct (sendDataFunction _); cbn [negb].
  - match goal with
    | |- context [sendLoop _ _ _ _ _ _ _ remaining (S i) ?s ?st'] =>
        pose proof (IH (S i) s st') as Hc;
        destruct (sendLoop sendDataFunction amb transferId r file encryptionKey
                    totalChunks remaining (S i) s st') as [[st2 evs2] fin]
    end.
    cbn [fst snd] in *. change (Spec.completions (?a :: ?l)) with (Spec.completions l).
    now rewrite completions_app, completions_callback_progress, Hc.
  - match goal with
    | |- context [handleTransferError ?a ?b ?c] =>
        pose proof (completions_handleTransferError b c) as He;
        destruct (handleTransferError a b c) as [st1 evs1]
    end.
    cbn [fst snd] in *. exact He.
Qed.

Lemma sendLoop_when_paused remaining i sentChunks st :
  status_is paused r st = true ->
  loop remaining i sentChunks st = (st, [], true).
Proof.
  intros Hp. unfold loop. destruct remaining; cbn [sendLoop]; [reflexivity|].
  now rewrite Hp.
Qed.

(** A [pauseTransfer] that runs while chunk [j] is read and encrypted lets
    chunk [j] go out and stops the loop before chunk [j + 1]. *)
Lemma sendLoop_pause_in_flight j remaining :
  (forall m, sendDataFunction m = true) ->
  interleaved amb = Spec.pauseAt transferId (S j) ->
  forall i st (transfer : FileTransfer.t),
    i <= j -> j < i + remaining ->
    JSMap.get transferId (activeTransfers st) = Some r ->
    heap st !! r = Some transfer ->
    FileTransfer.status transfer = transferring ->
    exists st' evs,
      loop remaining i i st = (st', evs, true)
      /\ Spec.sentMessages evs = map message (seq i (S j - i))
      /\ Spec.statusOf r st' = Some paused.
Proof.
  intros Haccept Hamb.
  induction remaining as [|remaining IH]; intros i st transfer Hij Hjr Hr Ht Hs; [lia|].
  unfold loop in *. cbn [sendLoop].
  assert (Hnp : status_is paused r st = false).
  { unfold status_is. rewrite Ht, Hs. reflexivity. }
  rewrite Hnp. fold message. rewrite Haccept. cbn [negb].
  assert (Henv : interleaved amb (S i) st
                 = if S i =? S j then pauseTransfer transferId st else st).
  { now rewrite Hamb. }
  rewrite Henv. clear Henv.
  destruct (Nat.eqb_spec (S i) (S j)) as [E|E].
  - assert (i = j) as -> by lia.
    assert (Hpause : pauseTransfer transferId st
                     = update r (FileTransfer.set_status paused) st).
    { apply pauseTransfer_spec; [assumption|].
      unfold Spec.statusOf. rewrite Ht. cbn. now rewrite Hs. }
    rewrite Hpause.
    match goal with
    | |- context [sendLoop _ _ _ _ _ _ _ remaining (S j) (S j) ?st2] =>
        assert (Hp2 : status_is paused r st2 = true)
    end.
    { unfold status_is. rewrite !lookup_update_eq, Ht. reflexivity. }
    pose proof (sendLoop_when_paused remaining (S j) (S j) _ Hp2) as Hrun.
    unfold loop in Hrun. rewrite Hrun.
    eexists _, _. split; [reflexivity|]. split.
    + rewrite sentMessages_send, sentMessages_app, sentMessages_callback_progress.
      replace (S j - j) with 1 by lia. reflexivity.
    + apply status_is_true. exact Hp2.
  - match goal with
    | |- context [sendLoop _ _ _ _ _ _ _ remaining (S i) (S i) ?st2] =>
        destruct (IH (S i) st2
                    (FileTransfer.set_speed
                       (calculateTransferSpeed (Date_now amb i)
                          (FileTransfer.set_progress
                             (times (quotient (S i) totalChunks) 100) transfer)
                          (Z.of_nat (S i * CHUNK_SIZE)))
                       (FileTransfer.set_progress
                          (times (quotient (S i) totalChunks) 100) transfer)))
          as (st' & evs & Hrun & Hm & Hst)
    end; try lia; try assumption.
    { rewrite !lookup_update_eq, Ht. reflexivity. }
    rewrite Hrun.
    eexists _, _. split; [reflexivity|]. split; [|exact Hst].
    rewrite sentMessages_send, sentMessages_app, sentMessages_callback_progress, Hm.
    replace (S j - i) with (S (S j - S i)) by lia. reflexivity.
Qed.

(** Whatever the channel answers, no chunk beyond the one in flight is
    handed to it after the pause. *)
Lemma sendLoop_pause_bound j remaining :
  interleaved amb = Spec.pauseAt transferId (S j) ->
  forall i sentChunks st (transfer : FileTransfer.t),
    i <= j ->
    JSMap.get transferId (activeTransfers st) = Some r ->
    heap st !! r = Some transfer ->
    FileTransfer.status transfer = transferring ->
    exists k,
      k <= S j - i
      /\ Spec.sentMessages (loop remaining i sentChunks st).1.2 = map message (seq i k).
Proof.
  intros Hamb.
  induction remaining as [|remaining IH]; intros i sentChunks st transfer Hij Hr Ht Hs.
  { exists 0. split; [lia|reflexivity]. }
  unfold loop in *. cbn [sendLoop].
  assert (Hnp : status_is paused r st = false).
  { unfold status_is. rewrite Ht, Hs. reflexivity. }
  rewrite Hnp. fold message.
  assert (Henv : interleaved amb (S i) st
                 = if S i =? S j then pauseTransfer transferId st else st).
  { now rewrite Hamb. }
  rewrite Henv. clear Henv.
  destruct (sendDataFunction (message i)); cbn [negb].
  - destruct (Nat.eqb_spec (S i) (S j)) as [E|E].
    + assert (i = j) as -> by lia.
      assert (Hpause : pauseTransfer transferId st
                       = update r (FileTransfer.set_status paused) st).
      { apply pauseTransfer_spec; [assumption|].
        unfold Spec.statusOf. rewrite Ht. cbn. now rewrite Hs. }
      rewrite Hpause.
      match goal with
      | |- context [sendLoop _ _ _ _ _ _ _ remaining (S j) ?s ?st2] =>
          assert (Hp2 : status_is paused r st2 = true);
            [unfold status_is; rewrite !lookup_update_eq, Ht; reflexivity|];
          pose proof (sendLoop_when_paused remaining (S j) s st2 Hp2) as Hrun
      end.
      unfold loop in Hrun. rewrite Hrun. exists 1. split; [lia|].
      cbn [fst snd].
      now rewrite sentMessages_send, sentMessages_app, sentMessages_callback_progress.
    + match goal with
      | |- context [sendLoop _ _ _ _ _ _ _ remaining (S i) ?s ?st2] =>
          destruct (IH (S i) s st2
                      (FileTransfer.set_speed
                         (calculateTransferSpeed (Date_now amb i)
                            (FileTransfer.set_progress
                               (times (quotient s totalChunks) 100) transfer)
                            (Z.of_nat (s * CHUNK_SIZE)))
                         (FileTransfer.set_progress
                            (times (quotient s totalChunks) 100) transfer)))
            as (k & Hk & Hm);
          [lia|assumption|rewrite !lookup_update_eq, Ht; reflexivity|assumption|];
          destruct (sendLoop sendDataFunction amb transferId r file encryptionKey
                      totalChunks remaining (S i) s st2) as [[st' evs'] fin]
      end.
      exists (S k). split; [lia|]. cbn [fst snd] in *.
      now rewrite sentMessages_send, sentMessages_app,
        sentMessages_callback_progress, Hm.
  - match goal with
    | |- context [handleTransferError ?a ?b ?c] =>
        pose proof (sentMessages_handleTransferError a b c) as He;
        destruct (handleTransferError a b c) as [st1 evs1]
    end.
    exists 1. split; [lia|]. cbn [fst snd] in *.
    now rewrite sentMessages_send, He.
Qed.

End Pausing.

Section Refusal.
Import EncryptionService FileTransferService.
Context `{WebCrypto}.
Variable sendDataFunction : Message -> bool.
Variable amb : Ambient.
Variable transferId : string.
Variable r : ref.
Variable h : handle.
Variable file : File.t.
Variable encryptionKey : CryptoKey.
Variable totalChunks : nat.
Hypothesis Hkeeps : Spec.keepsRegistered transferId r (interleaved amb).

Let loop := sendLoop sendDataFunction amb transferId r file encryptionKey totalChunks.

(** What the loop relies on: the transfer and its callbacks are registered
    under the id the function was called with. *)
Let registered (st : FileTransferService.t) : Prop :=
  JSMap.get transferId (activeTransfers st) = Some r
  /\ JSMap.get transferId (transferCallbacks st) = Some h
  /\ is_Some (heap st !! r).

Lemma registered_interleaved w st : registered st -> registered (interleaved amb w st).
Proof.
  intros (Hr & Hc & Ht). destruct (Hkeeps w st) as (Ht' & Hr' & Hc').
  repeat split; [now rewrite Hr'|now rewrite Hc'|now apply Ht'].
Qed.

Lemma registered_update f st : registered st -> registered (update r f st).
Proof.
  intros (Hr & Hc & [transfer Ht]). repeat split; try assumption.
  rewrite lookup_update_eq, Ht. eauto.
Qed.

Lemma afterRefusal_callback cb st tr :
  (forall h' t', match cb h' t' with Send _ _ => False | _ => True end) ->
  Spec.afterRefusal (callback cb transferId r st ++ tr) = Spec.afterRefusal tr.
Proof.
  intros Hcb. unfold callback.
  destruct (JSMap.get transferId (transferCallbacks st)) as [h'|]; [|reflexivity].
  destruct (heap st !! r) as [t'|]; [|reflexivity].
  cbn [app Spec.afterRefusal]. specialize (Hcb h' t').
  now destruct (cb h' t').
Qed.

Lemma afterRefusal_none_app tr1 tr2 :
  Spec.afterRefusal tr1 = None ->
  Spec.afterRefusal (tr1 ++ tr2) = Spec.afterRefusal tr2.
Proof.
  induction tr1 as [|e tr1 IH]; [reflexivity|]. cbn [app Spec.afterRefusal].
  destruct e as [m [|]| | | |]; try exact IH. discriminate.
Qed.

(** A refused chunk ends the loop at once: the transfer is 'failed' and
    the error callback is the only thing that runs afterwards. *)
Lemma sendLoop_refusal remaining :
  forall i sentChunks st,
    registered st ->
    match loop remaining i sentChunks st with
    | (st', evs, finished) =>
        match Spec.afterRefusal evs with
        | None => finished = true
        | Some post =>
            finished = false
            /\ Spec.statusOf r st' = Some failed
            /\ exists j transfer',
                 post = [OnError h transfer'
                           ("Failed to send chunk " ++ number_to_string j)%string]
                 /\ FileTransfer.status transfer' = failed
        end
    end.
Proof.
  induction remaining as [|remaining IH]; intros i sentChunks st Hreg; [reflexivity|].
  unfold loop in *. cbn [sendLoop].
  destruct (status_is paused r st); [reflexivity|].
  pose proof (registered_interleaved (S i) st Hreg) as Hreg1.
  set (st1 := interleaved amb (S i) st) in *.
  destruct (sendDataFunction _); cbn [negb].
  - match goal with
    | |- context [sendLoop _ _ _ _ _ _ _ remaining (S i) ?s ?st2] =>
        assert (Hreg2 : registered st2) by (do 2 apply registered_update; exact Hreg1);
        pose proof (IH (S i) s st2 Hreg2) as Hrec;
        destruct (sendLoop sendDataFunction amb transferId r file encryptionKey
                    totalChunks remaining (S i) s st2) as [[st' evs'] fin]
    end.
    cbn [Spec.afterRefusal].
    rewrite afterRefusal_callback by (intros; exact I). exact Hrec.
  - destruct Hreg1 as (Hr & Hc & [transfer Ht]).
    rewrite (handleTransferError_registered _ _ _ _ _ _ Hr Hc Ht).
    cbn [Spec.afterRefusal]. split; [reflexivity|]. split.
    + apply statusOf_set_status. eauto.
    + eexists _, _. split; reflexivity.
Qed.

End Refusal.

Section Reporting.
Import EncryptionService FileTransferService.
Context `{WebCrypto}.
Variable sendDataFunction : Message -> bool.
Variable amb : Ambient.
Variable transferId : string.
Variable r : ref.
Variable file : File.t.
Variable encryptionKey : CryptoKey.
Variable totalChunks : nat.

Let loop := sendLoop sendDataFunction amb transferId r file encryptionKey totalChunks.

Lemma reportedProgress_app tr1 tr2 :
  Spec.reportedProgress (tr1 ++ tr2)
  = Spec.reportedProgress tr1 ++ Spec.reportedProgress tr2.
Proof. apply omap_app. Qed.






End Reporting.

Section SenderReports.
Import EncryptionService FileTransferService.
Context `{WebCrypto}.


End SenderReports.

Section NoRetry.
Import EncryptionService FileTransferService.
Context `{WebCrypto}.

Lemma afterRefusal_silent_app tr1 tr2 :
  Forall (fun e => match e with Send _ _ => False | _ => True end) tr1 ->
  Spec.afterRefusal (tr1 ++ tr2) = Spec.afterRefusal tr2.
Proof.
  induction 1 as [|e tr1 He _ IH]; [reflexivity|].
  cbn [app Spec.afterRefusal]. now destruct e.
Qed.

Lemma callback_silent cb transferId r (st : FileTransferService.t) :
  (forall h' t', match cb h' t' with Send _ _ => False | _ => True end) ->
  Forall (fun e => match e with Send _ _ => False | _ => True end)
         (callback cb transferId r st).
Proof.
  intros Hcb. unfold callback.
  destruct (JSMap.get transferId (transferCallbacks st)) as [h'|]; [|constructor].
  destruct (heap st !! r) as [t'|]; constructor; [apply Hcb|constructor].
Qed.

(** Whatever the other tasks do, a refused chunk ends the loop and no
    message follows it. *)
Lemma sendLoop_no_retry sendDataFunction (amb : Ambient) transferId r file key
    totalChunks remaining :
  forall i sentChunks st,
    match sendLoop sendDataFunction amb transferId r file key totalChunks
            remaining i sentChunks st with
    | (st', evs, finished) =>
        match Spec.afterRefusal evs with
        | None => finished = true
        | Some post => finished = false /\ Spec.sentMessages post = []
        end
    end.
Proof.
  induction remaining as [|remaining IH]; intros i sentChunks st; [reflexivity|].
  cbn [sendLoop].
  destruct (status_is paused r st); [reflexivity|].
  destruct (sendDataFunction _); cbn [negb].
  - match goal with
    | |- context [sendLoop _ _ _ _ _ _ _ remaining (S i) ?s ?st2] =>
        pose proof (IH (S i) s st2) as Hrec;
        destruct (sendLoop sendDataFunction amb transferId r file key
                    totalChunks remaining (S i) s st2) as [[st' evs'] fin]
    end.
    cbn [Spec.afterRefusal].
    rewrite afterRefusal_silent_app by (apply callback_silent; intros; exact I).
    exact Hrec.
  - match goal with
    | |- context [handleTransferError ?a ?b ?c] =>
        pose proof (sentMessages_handleTransferError a b c) as He;
        destruct (handleTransferError a b c) as [st1 evs1]
    end.
    cbn [Spec.afterRefusal]. now split.
Qed.

Lemma sendFileChunks_no_retry transferId sendDataFunction (amb : Ambient)
    (st : FileTransferService.t) post :
  Spec.afterRefusal (sendFileChunks transferId sendDataFunction amb st).1.2 = Some post ->
  Spec.sentMessages post = [].
Proof.
  unfold sendFileChunks.
  destruct (JSMap.get transferId (activeTransfers st)) as [r|]; [|discriminate].
  destruct (heap st !! r) as [transfer|]; [|discriminate].
  destruct (exportKey _) as [keyData|e]; [|discriminate].
  destruct (sendDataFunction (transfer_start _)); cbn [negb].
  - match goal with
    | |- context [sendLoop ?f ?a ?t ?r0 ?fl ?k ?T ?n ?i ?s ?st0] =>
        pose proof (sendLoop_no_retry f a t r0 fl k T n i s st0) as Hloop;
        destruct (sendLoop f a t r0 fl k T n i s st0) as [[st2 evs2] fin]
    end.
    destruct (Spec.afterRefusal evs2) as [post'|] eqn:Href.
    + destruct Hloop as [-> Hnone]. cbn [andb fst snd Spec.afterRefusal].
      rewrite Href. now intros [= <-].
    + subst fin. cbn [andb].
      destruct (status_is transferring r st2); cbn [fst snd Spec.afterRefusal].
      * rewrite afterRefusal_none_app by exact Href.
        rewrite <- (app_nil_r (callback _ _ _ _)).
        rewrite afterRefusal_silent_app by (apply callback_silent; intros; exact I).
        discriminate.
      * rewrite Href. discriminate.
  - match goal with
    | |- context [handleTransferError ?a ?b ?c] =>
        pose proof (sentMessages_handleTransferError a b c) as He;
        destruct (handleTransferError a b c) as [st1 evs1]
    end.
    cbn [fst snd Spec.afterRefusal] in *. now intros [= <-].
Qed.

End NoRetry.

Section SenderClaims.
Import EncryptionService FileTransferService.

(** C1, as the code has it.  For a registered transfer, [sendFileChunks]
    hands to the send function one 'transfer-start' and then the chunks
    [0], [1], ... in ascending order; chunk [i] carries the bytes from
    [i * CHUNK_SIZE] up to [min fileSize ((i + 1) * CHUNK_SIZE)] and is
    flagged as last exactly when [i = totalChunks - 1].  When every message
    is accepted and no other task touches the transfer meanwhile (no pause
    and no cancellation), every progress report shows it 'transferring',
    it ends 'completed' and the completion callback is the last thing
    called. *)
Theorem sendFileChunks_protocol `{WebCrypto} transferId sendDataFunction
    (amb : Ambient) (st : FileTransferService.t) r (transfer : FileTransfer.t) :
  JSMap.get transferId (activeTransfers st) = Some r ->
  heap st !! r = Some transfer ->
  extractable (FileTransfer.encryptionKey transfer) = true ->
  File.size (FileTransfer.file transfer)
  = length (File.content (FileTransfer.file transfer)) ->
  let file := FileTransfer.file transfer in
  let key := FileTransfer.encryptionKey transfer in
  let totalChunks := Math_ceil_div (File.size file) CHUNK_SIZE in
  let message := chunkMessage amb transferId file key totalChunks in
  let started := FileTransfer.set_status transferring transfer in
  (exists m k,
      k <= totalChunks
      /\ Spec.sentMessages (sendFileChunks transferId sendDataFunction amb st).1.2
         = transfer_start m :: map message (seq 0 k)
      /\ TransferStart.transferId m = transferId
      /\ TransferStart.fileName m = File.name file
      /\ TransferStart.fileSize m = File.size file
      /\ TransferStart.totalChunks m = totalChunks)
  /\ (forall i, i < totalChunks ->
        exists chunkData,
          Spec.isWindow file (i * CHUNK_SIZE)
                        (Nat.min (File.size file) ((i + 1) * CHUNK_SIZE)) chunkData
          /\ message i
             = file_chunk
                 {| FileChunk.transferId := transferId;
                    FileChunk.chunkIndex := Z.of_nat i;
                    FileChunk.encryptedData :=
                      Base64.btoa (encrypt (getRandomValues amb i) chunkData key).1;
                    FileChunk.iv :=
                      Base64.btoa (encrypt (getRandomValues amb i) chunkData key).2;
                    FileChunk.checksum := generateChecksum chunkData;
                    FileChunk.isLastChunk := bool_decide (i = totalChunks - 1) |})
  /\ (forall h,
        JSMap.get transferId (transferCallbacks st) = Some h ->
        Spec.undisturbed transferId r (interleaved amb) ->
        (forall m, sendDataFunction m = true) ->
        exists st',
          sendFileChunks transferId sendDataFunction amb st
          = (st',
             Send (Spec.metadata transferId transfer) true
               :: flat_map
                    (fun i =>
                       [Send (message i) true;
                        OnProgress h (Spec.progressSnapshot amb totalChunks started i)])
                    (seq 0 totalChunks)
               ++ [OnComplete h
                     (FileTransfer.set_status completed
                        (Spec.lastSnapshot amb totalChunks started))],
             Ok tt)
          /\ Spec.statusOf r st' = Some completed).
Proof.
  intros Hr Ht Hex Hsize file key totalChunks message started.
  split; [|split].
  - now apply sendFileChunks_messages with (r := r).
  - intros i Hi. now apply chunkMessage_window.
  - intros h Hcb Hquiet Haccept. now apply sendFileChunks_completes.
Qed.

Lemma quiet_undisturbed transferId r : Spec.undisturbed transferId r Spec.quiet.
Proof. intros w st. now repeat split. Qed.

Lemma sendFileChunks_protocol_witness :
  exists st',
    (@sendFileChunks Demo.toyCrypto "t1" Demo.accept (Demo.ambient Spec.quiet)
       Demo.sender).1.1 = st'
    /\ Spec.statusOf 0 st' = Some completed.
Proof.
  destruct (@sendFileChunks_protocol Demo.toyCrypto "t1" Demo.accept
              (Demo.ambient Spec.quiet) Demo.sender 0 Demo.reportTransfer
              eq_refl eq_refl eq_refl eq_refl)
    as (_ & _ & Hrun).
  destruct (Hrun 7 eq_refl (quiet_undisturbed "t1" 0) (fun _ => eq_refl))
    as (st' & Heq & Hst).
  exists st'. split; [|exact Hst]. now rewrite Heq.
Defined.

(** The user cancels while chunk 0 is prepared.  Nothing pauses the loop
    and the channel accepts every message, so all three chunks go out; but
    the transfer is 'failed' at the end and no completion is reported. *)
Lemma sendFileChunks_protocol_counterexample :
  Spec.sentMessages Demo.cancelledRun.1.2
  = Spec.metadata "t1" Demo.reportTransfer
      :: map (@chunkMessage Demo.toyCrypto (Demo.ambient (Spec.cancelAt "t1" 1)) "t1"
                Demo.report (generateKey Demo.zeros) 3) (seq 0 3)
  /\ Spec.afterRefusal Demo.cancelledRun.1.2 = None
  /\ Spec.statusOf 0 Demo.cancelledRun.1.1 = Some failed
  /\ Spec.completions Demo.cancelledRun.1.2 = [].
Proof.
  split; [vm_compute; reflexivity|]. split; [vm_compute; reflexivity|].
  split; vm_compute; reflexivity.
Qed.

Lemma sendFileChunks_pause `{WebCrypto} transferId sendDataFunction
    (amb : Ambient) (st : FileTransferService.t) r (transfer : FileTransfer.t) w :
  JSMap.get transferId (activeTransfers st) = Some r ->
  heap st !! r = Some transfer ->
  extractable (FileTransfer.encryptionKey transfer) = true ->
  (forall m, sendDataFunction m = true) ->
  interleaved amb = Spec.pauseAt transferId w ->
  let file := FileTransfer.file transfer in
  let totalChunks := Math_ceil_div (File.size file) CHUNK_SIZE in
  w <= totalChunks ->
  exists st' tr,
    sendFileChunks transferId sendDataFunction amb st = (st', tr, Ok tt)
    /\ Spec.sentMessages tr
       = Spec.metadata transferId transfer
           :: map (chunkMessage amb transferId file
                     (FileTransfer.encryptionKey transfer) totalChunks) (seq 0 w)
    /\ Spec.statusOf r st' = Some paused
    /\ Spec.completions tr = [].
Proof.
  intros Hr Ht Hex Haccept Hamb file totalChunks Hw.
  unfold sendFileChunks. rewrite Hr, Ht. unfold exportKey. rewrite Hex.
  fold file. fold totalChunks.
  set (stT := update r (FileTransfer.set_status transferring) st).
  assert (HtT : heap stT !! r = Some (FileTransfer.set_status transferring transfer)).
  { subst stT. now rewrite lookup_update_eq, Ht. }
  assert (Henv : interleaved amb 0 stT
                 = if 0 =? w then pauseTransfer transferId stT else stT).
  { now rewrite Hamb. }
  rewrite Henv. clear Henv.
  destruct w as [|j]; cbn [Nat.eqb].
  - assert (Hpause : pauseTransfer transferId stT
                     = update r (FileTransfer.set_status paused) stT).
    { apply pauseTransfer_spec; [assumption|].
      unfold Spec.statusOf. now rewrite HtT. }
    rewrite Hpause.
    set (st0 := update r (FileTransfer.set_status paused) stT).
    assert (Ht0 : heap st0 !! r
                  = Some (FileTransfer.set_status paused
                            (FileTransfer.set_status transferring transfer))).
    { subst st0. now rewrite lookup_update_eq, HtT. }
    rewrite Ht0. rewrite Haccept. cbn [negb].
    assert (Hp : status_is paused r st0 = true).
    { unfold status_is. now rewrite Ht0. }
    rewrite (sendLoop_when_paused sendDataFunction amb transferId r file
               (FileTransfer.encryptionKey transfer) totalChunks totalChunks 0 0 st0 Hp).
    assert (Hnt : status_is transferring r st0 = false).
    { unfold status_is. now rewrite Ht0. }
    rewrite Hnt. cbn [andb].
    eexists _, _. split; [reflexivity|]. repeat split.
    apply status_is_true. exact Hp.
  - rewrite HtT. rewrite Haccept. cbn [negb].
    destruct (sendLoop_pause_in_flight sendDataFunction amb transferId r file
                (FileTransfer.encryptionKey transfer) totalChunks j totalChunks
                Haccept Hamb 0 stT _ ltac:(lia) ltac:(lia) Hr HtT eq_refl)
      as (st' & evs & Hrun & Hm & Hst).
    pose proof (sendLoop_no_completion sendDataFunction amb transferId r file
                  (FileTransfer.encryptionKey transfer) totalChunks totalChunks 0 0 stT)
      as Hnc.
    rewrite Hrun in Hnc |- *. cbn [fst snd] in Hnc.
    assert (Hnt : status_is transferring r st' = false).
    { apply status_is_false. rewrite Hst. discriminate. }
    rewrite Hnt. cbn [andb].
    eexists _, _. split; [reflexivity|]. repeat split.
    + rewrite sentMessages_send, Hm. replace (S j - 0) with (S j) by lia. reflexivity.
    + exact Hst.
    + exact Hnc.
Qed.

Lemma sendFileChunks_pause_bound `{WebCrypto} transferId sendDataFunction
    (amb : Ambient) (st : FileTransferService.t) r (transfer : FileTransfer.t) w :
  JSMap.get transferId (activeTransfers st) = Some r ->
  heap st !! r = Some transfer ->
  extractable (FileTransfer.encryptionKey transfer) = true ->
  interleaved amb = Spec.pauseAt transferId w ->
  let file := FileTransfer.file transfer in
  let totalChunks := Math_ceil_div (File.size file) CHUNK_SIZE in
  exists k,
    k <= w
    /\ Spec.sentMessages (sendFileChunks transferId sendDataFunction amb st).1.2
       = Spec.metadata transferId transfer
           :: map (chunkMessage amb transferId file
                     (FileTransfer.encryptionKey transfer) totalChunks) (seq 0 k).
Proof.
  intros Hr Ht Hex Hamb file totalChunks.
  unfold sendFileChunks. rewrite Hr, Ht. unfold exportKey. rewrite Hex.
  fold file. fold totalChunks.
  set (stT := update r (FileTransfer.set_status transferring) st).
  assert (HtT : heap stT !! r = Some (FileTransfer.set_status transferring transfer)).
  { subst stT. now rewrite lookup_update_eq, Ht. }
  assert (Henv : interleaved amb 0 stT
                 = if 0 =? w then pauseTransfer transferId stT else stT).
  { now rewrite Hamb. }
  rewrite Henv. clear Henv.
  destruct w as [|j]; cbn [Nat.eqb].
  - assert (Hpause : pauseTransfer transferId stT
                     = update r (FileTransfer.set_status paused) stT).
    { apply pauseTransfer_spec; [assumption|].
      unfold Spec.statusOf. now rewrite HtT. }
    rewrite Hpause.
    set (st0 := update r (FileTransfer.set_status paused) stT).
    assert (Ht0 : heap st0 !! r
                  = Some (FileTransfer.set_status paused
                            (FileTransfer.set_status transferring transfer))).
    { subst st0. now rewrite lookup_update_eq, HtT. }
    rewrite Ht0. exists 0. split; [lia|].
    destruct (sendDataFunction _); cbn [negb].
    + assert (Hp : status_is paused r st0 = true).
      { unfold status_is. now rewrite Ht0. }
      rewrite (sendLoop_when_paused sendDataFunction amb transferId r file
                 (FileTransfer.encryptionKey transfer) totalChunks totalChunks 0 0 st0 Hp).
      assert (Hnt : status_is transferring r st0 = false).
      { unfold status_is. now rewrite Ht0. }
      rewrite Hnt. reflexivity.
    + match goal with
      | |- context [handleTransferError ?a ?b ?c] =>
          pose proof (sentMessages_handleTransferError a b c) as He;
          destruct (handleTransferError a b c) as [st1 evs1]
      end.
      cbn [fst snd] in *. now rewrite sentMessages_send, He.
  - rewrite HtT.
    destruct (sendDataFunction _); cbn [negb].
    + destruct (sendLoop_pause_bound sendDataFunction amb transferId r file
                  (FileTransfer.encryptionKey transfer) totalChunks j totalChunks
                  Hamb 0 0 stT _ ltac:(lia) Hr HtT eq_refl) as (k & Hk & Hm).
      destruct (sendLoop _ _ _ _ _ _ _ _ _ _ stT) as [[st2 evs2] fin].
      cbn [fst snd] in Hm. exists k. split; [lia|].
      destruct (fin && status_is transferring r st2); cbn [fst snd];
        rewrite sentMessages_send;
        [rewrite sentMessages_app, sentMessages_callback_complete, app_nil_r|];
        now rewrite Hm.
    + match goal with
      | |- context [handleTransferError ?a ?b ?c] =>
          pose proof (sentMessages_handleTransferError a b c) as He;
          destruct (handleTransferError a b c) as [st1 evs1]
      end.
      exists 0. split; [lia|]. cbn [fst snd] in *.
      now rewrite sentMessages_send, He.
Qed.

(** C7.  [pauseTransfer] acts only on a 'transferring' transfer, which it
    makes 'paused'; [resumeTransfer] acts only on a 'paused' transfer,
    which it makes 'transferring'; in every other case, the terminal
    statuses included, the service is left exactly as it was.  A pause
    that arrives while the sender is suspended in window [w] lets the chunk
    in flight go out and stops the loop at its next status check: whatever
    the channel answers, no chunk with index [w] or more is handed to it,
    and when it accepts every message the chunks [0 .. w - 1] are all
    sent and the transfer stays 'paused' without a completion report. *)
Theorem pause_resume_transitions `{WebCrypto} :
  (forall transferId (st : FileTransferService.t),
      (forall r, JSMap.get transferId (activeTransfers st) = Some r ->
                 Spec.statusOf r st = Some transferring ->
                 pauseTransfer transferId st
                 = update r (FileTransfer.set_status paused) st
                 /\ Spec.statusOf r (pauseTransfer transferId st) = Some paused)
      /\ ((forall r, JSMap.get transferId (activeTransfers st) = Some r ->
                     Spec.statusOf r st <> Some transferring) ->
          pauseTransfer transferId st = st))
  /\ (forall transferId (st : FileTransferService.t),
        (forall r, JSMap.get transferId (activeTransfers st) = Some r ->
                   Spec.statusOf r st = Some paused ->
                   resumeTransfer transferId st
                   = update r (FileTransfer.set_status transferring) st
                   /\ Spec.statusOf r (resumeTransfer transferId st) = Some transferring)
        /\ ((forall r, JSMap.get transferId (activeTransfers st) = Some r ->
                       Spec.statusOf r st <> Some paused) ->
            resumeTransfer transferId st = st))
  /\ (forall transferId sendDataFunction (amb : Ambient)
             (st : FileTransferService.t) r (transfer : FileTransfer.t) w,
        JSMap.get transferId (activeTransfers st) = Some r ->
        heap st !! r = Some transfer ->
        extractable (FileTransfer.encryptionKey transfer) = true ->
        interleaved amb = Spec.pauseAt transferId w ->
        let file := FileTransfer.file transfer in
        let totalChunks := Math_ceil_div (File.size file) CHUNK_SIZE in
        let message :=
          chunkMessage amb transferId file (FileTransfer.encryptionKey transfer)
            totalChunks in
        (exists k,
            k <= w
            /\ Spec.sentMessages (sendFileChunks transferId sendDataFunction amb st).1.2
               = Spec.metadata transferId transfer :: map message (seq 0 k))
        /\ ((forall m, sendDataFunction m = true) ->
            w <= totalChunks ->
            exists st' tr,
              sendFileChunks transferId sendDataFunction amb st = (st', tr, Ok tt)
              /\ Spec.sentMessages tr
                 = Spec.metadata transferId transfer :: map message (seq 0 w)
              /\ Spec.statusOf r st' = Some paused
              /\ Spec.completions tr = [])).
Proof.
  split; [|split].
  - intros transferId st. destruct (pauseTransfer_spec transferId st) as [Hact Hid].
    split; [|exact Hid].
    intros r Hr Hs. split; [now apply Hact|].
    rewrite (Hact r Hr Hs). apply statusOf_set_status.
    unfold Spec.statusOf in Hs. destruct (heap st !! r); [eauto|discriminate].
  - intros transferId st. destruct (resumeTransfer_spec transferId st) as [Hact Hid].
    split; [|exact Hid].
    intros r Hr Hs. split; [now apply Hact|].
    rewrite (Hact r Hr Hs). apply statusOf_set_status.
    unfold Spec.statusOf in Hs. destruct (heap st !! r); [eauto|discriminate].
  - intros transferId sendDataFunction amb st r transfer w Hr Ht Hex Hamb
      file totalChunks message.
    split.
    + now apply sendFileChunks_pause_bound with (r := r).
    + intros Haccept Hw. now apply sendFileChunks_pause.
Qed.

Lemma pause_resume_transitions_witness :
  (exists st' tr,
      @sendFileChunks Demo.toyCrypto "t1" Demo.accept
        (Demo.ambient (Spec.pauseAt "t1" 2)) Demo.sender = (st', tr, Ok tt)
      /\ length (Spec.sentMessages tr) = 3
      /\ Spec.statusOf 0 st' = Some paused)
  /\ pauseTransfer "t1" Demo.sender = Demo.sender
  /\ resumeTransfer "t1" Demo.sender = Demo.sender.
Proof.
  destruct (@pause_resume_transitions Demo.toyCrypto) as (Hpause & Hresume & Hloop).
  split; [|split].
  - destruct (Hloop "t1"%string Demo.accept (Demo.ambient (Spec.pauseAt "t1" 2))
                Demo.sender 0 Demo.reportTransfer 2
                eq_refl eq_refl eq_refl eq_refl) as [_ Hexact].
    destruct (Hexact (fun _ => eq_refl)) as (st' & tr & Hrun & Hm & Hst & _).
    + vm_compute. lia.
    + exists st', tr. split; [exact Hrun|]. split; [|exact Hst].
      rewrite Hm. reflexivity.
  - apply (Hpause "t1"%string Demo.sender). intros r Hr.
    assert (r = 0) as -> by (vm_compute in Hr; congruence).
    vm_compute. discriminate.
  - apply (Hresume "t1"%string Demo.sender). intros r Hr.
    assert (r = 0) as -> by (vm_compute in Hr; congruence).
    vm_compute. discriminate.
Defined.

Lemma sendFileChunks_refused_registered `{WebCrypto} transferId sendDataFunction
    (amb : Ambient) (st : FileTransferService.t) r h (transfer : FileTransfer.t) :
  JSMap.get transferId (activeTransfers st) = Some r ->
  heap st !! r = Some transfer ->
  JSMap.get transferId (transferCallbacks st) = Some h ->
  extractable (FileTransfer.encryptionKey transfer) = true ->
  Spec.keepsRegistered transferId r (interleaved amb) ->
  forall post,
    Spec.afterRefusal (sendFileChunks transferId sendDataFunction amb st).1.2
    = Some post ->
    Spec.statusOf r (sendFileChunks transferId sendDataFunction amb st).1.1
    = Some failed
    /\ exists reason transfer',
         post = [OnError h transfer' reason]
         /\ FileTransfer.status transfer' = failed
         /\ (reason = "Failed to send transfer metadata"%string
             \/ exists i,
                  reason = ("Failed to send chunk " ++ number_to_string i)%string).
Proof.
  intros Hr Ht Hc Hex Hkeeps post.
  unfold sendFileChunks. rewrite Hr, Ht. unfold exportKey. rewrite Hex.
  set (stT := update r (FileTransfer.set_status transferring) st).
  assert (Hreg : JSMap.get transferId (activeTransfers (interleaved amb 0 stT)) = Some r
                 /\ JSMap.get transferId (transferCallbacks (interleaved amb 0 stT)) = Some h
                 /\ is_Some (heap (interleaved amb 0 stT) !! r)).
  { destruct (Hkeeps 0 stT) as (Ht' & Hr' & Hc').
    repeat split; [now rewrite Hr'|now rewrite Hc'|].
    apply Ht'. subst stT. rewrite lookup_update_eq, Ht. eauto. }
  set (st0 := interleaved amb 0 stT) in *.
  destruct (sendDataFunction (transfer_start _)); cbn [negb].
  - pose proof (sendLoop_refusal sendDataFunction amb transferId r h
                  (FileTransfer.file transfer) (FileTransfer.encryptionKey transfer)
                  (Math_ceil_div (File.size (FileTransfer.file transfer)) CHUNK_SIZE)
                  Hkeeps
                  (Math_ceil_div (File.size (FileTransfer.file transfer)) CHUNK_SIZE)
                  0 0 st0 Hreg) as Hloop.
    destruct (sendLoop _ _ _ _ _ _ _ _ _ _ st0) as [[st1 evs] fin].
    destruct (Spec.afterRefusal evs) as [post'|] eqn:Href.
    + destruct Hloop as (-> & Hst & j & transfer' & -> & Hfailed).
      cbn [andb fst snd Spec.afterRefusal]. rewrite Href. intros [= <-].
      split; [exact Hst|].
      eexists _, _. split; [reflexivity|]. split; [exact Hfailed|].
      right. now exists j.
    + subst fin. cbn [andb]. intros Hpost. exfalso.
      destruct (status_is transferring r st1); cbn [fst snd Spec.afterRefusal] in Hpost.
      * rewrite afterRefusal_none_app in Hpost by exact Href.
        rewrite <- (app_nil_r (callback _ _ _ _)) in Hpost.
        rewrite afterRefusal_silent_app in Hpost
          by (apply callback_silent; intros; exact I).
        discriminate.
      * congruence.
  - destruct Hreg as (Hr0 & Hc0 & [transfer0 Ht0]).
    rewrite (handleTransferError_registered _ _ _ _ _ _ Hr0 Hc0 Ht0).
    cbn [fst snd Spec.afterRefusal]. intros [= <-].
    split; [apply statusOf_set_status; eauto|].
    eexists _, _. split; [reflexivity|]. split; [reflexivity|]. now left.
Qed.

(** C8, as the code has it.  When the send function refuses a message of
    [sendFileChunks], be it the 'transfer-start' or a chunk, no message
    follows: nothing is tried again.  If the transfer and its callbacks
    are still registered under the id at that moment, the transfer is
    'failed' and the error callback is called, once, with a reason that
    names what could not be sent. *)
Theorem sendFileChunks_refused `{WebCrypto} transferId sendDataFunction
    (amb : Ambient) (st : FileTransferService.t) :
  let run := sendFileChunks transferId sendDataFunction amb st in
  (forall post, Spec.afterRefusal run.1.2 = Some post -> Spec.sentMessages post = [])
  /\ (forall r h (transfer : FileTransfer.t),
        JSMap.get transferId (activeTransfers st) = Some r ->
        heap st !! r = Some transfer ->
        JSMap.get transferId (transferCallbacks st) = Some h ->
        extractable (FileTransfer.encryptionKey transfer) = true ->
        Spec.keepsRegistered transferId r (interleaved amb) ->
        forall post,
          Spec.afterRefusal run.1.2 = Some post ->
          Spec.statusOf r run.1.1 = Some failed
          /\ exists reason transfer',
               post = [OnError h transfer' reason]
               /\ FileTransfer.status transfer' = failed
               /\ (reason = "Failed to send transfer metadata"%string
                   \/ exists i,
                        reason
                        = ("Failed to send chunk " ++ number_to_string i)%string)).
Proof.
  intros run. split.
  - intros post. apply sendFileChunks_no_retry.
  - intros r h transfer Hr Ht Hc Hex Hkeeps post.
    now apply sendFileChunks_refused_registered with (transfer := transfer).
Qed.

Lemma quiet_keepsRegistered transferId r : Spec.keepsRegistered transferId r Spec.quiet.
Proof. intros w st. now repeat split. Qed.

Lemma sendFileChunks_refused_witness :
  exists post transfer',
    Spec.afterRefusal
      (@sendFileChunks Demo.toyCrypto "t1" (Demo.acceptBelow 1)
         (Demo.ambient Spec.quiet) Demo.sender).1.2 = Some post
    /\ post = [OnError 7 transfer' "Failed to send chunk 1"]
    /\ Spec.sentMessages post = []
    /\ Spec.statusOf 0
         (@sendFileChunks Demo.toyCrypto "t1" (Demo.acceptBelow 1)
            (Demo.ambient Spec.quiet) Demo.sender).1.1 = Some failed.
Proof.
  assert (Hpost : exists post transfer',
             Spec.afterRefusal
               (@sendFileChunks Demo.toyCrypto "t1" (Demo.acceptBelow 1)
                  (Demo.ambient Spec.quiet) Demo.sender).1.2 = Some post
             /\ post = [OnError 7 transfer' "Failed to send chunk 1"])
    by (eexists _, _; split; vm_compute; reflexivity).
  destruct Hpost as (post & transfer' & Hpost & Hshape).
  destruct (@sendFileChunks_refused Demo.toyCrypto "t1" (Demo.acceptBelow 1)
              (Demo.ambient Spec.quiet) Demo.sender) as [Hnone Hfail].
  destruct (Hfail 0 7 Demo.reportTransfer eq_refl eq_refl eq_refl eq_refl
              (quiet_keepsRegistered "t1" 0) post Hpost) as (Hst & _).
  exists post, transfer'.
  split; [exact Hpost|]. split; [exact Hshape|]. split; [|exact Hst].
  now apply Hnone.
Defined.

(** The user cancels while chunk 0 is prepared and the channel refuses
    chunk 1: the transfer is no longer registered when the send fails, and
    no error callback runs.  Likewise when a chunk for an unknown id
    arrives instead of the cancellation: the receiver side stores the
    transfer under that id, the failed send finds nothing under the old
    one, and the transfer stays 'transferring'. *)
Lemma sendFileChunks_refused_counterexample :
  JSMap.get "t1" (transferCallbacks Demo.sender) = Some 7
  /\ (length (Spec.sentMessages Demo.cancelledRefusedRun.1.2) = 3
      /\ Spec.afterRefusal Demo.cancelledRefusedRun.1.2 = Some [])
  /\ (length (Spec.sentMessages Demo.rekeyedRefusedRun.1.2) = 3
      /\ Spec.afterRefusal Demo.rekeyedRefusedRun.1.2 = Some []
      /\ Spec.statusOf 0 Demo.rekeyedRefusedRun.1.1 = Some transferring
      /\ activeTransfers Demo.rekeyedRefusedRun.1.1 = [("c"%string, 0)]).
Proof. repeat split; vm_compute; reflexivity. Qed.

End SenderClaims.

(** ** The receiver *)

Section Reconstruction.
Import FileTransferService.
Context `{WebCrypto}.

Lemma totalSize_fold chunks a :
  fold_left (fun size (chunk : option (list byte)) =>
               match chunk with
               | Some c => size + length c
               | None => size
               end) chunks a
  = a + totalSize chunks.
Proof.
  unfold totalSize. revert a.
  induction chunks as [|[c|] chunks IH]; intros a; cbn [fold_left].
  - lia.
  - rewrite IH, (IH (0 + length c)). lia.
  - apply IH.
Qed.

Lemma totalSize_cons_Some c chunks :
  totalSize (Some c :: chunks) = length c + totalSize chunks.
Proof. unfold totalSize at 1. cbn [fold_left]. now rewrite totalSize_fold. Qed.

Lemma totalSize_cons_None chunks : totalSize (None :: chunks) = totalSize chunks.
Proof. reflexivity. Qed.

Lemma concatenation_cons_Some c chunks :
  Spec.concatenation (Some c :: chunks) = c ++ Spec.concatenation chunks.
Proof. reflexivity. Qed.

(** The copy loop of [reconstructFile]: it writes the chunks one after the
    other and breaks on the first hole. *)
Lemma combineChunks_spec chunks :
  forall pre rest,
    totalSize chunks <= length rest ->
    combineChunks chunks (pre ++ rest) (length pre)
    = if forallb (fun c : option (list byte) => bool_decide (is_Some c)) chunks
      then Ok (pre ++ Spec.concatenation chunks ++ drop (totalSize chunks) rest)
      else Throw TypeError.
Proof.
  induction chunks as [|[c|] chunks IH]; intros pre rest Hsize.
  - reflexivity.
  - rewrite totalSize_cons_Some in Hsize. cbn [combineChunks forallb bind].
    unfold typed_array_set.
    destruct (Nat.ltb_spec (length (pre ++ rest)) (length pre + length c)) as [Hlt|_].
    { rewrite length_app in Hlt. lia. }
    cbn [bind andb].
    rewrite take_app_length.
    replace (drop (length pre + length c) (pre ++ rest)) with (drop (length c) rest)
      by (rewrite drop_app_add'; [reflexivity|lia]).
    replace (pre ++ c ++ drop (length c) rest) with ((pre ++ c) ++ drop (length c) rest)
      by now rewrite <- app_assoc.
    replace (length pre + length c) with (length (pre ++ c)) by now rewrite length_app.
    rewrite IH by (rewrite length_drop; lia).
    rewrite bool_decide_eq_true_2 by eauto. cbn [andb].
    destruct (forallb _ chunks); [|reflexivity].
    f_equal. rewrite concatenation_cons_Some.
    rewrite totalSize_cons_Some, drop_drop, <- !app_assoc. reflexivity.
  - cbn [combineChunks forallb bind]. unfold typed_array_set.
    destruct (Nat.ltb_spec (length (pre ++ rest)) (length pre + length (@nil byte)))
      as [Hlt|_].
    { rewrite length_app in Hlt. cbn in Hlt. lia. }
    reflexivity.
Qed.

Lemma reconstructFile_spec transferId st chunks :
  JSMap.get transferId (receivedChunks st) = Some chunks ->
  reconstructFile transferId st
  = if forallb (fun c : option (list byte) => bool_decide (is_Some c)) chunks
    then Ok (Spec.concatenation chunks)
    else Throw TypeError.
Proof.
  intros Hc. unfold reconstructFile. rewrite Hc.
  pose proof (combineChunks_spec chunks [] (replicate (totalSize chunks) x00)) as Hspec.
  cbn [app length] in Hspec. rewrite Hspec by now rewrite length_replicate.
  destruct (forallb _ chunks); [|reflexivity].
  f_equal. rewrite drop_ge by now rewrite length_replicate.
  apply app_nil_r.
Qed.



End Reconstruction.

Section ReceiverFacts.
Import EncryptionService FileTransferService.
Context `{WebCrypto}.
Implicit Types (st : FileTransferService.t) (r : ref) (message : FileChunk.t).

Lemma array_set_length {A} index (value : A) chunks :
  length (array_set index value chunks) = Nat.max (length chunks) (index + 1).
Proof.
  unfold array_set. destruct (Nat.ltb_spec index (length chunks)).
  - rewrite length_insert. lia.
  - rewrite !length_app, length_replicate. cbn. lia.
Qed.

Lemma array_set_lookup {A} index (value : A) chunks :
  array_set index value chunks !! index = Some (Some value).
Proof.
  unfold array_set. destruct (Nat.ltb_spec index (length chunks)).
  - now apply list_lookup_insert_eq.
  - rewrite lookup_app_r by lia.
    rewrite lookup_app_r by (rewrite length_replicate; lia).
    rewrite length_replicate.
    replace (index - length chunks - (index - length chunks)) with 0 by lia.
    reflexivity.
Qed.

Lemma array_store_of_nat {A} i (value : A) chunks :
  array_store (Z.of_nat i) value chunks = array_set i value chunks.
Proof.
  unfold array_store. destruct (Z.ltb_spec (Z.of_nat i) 0); [lia|].
  now rewrite Nat2Z.id.
Qed.

Lemma array_store_negative {A} index (value : A) chunks :
  (index < 0)%Z -> array_store index value chunks = chunks.
Proof.
  intros Hneg. unfold array_store. destruct (Z.ltb_spec index 0); [reflexivity|lia].
Qed.

Lemma array_store_length {A} index (value : A) chunks :
  length chunks <= length (array_store index value chunks).
Proof.
  unfold array_store. destruct (Z.ltb_spec index 0); [lia|].
  rewrite array_set_length. lia.
Qed.

Lemma bufferWith_of_nat transferId i data st :
  Spec.bufferWith transferId (Z.of_nat i) data st
  = array_set i data
      match JSMap.get transferId (receivedChunks st) with
      | Some chunks => chunks
      | None => []
      end.
Proof. unfold Spec.bufferWith. apply array_store_of_nat. Qed.

Lemma storeChunk_buffer transferId index data st :
  JSMap.get transferId (receivedChunks (storeChunk transferId index data st))
  = Some (Spec.bufferWith transferId index data st).
Proof. unfold storeChunk. cbn [set_receivedChunks receivedChunks]. apply get_set_eq. Qed.

(** [handleTransferError] for a registered transfer: the callbacks are those
    registered under the same id, if there are any. *)
Lemma handleTransferError_any transferId error st r (transfer : FileTransfer.t) :
  JSMap.get transferId (activeTransfers st) = Some r ->
  heap st !! r = Some transfer ->
  handleTransferError transferId error st
  = (update r (FileTransfer.set_status failed) st,
     Spec.notified (JSMap.get transferId (transferCallbacks st))
       (fun h => OnError h (FileTransfer.set_status failed transfer) error)).
Proof.
  intros Hr Ht. unfold handleTransferError, callback. rewrite Hr.
  rewrite lookup_update_eq, Ht. cbn [update set_heap transferCallbacks].
  now destruct (JSMap.get transferId (transferCallbacks st)).
Qed.

Lemma callback_notified cb transferId r st (transfer : FileTransfer.t) :
  heap st !! r = Some transfer ->
  callback cb transferId r st
  = Spec.notified (JSMap.get transferId (transferCallbacks st))
      (fun h => cb h transfer).
Proof.
  intros Ht. unfold callback. rewrite Ht.
  now destruct (JSMap.get transferId (transferCallbacks st)).
Qed.

(** What the [try] block does with a chunk that decrypts and verifies; the
    callbacks are those registered under the id of the chunk, if there are
    any. *)
Lemma processChunk_carries_any now message r st (transfer : FileTransfer.t) data :
  heap st !! r = Some transfer ->
  Spec.carries transfer message data ->
  let transferId := FileChunk.transferId message in
  let chunkIndex := FileChunk.chunkIndex message in
  let callbacks := JSMap.get transferId (transferCallbacks st) in
  let snapshot := Spec.receivedSnapshot now transfer chunkIndex in
  exists st2,
    heap st2 !! r = Some snapshot
    /\ activeTransfers st2 = activeTransfers st
    /\ transferCallbacks st2 = transferCallbacks st
    /\ JSMap.get transferId (receivedChunks st2)
       = Some (Spec.bufferWith transferId chunkIndex data st)
    /\ processChunk now message r st
       = if FileChunk.isLastChunk message then
           match reconstructFile transferId st2 with
           | Throw e =>
               (st2, Spec.notified callbacks (fun h => OnProgress h snapshot), Throw e)
           | Ok completeFile =>
               (set_receivedChunks
                  (JSMap.delete transferId (receivedChunks st2))
                  (update r (FileTransfer.set_status completed) st2),
                Spec.notified callbacks (fun h => OnProgress h snapshot)
                  ++ Download completeFile (File.name (FileTransfer.file transfer))
                  :: Spec.notified callbacks
                       (fun h => OnComplete h
                                   (FileTransfer.set_status completed snapshot)),
                Ok tt)
           end
         else (st2, Spec.notified callbacks (fun h => OnProgress h snapshot), Ok tt).
Proof.
  intros Ht (enc & ivb & Henc & Hiv & Hdec & Hver) transferId chunkIndex callbacks
    snapshot.
  subst transferId chunkIndex.
  set (transferId := FileChunk.transferId message) in *.
  set (chunkIndex := FileChunk.chunkIndex message) in *.
  set (st1 := storeChunk transferId chunkIndex data st).
  set (st2 :=
         update r (fun transfer =>
                     FileTransfer.set_speed
                       (calculateTransferSpeed now transfer
                          ((chunkIndex + 1) * Z.of_nat CHUNK_SIZE)%Z) transfer)
           (update r (FileTransfer.set_progress
                        (times (signed_quotient (chunkIndex + 1)
                                  (Math_ceil_div (File.size (FileTransfer.file transfer))
                                     CHUNK_SIZE)) 100)) st1)).
  assert (Ht2 : heap st2 !! r = Some snapshot).
  { subst st2 st1. rewrite !lookup_update_eq. cbn [storeChunk set_receivedChunks heap].
    now rewrite Ht. }
  exists st2. split; [exact Ht2|]. split; [reflexivity|]. split; [reflexivity|].
  split; [apply storeChunk_buffer|].
  unfold processChunk. fold transferId. fold chunkIndex.
  rewrite Henc, Hiv, Ht, Hdec, Hver. cbn [negb].
  fold st1. fold st2.
  rewrite (callback_notified OnProgress transferId r st2 snapshot Ht2).
  change (transferCallbacks st2) with (transferCallbacks st). fold callbacks.
  destruct (FileChunk.isLastChunk message); [|reflexivity].
  destruct (reconstructFile transferId st2) as [completeFile|e]; [|reflexivity].
  rewrite (callback_notified OnComplete transferId r _
             (FileTransfer.set_status completed snapshot))
    by now rewrite lookup_update_eq, Ht2.
  reflexivity.
Qed.

(** The same when callbacks are registered under the id of the chunk. *)
Lemma processChunk_carries now message r h st (transfer : FileTransfer.t) data :
  heap st !! r = Some transfer ->
  JSMap.get (FileChunk.transferId message) (transferCallbacks st) = Some h ->
  Spec.carries transfer message data ->
  let transferId := FileChunk.transferId message in
  let chunkIndex := FileChunk.chunkIndex message in
  let snapshot := Spec.receivedSnapshot now transfer chunkIndex in
  exists st2,
    heap st2 !! r = Some snapshot
    /\ activeTransfers st2 = activeTransfers st
    /\ transferCallbacks st2 = transferCallbacks st
    /\ JSMap.get transferId (receivedChunks st2)
       = Some (Spec.bufferWith transferId chunkIndex data st)
    /\ processChunk now message r st
       = if FileChunk.isLastChunk message then
           match reconstructFile transferId st2 with
           | Throw e => (st2, [OnProgress h snapshot], Throw e)
           | Ok completeFile =>
               (set_receivedChunks
                  (JSMap.delete transferId (receivedChunks st2))
                  (update r (FileTransfer.set_status completed) st2),
                [OnProgress h snapshot;
                 Download completeFile (File.name (FileTransfer.file transfer));
                 OnComplete h (FileTransfer.set_status completed snapshot)],
                Ok tt)
           end
         else (st2, [OnProgress h snapshot], Ok tt).
Proof.
  intros Ht Hc Hcarries transferId chunkIndex snapshot.
  destruct (processChunk_carries_any now message r st transfer data Ht Hcarries)
    as (st2 & Ht2 & Hact2 & Hcb2 & Hbuf2 & Hrun).
  cbv zeta in Hrun. rewrite Hc in Hrun. exists st2.
  split; [exact Ht2|]. split; [exact Hact2|]. split; [exact Hcb2|].
  split; [exact Hbuf2|]. exact Hrun.
Qed.

End ReceiverFacts.

Section Fallback.
Import EncryptionService FileTransferService.
Context `{WebCrypto}.
Implicit Types (st : FileTransferService.t) (r : ref) (message : FileChunk.t).

Lemma find_first {A} (f : A -> bool) (l : list A) x :
  List.find f l = Some x ->
  exists l1 l2, l = l1 ++ x :: l2 /\ f x = true /\ Forall (fun y => f y = false) l1.
Proof.
  induction l as [|a l IH]; [discriminate|]. cbn [List.find].
  destruct (f a) eqn:E.
  - intros [= ->]. exists [], l. repeat split; [assumption|constructor].
  - intros Hfind. destruct (IH Hfind) as (l1 & l2 & -> & Hx & Hall).
    exists (a :: l1), l2. repeat split; [assumption|now constructor].
Qed.

Lemma find_nothing {A} (f : A -> bool) (l : list A) :
  List.find f l = None <-> Forall (fun y => f y = false) l.
Proof.
  induction l as [|a l IH]; cbn [List.find].
  - split; [constructor|reflexivity].
  - destruct (f a) eqn:E.
    + split; [discriminate|]. intros Hall. inversion Hall; congruence.
    + rewrite IH. split; [now constructor|]. intros Hall. now inversion Hall.
Qed.

Lemma handleTransferError_activeTransfers transferId error st :
  activeTransfers (handleTransferError transferId error st).1 = activeTransfers st.
Proof.
  unfold handleTransferError.
  now destruct (JSMap.get transferId (activeTransfers st)).
Qed.

Lemma processChunk_activeTransfers now message r st :
  activeTransfers (processChunk now message r st).1.1 = activeTransfers st.
Proof.
  unfold processChunk.
  destruct (Base64.atob (FileChunk.encryptedData message)); [|reflexivity].
  destruct (Base64.atob (FileChunk.iv message)); [|reflexivity].
  destruct (heap st !! r) as [transfer|]; [|reflexivity].
  destruct (decrypt _ _ _) as [data|e]; [|reflexivity].
  destruct (verifyChecksum _ _); cbn [negb].
  - destruct (FileChunk.isLastChunk message); [|reflexivity].
    now destruct (reconstructFile _ _).
  - match goal with
    | |- context [handleTransferError ?a ?b ?c] =>
        pose proof (handleTransferError_activeTransfers a b c) as He;
        destruct (handleTransferError a b c) as [st1 evs1]
    end.
    exact He.
Qed.

Lemma handleIncomingChunk_registered now message st r :
  JSMap.get (FileChunk.transferId message) (activeTransfers st) = Some r ->
  activeTransfers (handleIncomingChunk now message st).1 = activeTransfers st.
Proof.
  intros Hr. unfold handleIncomingChunk. rewrite Hr.
  pose proof (processChunk_activeTransfers now message r st) as Hp.
  destruct (processChunk now message r st) as [[st1 evs1] [u|e]]; [exact Hp|].
  match goal with
  | |- context [handleTransferError ?a ?b ?c] =>
      pose proof (handleTransferError_activeTransfers a b c) as He;
      destruct (handleTransferError a b c) as [st2 evs2]
  end.
  cbn [fst snd] in *. congruence.
Qed.

Lemma rekey_registered r transferId st :
  JSMap.get transferId (activeTransfers (rekey r transferId st)) = Some r.
Proof. unfold rekey. cbn [set_activeTransfers activeTransfers]. apply get_set_eq. Qed.

(** For an id that is not registered the receiver takes the first
    registered transfer that is 'transferring', stores it under the
    incoming id and goes on as if the chunk had been sent for it. *)
Lemma handleIncomingChunk_fallback now message st r :
  JSMap.get (FileChunk.transferId message) (activeTransfers st) = None ->
  findFallback st = Some r ->
  handleIncomingChunk now message st
  = handleIncomingChunk now message (rekey r (FileChunk.transferId message) st).
Proof.
  intros Hnone Hfind. unfold handleIncomingChunk at 1 2.
  now rewrite Hnone, Hfind, rekey_registered.
Qed.

Lemma handleIncomingChunk_dropped now message st :
  JSMap.get (FileChunk.transferId message) (activeTransfers st) = None ->
  findFallback st = None ->
  handleIncomingChunk now message st = (st, []).
Proof.
  intros Hnone Hfind. unfold handleIncomingChunk. now rewrite Hnone, Hfind.
Qed.

End Fallback.

Section ReceiverClaims.
Import EncryptionService FileTransferService.

Lemma handleIncomingChunk_final_any `{WebCrypto} now (message : FileChunk.t)
    (st : FileTransferService.t) r (transfer : FileTransfer.t) data :
  JSMap.get (FileChunk.transferId message) (activeTransfers st) = Some r ->
  heap st !! r = Some transfer ->
  Spec.carries transfer message data ->
  FileChunk.isLastChunk message = true ->
  let transferId := FileChunk.transferId message in
  let chunkIndex := FileChunk.chunkIndex message in
  let callbacks := JSMap.get transferId (transferCallbacks st) in
  let buffer := Spec.bufferWith transferId chunkIndex data st in
  let snapshot := Spec.receivedSnapshot now transfer chunkIndex in
  exists st',
    (handleIncomingChunk now message st).1 = st'
    /\ if forallb (fun c : option (list byte) => bool_decide (is_Some c)) buffer
       then (handleIncomingChunk now message st).2
            = Spec.notified callbacks (fun h => OnProgress h snapshot)
                ++ Download (Spec.concatenation buffer)
                            (File.name (FileTransfer.file transfer))
                :: Spec.notified callbacks
                     (fun h => OnComplete h
                                 (FileTransfer.set_status completed snapshot))
            /\ Spec.statusOf r st' = Some completed
            /\ JSMap.get transferId (receivedChunks st') = None
       else (handleIncomingChunk now message st).2
            = Spec.notified callbacks (fun h => OnProgress h snapshot)
                ++ Spec.notified callbacks
                     (fun h =>
                        OnError h (FileTransfer.set_status failed snapshot)
                          ("Failed to process chunk " ++ integer_to_string chunkIndex
                             ++ ": " ++ error_to_string TypeError)%string)
            /\ Spec.statusOf r st' = Some failed
            /\ JSMap.get transferId (receivedChunks st') = Some buffer.
Proof.
  intros Hr Ht Hcarries Hlast transferId chunkIndex callbacks buffer snapshot.
  destruct (processChunk_carries_any now message r st transfer data Ht Hcarries)
    as (st2 & Ht2 & Hact2 & Hcb2 & Hbuf2 & Hrun).
  cbv zeta in Hrun. rewrite Hlast in Hrun.
  rewrite (reconstructFile_spec _ _ _ Hbuf2) in Hrun.
  fold transferId chunkIndex snapshot in Hrun, Ht2, Hbuf2.
  fold buffer in Hrun, Hbuf2. fold callbacks in Hrun.
  unfold handleIncomingChunk. rewrite Hr. rewrite Hrun.
  destruct (forallb _ buffer).
  - eexists. split; [reflexivity|]. cbn [fst snd]. split; [reflexivity|]. split.
    + unfold Spec.statusOf. cbn [set_receivedChunks heap].
      now rewrite lookup_update_eq, Ht2.
    + cbn [set_receivedChunks receivedChunks]. apply get_delete_eq.
  - fold transferId.
    rewrite (handleTransferError_any transferId _ st2 r snapshot);
      [|now rewrite Hact2|exact Ht2].
    rewrite Hcb2. fold callbacks.
    eexists. split; [reflexivity|]. cbn [fst snd]. split; [reflexivity|]. split.
    + apply statusOf_set_status. rewrite Ht2. eauto.
    + exact Hbuf2.
Qed.

Lemma handleIncomingChunk_final `{WebCrypto} now (message : FileChunk.t)
    (st : FileTransferService.t) r h (transfer : FileTransfer.t) data :
  JSMap.get (FileChunk.transferId message) (activeTransfers st) = Some r ->
  heap st !! r = Some transfer ->
  JSMap.get (FileChunk.transferId message) (transferCallbacks st) = Some h ->
  Spec.carries transfer message data ->
  FileChunk.isLastChunk message = true ->
  let transferId := FileChunk.transferId message in
  let chunkIndex := FileChunk.chunkIndex message in
  let buffer := Spec.bufferWith transferId chunkIndex data st in
  let snapshot := Spec.receivedSnapshot now transfer chunkIndex in
  exists st',
    (handleIncomingChunk now message st).1 = st'
    /\ if forallb (fun c : option (list byte) => bool_decide (is_Some c)) buffer
       then (handleIncomingChunk now message st).2
            = [OnProgress h snapshot;
               Download (Spec.concatenation buffer)
                        (File.name (FileTransfer.file transfer));
               OnComplete h (FileTransfer.set_status completed snapshot)]
            /\ Spec.statusOf r st' = Some completed
            /\ JSMap.get transferId (receivedChunks st') = None
       else (handleIncomingChunk now message st).2
            = [OnProgress h snapshot;
               OnError h (FileTransfer.set_status failed snapshot)
                 ("Failed to process chunk " ++ integer_to_string chunkIndex
                    ++ ": " ++ error_to_string TypeError)%string]
            /\ Spec.statusOf r st' = Some failed
            /\ JSMap.get transferId (receivedChunks st') = Some buffer.
Proof.
  intros Hr Ht Hc Hcarries Hlast transferId chunkIndex buffer snapshot.
  destruct (handleIncomingChunk_final_any now message st r transfer data
              Hr Ht Hcarries Hlast) as (st' & Hst' & Hcases).
  cbv zeta in Hcases. rewrite Hc in Hcases. now exists st'.
Qed.


Lemma demo_carries transferId index isLast :
  @Spec.carries Demo.toyCrypto (Demo.incomingTransfer "t1")
    (Demo.chunk transferId index Demo.hi isLast) Demo.hi.
Proof.
  unfold Spec.carries. eexists _, _.
  split; [apply atob_btoa|]. split; [apply atob_btoa|]. split; reflexivity.
Qed.



(** C5, as the code has it.  For a chunk whose id is not registered the
    receiver goes through the registered transfers in registration order.
    If none is 'transferring' the chunk is dropped: the service is left as
    it was and no callback runs.  Otherwise the first 'transferring' one,
    whether or not chunks were already received for it and however many
    others are 'transferring', is taken out of the registry under its own
    id, stored under the incoming id, and the chunk is processed for it. *)
Theorem orphan_chunk_fallback `{WebCrypto} now (message : FileChunk.t)
    (st : FileTransferService.t) :
  let transferId := FileChunk.transferId message in
  JSMap.get transferId (activeTransfers st) = None ->
  (findFallback st = None <->
   Forall (fun r => Spec.statusOf r st <> Some transferring)
          (JSMap.values (activeTransfers st)))
  /\ (findFallback st = None -> handleIncomingChunk now message st = (st, []))
  /\ (forall r (transfer : FileTransfer.t),
        findFallback st = Some r ->
        heap st !! r = Some transfer ->
        (exists l1 l2,
            JSMap.values (activeTransfers st) = l1 ++ r :: l2
            /\ Spec.statusOf r st = Some transferring
            /\ Forall (fun r' => Spec.statusOf r' st <> Some transferring) l1)
        /\ handleIncomingChunk now message st
           = handleIncomingChunk now message (rekey r transferId st)
        /\ activeTransfers (handleIncomingChunk now message st).1
           = JSMap.set transferId r
               (JSMap.delete (FileTransfer.id transfer) (activeTransfers st))
        /\ FileTransfer.id <$> heap (rekey r transferId st) !! r = Some transferId).
Proof.
  intros transferId Hnone. split; [|split].
  - unfold findFallback. rewrite find_nothing.
    split; intros Hall; (eapply Forall_impl; [exact Hall|]); cbn; intros r;
      apply status_is_false.
  - intros Hfind. now apply handleIncomingChunk_dropped.
  - intros r transfer Hfind Ht. split; [|split; [|split]].
    + unfold findFallback in Hfind. apply find_first in Hfind.
      destruct Hfind as (l1 & l2 & Hl & Hs & Hall).
      exists l1, l2. split; [exact Hl|]. split; [now apply status_is_true|].
      eapply Forall_impl; [exact Hall|]. cbn. intros r'. apply status_is_false.
    + now apply handleIncomingChunk_fallback.
    + rewrite (handleIncomingChunk_fallback now message st r Hnone Hfind).
      rewrite (handleIncomingChunk_registered now message _ r)
        by apply rekey_registered.
      unfold rekey. now rewrite Ht.
    + unfold rekey. rewrite Ht.
      cbn [set_activeTransfers update set_heap heap activeTransfers].
      now rewrite list_lookup_alter_eq, Ht.
Qed.

Lemma orphan_chunk_fallback_witness :
  @handleIncomingChunk Demo.toyCrypto 5000 Demo.orphan Demo.receivingPaused
  = (Demo.receivingPaused, [])
  /\ activeTransfers (@handleIncomingChunk Demo.toyCrypto 5000 Demo.orphan
                        Demo.receiving).1
     = [("c"%string, 0)].
Proof.
  split.
  - destruct (@orphan_chunk_fallback Demo.toyCrypto 5000 Demo.orphan
                Demo.receivingPaused eq_refl) as (_ & Hdrop & _).
    apply Hdrop. reflexivity.
  - destruct (@orphan_chunk_fallback Demo.toyCrypto 5000 Demo.orphan
                Demo.receiving eq_refl) as (_ & _ & Hrekey).
    destruct (Hrekey 0 (Demo.incomingTransfer "t1") eq_refl eq_refl)
      as (_ & _ & Hact & _).
    rewrite Hact. reflexivity.
Defined.

(** Two transfers are 'transferring' and neither has a chunk, so there is
    not exactly one candidate; the chunk for the unknown id is taken for
    the first of them all the same. *)
Lemma orphan_chunk_fallback_counterexample :
  JSMap.get "c" (activeTransfers Demo.receivingTwo) = None
  /\ Spec.statusOf 0 Demo.receivingTwo = Some transferring
  /\ Spec.statusOf 1 Demo.receivingTwo = Some transferring
  /\ receivedChunks Demo.receivingTwo = []
  /\ activeTransfers (@handleIncomingChunk Demo.toyCrypto 5000 Demo.orphan
                        Demo.receivingTwo).1
     = [("b"%string, 1); ("c"%string, 0)]
  /\ receivedChunks (@handleIncomingChunk Demo.toyCrypto 5000 Demo.orphan
                       Demo.receivingTwo).1
     = [("c"%string, [Some Demo.hi])].
Proof. vm_compute. repeat split. Qed.

(** After a chunk that decrypts and verifies, the transfer shows the
    percentage and the speed that the index of the chunk stands for. *)
Lemma handleIncomingChunk_progress `{WebCrypto} now (message : FileChunk.t)
    (st : FileTransferService.t) r (transfer : FileTransfer.t) data :
  JSMap.get (FileChunk.transferId message) (activeTransfers st) = Some r ->
  heap st !! r = Some transfer ->
  Spec.carries transfer message data ->
  exists transfer',
    heap (handleIncomingChunk now message st).1 !! r = Some transfer'
    /\ FileTransfer.progress transfer'
       = Spec.signed_percent
           (Math_ceil_div (File.size (FileTransfer.file transfer)) CHUNK_SIZE)
           (FileChunk.chunkIndex message + 1)
    /\ FileTransfer.speed transfer'
       = calculateTransferSpeed now transfer
           ((FileChunk.chunkIndex message + 1) * Z.of_nat CHUNK_SIZE)%Z.
Proof.
  intros Hr Ht (enc & ivb & Henc & Hiv & Hdec & Hver).
  unfold handleIncomingChunk. rewrite Hr.
  unfold processChunk. rewrite Henc, Hiv, Ht, Hdec, Hver. cbn [negb].
  set (st2 := update r _ (update r _ (storeChunk _ _ _ st))).
  assert (Ht2 : heap st2 !! r
                = Some (Spec.receivedSnapshot now transfer
                          (FileChunk.chunkIndex message))).
  { subst st2. rewrite !lookup_update_eq. cbn [storeChunk set_receivedChunks heap].
    now rewrite Ht. }
  destruct (FileChunk.isLastChunk message).
  - destruct (reconstructFile _ st2) as [completeFile|e].
    + eexists. cbn [fst set_receivedChunks heap].
      rewrite lookup_update_eq, Ht2. now repeat split.
    + unfold handleTransferError.
      replace (activeTransfers st2) with (activeTransfers st) by reflexivity.
      rewrite Hr. eexists. cbn [fst].
      rewrite lookup_update_eq, Ht2. now repeat split.
  - eexists. cbn [fst]. rewrite Ht2. now repeat split.
Qed.




Lemma onTransferStart_registers now peerId (data : TransferStart.t) h
    (st : FileTransferService.t) key :
  importKey (TransferStart.encryptionKey data) = Ok key ->
  let r := length (heap st) in
  let st1 := App.onTransferStart now peerId data h st in
  exists transfer,
    heap st1 !! r = Some transfer
    /\ JSMap.get (TransferStart.transferId data) (activeTransfers st1) = Some r
    /\ File.size (FileTransfer.file transfer) = TransferStart.fileSize data
    /\ FileTransfer.encryptionKey transfer = key
    /\ FileTransfer.status transfer = transferring.
Proof.
  intros Hkey r st1. subst st1. unfold App.onTransferStart. rewrite Hkey.
  eexists. split.
  - cbn [registerIncomingTransfer heap]. now apply list_lookup_middle.
  - split; [|now repeat split].
    cbn [registerIncomingTransfer activeTransfers FileTransfer.id]. apply get_set_eq.
Qed.

(** C4, as the code has it.  The sender announces, and the receiver works
    with, the ceiling of [fileSize / CHUNK_SIZE]: the least number of
    chunks that cover the file.  Both ends compute it from the same size,
    so they agree.  For an empty file it is 0. *)
Theorem totalChunks_agree `{WebCrypto} (fileSize : nat) :
  let totalChunks := Math_ceil_div fileSize CHUNK_SIZE in
  (fileSize <= totalChunks * CHUNK_SIZE
   /\ (forall t, fileSize <= t * CHUNK_SIZE -> totalChunks <= t)
   /\ (totalChunks = 0 <-> fileSize = 0))
  /\ (forall transferId sendDataFunction (amb : Ambient)
             (st : FileTransferService.t) r (transfer : FileTransfer.t),
        JSMap.get transferId (activeTransfers st) = Some r ->
        heap st !! r = Some transfer ->
        extractable (FileTransfer.encryptionKey transfer) = true ->
        File.size (FileTransfer.file transfer) = fileSize ->
        exists m k,
          Spec.sentMessages (sendFileChunks transferId sendDataFunction amb st).1.2
          = transfer_start m
              :: map (chunkMessage amb transferId (FileTransfer.file transfer)
                        (FileTransfer.encryptionKey transfer) totalChunks) (seq 0 k)
          /\ k <= totalChunks
          /\ TransferStart.fileSize m = fileSize
          /\ TransferStart.totalChunks m = totalChunks)
  /\ (forall now peerId (data : TransferStart.t) h (st : FileTransferService.t) key,
        importKey (TransferStart.encryptionKey data) = Ok key ->
        TransferStart.fileSize data = fileSize ->
        let r := length (heap st) in
        let st1 := App.onTransferStart now peerId data h st in
        exists transfer,
          heap st1 !! r = Some transfer
          /\ FileTransfer.encryptionKey transfer = key
          /\ forall now' (message : FileChunk.t) chunkData,
               FileChunk.transferId message = TransferStart.transferId data ->
               Spec.carries transfer message chunkData ->
               exists transfer',
                 heap (handleIncomingChunk now' message st1).1 !! r = Some transfer'
                 /\ FileTransfer.progress transfer'
                    = Spec.signed_percent totalChunks
                        (FileChunk.chunkIndex message + 1)).
Proof.
  intros totalChunks. pose proof CHUNK_SIZE_pos as Hpos.
  split; [|split].
  - destruct (Math_ceil_div_spec fileSize CHUNK_SIZE Hpos) as [Hup Hleast].
    split; [exact Hup|]. split; [exact Hleast|]. now apply Math_ceil_div_zero.
  - intros transferId sendDataFunction amb st r transfer Hr Ht Hex Hsize.
    destruct (sendFileChunks_messages transferId sendDataFunction amb st r transfer
                Hr Ht Hex) as (m & k & Hk & Hm & _ & _ & Hfs & HT).
    rewrite Hsize in Hk, Hm, Hfs, HT. fold totalChunks in Hk, Hm, HT.
    now exists m, k.
  - intros now peerId data h st key Hkey Hsize r st1.
    destruct (onTransferStart_registers now peerId data h st key Hkey)
      as (transfer & Ht & Hr & Hsz & Hk & _).
    fold r st1 in Ht, Hr. exists transfer. split; [exact Ht|]. split; [exact Hk|].
    intros now' message chunkData Hid Hcarries.
    rewrite <- Hid in Hr.
    destruct (handleIncomingChunk_progress now' message st1 r transfer chunkData
                Hr Ht Hcarries) as (transfer' & Ht' & Hp & _).
    exists transfer'. split; [exact Ht'|]. rewrite Hp, Hsz, Hsize. reflexivity.
Qed.

Lemma totalChunks_agree_witness :
  exists m k,
    Spec.sentMessages
      (@sendFileChunks Demo.toyCrypto "t1" Demo.accept (Demo.ambient Spec.quiet)
         Demo.sender).1.2
    = transfer_start m
        :: map (@chunkMessage Demo.toyCrypto (Demo.ambient Spec.quiet) "t1"
                  Demo.report (generateKey Demo.zeros) 3) (seq 0 k)
    /\ TransferStart.totalChunks m = 3.
Proof.
  destruct (@totalChunks_agree Demo.toyCrypto (9 * 1000)) as (_ & Hsender & _).
  destruct (Hsender "t1"%string Demo.accept (Demo.ambient Spec.quiet) Demo.sender 0
              Demo.reportTransfer eq_refl eq_refl eq_refl eq_refl)
    as (m & k & Hm & _ & _ & HT).
  exists m, k. split; [exact Hm|exact HT].
Defined.

(** For an empty file the sender announces 0 chunks, sends the
    'transfer-start' and no chunk at all, and reports completion. *)
Lemma totalChunks_agree_counterexample :
  Math_ceil_div 0 CHUNK_SIZE = 0
  /\ Spec.sentMessages
       (@sendFileChunks Demo.toyCrypto "t0" Demo.accept (Demo.ambient Spec.quiet)
          Demo.senderOfEmpty).1.2
     = [Spec.metadata "t0" Demo.emptyTransfer]
  /\ (exists m, Spec.metadata "t0" Demo.emptyTransfer = transfer_start m
                /\ TransferStart.totalChunks m = 0)
  /\ Spec.statusOf 0
       (@sendFileChunks Demo.toyCrypto "t0" Demo.accept (Demo.ambient Spec.quiet)
          Demo.senderOfEmpty).1.1 = Some completed.
Proof.
  split; [reflexivity|]. split; [vm_compute; reflexivity|].
  split; [eexists; split; reflexivity|]. vm_compute. reflexivity.
Qed.

(** C6.  [cancelTransfer] marks the transfer 'failed' and takes it and its
    callbacks out of the registry, but the chunks received for it so far
    stay in [receivedChunks]: the chunk buffer is as observable after the
    call as it was before. *)
Theorem cancelTransfer_leaves_chunk_buffer transferId
    (st : FileTransferService.t) r (transfer : FileTransfer.t) chunks :
  JSMap.get transferId (activeTransfers st) = Some r ->
  heap st !! r = Some transfer ->
  JSMap.get transferId (receivedChunks st) = Some chunks ->
  getTransfer transferId (cancelTransfer transferId st) = None
  /\ JSMap.get transferId (transferCallbacks (cancelTransfer transferId st)) = None
  /\ Spec.statusOf r (cancelTransfer transferId st) = Some failed
  /\ JSMap.get transferId (receivedChunks (cancelTransfer transferId st))
     = Some chunks.
Proof.
  intros Hr Ht Hchunks.
  destruct (cancelTransfer_unregisters transferId st r Hr) as (Hgone & Hcb & Hfailed).
  split; [|split; [|split]].
  - unfold getTransfer. now rewrite Hgone.
  - exact Hcb.
  - apply Hfailed. eauto.
  - now rewrite cancelTransfer_receivedChunks.
Qed.

Lemma cancelTransfer_leaves_chunk_buffer_witness :
  Spec.statusOf 0 Demo.receivedOne = Some transferring
  /\ getTransfer "t1" (cancelTransfer "t1" Demo.receivedOne) = None
  /\ JSMap.get "t1" (receivedChunks (cancelTransfer "t1" Demo.receivedOne))
     = Some [Some Demo.hi].
Proof.
  destruct (cancelTransfer_leaves_chunk_buffer "t1" Demo.receivedOne 0
              (Spec.receivedSnapshot 5000 (Demo.incomingTransfer "t1") 0%Z)
              [Some Demo.hi] eq_refl eq_refl eq_refl)
    as (Hgone & _ & _ & Hbuffer).
  split; [reflexivity|]. split; [exact Hgone|exact Hbuffer].
Defined.

End ReceiverClaims.

(** ** One transfer from end to end *)

Section EndToEnd.
Import FileTransferService.

(** The receiver of the messages of an undisturbed run downloads the file
    that was sent, once, and ends 'completed' with an empty chunk buffer. *)
Example report_arrives :
  let run :=
    @sendFileChunks Demo.toyCrypto "t1" Demo.accept (Demo.ambient Spec.quiet)
      Demo.sender in
  let received := Demo.deliver (Spec.sentMessages run.1.2) in
  Demo.downloads received.2 = [(File.content Demo.report, "report.bin"%string)]
  /\ Spec.statusOf 0 received.1 = Some completed
  /\ receivedChunks received.1 = [].
Proof. vm_compute. repeat split. Qed.

End EndToEnd.

(** * Further properties of the services *)

(** ** The chunks of a file *)

Section Windows.
Import EncryptionService FileTransferService.

Lemma take_beyond {A} (l : list A) k :
  take (Nat.min k (length l)) l = take k l.
Proof.
  destruct (Nat.le_gt_cases k (length l)) as [Hle|Hgt].
  - now rewrite Nat.min_l.
  - rewrite Nat.min_r by lia. now rewrite !take_ge by lia.
Qed.

Lemma concat_slices {A} (l : list A) c n :
  concat (map (fun i =>
                 take (Nat.min (i * c + c) (length l) - i * c) (drop (i * c) l))
              (seq 0 n))
  = take (n * c) l.
Proof.
  induction n as [|n IH].
  - reflexivity.
  - rewrite seq_S, map_app, concat_app, IH. cbn [map concat Nat.add].
    rewrite app_nil_r, take_take_drop.
    destruct (Nat.le_gt_cases (n * c) (length l)) as [Hle|Hgt].
    + replace (n * c + (Nat.min (n * c + c) (length l) - n * c))
        with (Nat.min (S n * c) (length l)) by lia.
      apply take_beyond.
    + now rewrite !take_ge by lia.
Qed.

Lemma windows_lookup (file : File.t) i :
  i < Math_ceil_div (File.size file) CHUNK_SIZE ->
  Spec.windows file !! i
  = Some (readFileChunk file (i * CHUNK_SIZE)
            (Nat.min (i * CHUNK_SIZE + CHUNK_SIZE) (File.size file))).
Proof.
  intros Hi. unfold Spec.windows.
  rewrite list_lookup_fmap, lookup_seq_lt by exact Hi. reflexivity.
Qed.

Lemma windows_length (file : File.t) :
  length (Spec.windows file) = Math_ceil_div (File.size file) CHUNK_SIZE.
Proof. unfold Spec.windows. now rewrite length_map, length_seq. Qed.

Lemma windows_concat (file : File.t) :
  File.size file = length (File.content file) ->
  concat (Spec.windows file) = File.content file.
Proof.
  intros Hsize. unfold Spec.windows, readFileChunk, File.slice. rewrite Hsize.
  rewrite concat_slices. apply take_ge.
  destruct (Math_ceil_div_spec (File.size file) CHUNK_SIZE CHUNK_SIZE_pos) as [Hup _].
  rewrite <- Hsize. exact Hup.
Qed.

(** X1.  The chunks that the sender reads cover the file: put one after
    the other in index order they are the content of the file, byte for
    byte.  There are [ceil(size / CHUNK_SIZE)] of them; every chunk but
    the last has exactly [CHUNK_SIZE] bytes, and the last one has what is
    left, at least one byte and at most [CHUNK_SIZE]. *)
Theorem chunks_cover_the_file (file : File.t) :
  File.size file = length (File.content file) ->
  let totalChunks := Math_ceil_div (File.size file) CHUNK_SIZE in
  concat (Spec.windows file) = File.content file
  /\ length (Spec.windows file) = totalChunks
  /\ forall i, i < totalChunks ->
       exists chunkData,
         Spec.windows file !! i = Some chunkData
         /\ chunkData
            = readFileChunk file (i * CHUNK_SIZE)
                (Nat.min (i * CHUNK_SIZE + CHUNK_SIZE) (File.size file))
         /\ (i < totalChunks - 1 -> length chunkData = CHUNK_SIZE)
         /\ (i = totalChunks - 1 ->
             length chunkData = File.size file - i * CHUNK_SIZE
             /\ 0 < length chunkData <= CHUNK_SIZE).
Proof.
  intros Hsize totalChunks.
  split; [now apply windows_concat|]. split; [apply windows_length|].
  intros i Hi. eexists. split; [now apply windows_lookup|]. split; [reflexivity|].
  pose proof CHUNK_SIZE_pos as Hpos.
  destruct (Math_ceil_div_spec (File.size file) CHUNK_SIZE Hpos) as [Hup Hleast].
  fold totalChunks in Hup, Hleast.
  assert (Hlen : length (readFileChunk file (i * CHUNK_SIZE)
                           (Nat.min (i * CHUNK_SIZE + CHUNK_SIZE) (File.size file)))
                 = Nat.min (i * CHUNK_SIZE + CHUNK_SIZE) (File.size file)
                   - i * CHUNK_SIZE).
  { unfold readFileChunk, File.slice. rewrite length_take, length_drop. lia. }
  rewrite Hlen.
  assert (Hlo : i * CHUNK_SIZE < File.size file).
  { destruct (Nat.le_gt_cases (File.size file) (i * CHUNK_SIZE)) as [Hle|]; [|assumption].
    specialize (Hleast i Hle). lia. }
  split.
  - intros Hnotlast.
    assert (Hnext : (i + 1) * CHUNK_SIZE < File.size file).
    { destruct (Nat.le_gt_cases (File.size file) ((i + 1) * CHUNK_SIZE)) as [Hle|];
        [|assumption].
      specialize (Hleast (i + 1) Hle). lia. }
    lia.
  - intros Hlast.
    assert (Hend : File.size file <= i * CHUNK_SIZE + CHUNK_SIZE).
    { replace (i * CHUNK_SIZE + CHUNK_SIZE) with (totalChunks * CHUNK_SIZE); [exact Hup|].
      replace totalChunks with (S i) by lia. lia. }
    lia.
Qed.

Lemma chunks_cover_the_file_witness :
  let totalChunks := Math_ceil_div (File.size Demo.report) CHUNK_SIZE in
  concat (Spec.windows Demo.report) = File.content Demo.report
  /\ length (Spec.windows Demo.report) = totalChunks
  /\ forall i, i < totalChunks ->
       exists chunkData,
         Spec.windows Demo.report !! i = Some chunkData
         /\ chunkData
            = readFileChunk Demo.report (i * CHUNK_SIZE)
                (Nat.min (i * CHUNK_SIZE + CHUNK_SIZE) (File.size Demo.report))
         /\ (i < totalChunks - 1 -> length chunkData = CHUNK_SIZE)
         /\ (i = totalChunks - 1 ->
             length chunkData = File.size Demo.report - i * CHUNK_SIZE
             /\ 0 < length chunkData <= CHUNK_SIZE).
Proof. apply (chunks_cover_the_file Demo.report). vm_compute. reflexivity. Defined.

End Windows.

(** ** From the sender to the receiver *)

Section Wire.
Import EncryptionService FileTransferService.
Context `{WebCryptoCorrect}.

Lemma verifyChecksum_own (data : list byte) :
  verifyChecksum data (generateChecksum data) = true.
Proof. unfold verifyChecksum. apply String.eqb_refl. Qed.

Lemma chunkMessage_carries (amb : Ambient) transferId (file : File.t) key
    totalChunks i (transfer : FileTransfer.t) :
  keyData (FileTransfer.encryptionKey transfer) = keyData key ->
  exists message,
    chunkMessage amb transferId file key totalChunks i = file_chunk message
    /\ FileChunk.transferId message = transferId
    /\ FileChunk.chunkIndex message = Z.of_nat i
    /\ FileChunk.isLastChunk message = (i =? totalChunks - 1)
    /\ Spec.carries transfer message
         (readFileChunk file (i * CHUNK_SIZE)
            (Nat.min (i * CHUNK_SIZE + CHUNK_SIZE) (File.size file))).
Proof.
  intros Hkey. unfold chunkMessage, encrypt. eexists.
  split; [reflexivity|]. cbn [FileChunk.transferId FileChunk.chunkIndex
                                FileChunk.isLastChunk].
  split; [reflexivity|]. split; [reflexivity|]. split; [reflexivity|].
  unfold Spec.carries.
  cbn [FileChunk.encryptedData FileChunk.iv FileChunk.checksum].
  eexists _, _. rewrite !atob_btoa.
  split; [reflexivity|]. split; [reflexivity|]. split.
  - unfold decrypt. now rewrite Hkey, aes_gcm_decrypt_encrypt.
  - apply verifyChecksum_own.
Qed.

(** X2.  What the sender frames, the receiver can read: the 'file-chunk'
    message for index [i] names the transfer and the index, is flagged as
    last exactly at [totalChunks - 1], and at a receiver whose key has the
    same key bytes it decodes from base64, decrypts and passes the
    checksum test, giving the bytes that the sender read from the file. *)
Theorem chunk_survives_the_wire (amb : Ambient) transferId (file : File.t) key
    totalChunks i (transfer : FileTransfer.t) :
  keyData (FileTransfer.encryptionKey transfer) = keyData key ->
  exists message,
    chunkMessage amb transferId file key totalChunks i = file_chunk message
    /\ FileChunk.transferId message = transferId
    /\ FileChunk.chunkIndex message = Z.of_nat i
    /\ FileChunk.isLastChunk message = (i =? totalChunks - 1)
    /\ Spec.carries transfer message
         (readFileChunk file (i * CHUNK_SIZE)
            (Nat.min (i * CHUNK_SIZE + CHUNK_SIZE) (File.size file))).
Proof. apply chunkMessage_carries. Qed.

End Wire.

Lemma chunk_survives_the_wire_witness :
  exists message,
    @FileTransferService.chunkMessage Demo.toyCrypto (Demo.ambient Spec.quiet)
      "t1" Demo.report
      (EncryptionService.generateKey Demo.zeros) 3 2
    = file_chunk message
    /\ FileChunk.transferId message = "t1"%string
    /\ FileChunk.chunkIndex message = 2%Z
    /\ FileChunk.isLastChunk message = (2 =? 3 - 1)
    /\ @Spec.carries Demo.toyCrypto (Demo.incomingTransfer "t1") message
         (FileTransferService.readFileChunk Demo.report
            (2 * FileTransferService.CHUNK_SIZE)
            (Nat.min (2 * FileTransferService.CHUNK_SIZE
                      + FileTransferService.CHUNK_SIZE)
               (File.size Demo.report))).
Proof.
  apply (@chunk_survives_the_wire Demo.toyCrypto toyCrypto_correct
           (Demo.ambient Spec.quiet) "t1" Demo.report
           (EncryptionService.generateKey Demo.zeros) 3 2
           (Demo.incomingTransfer "t1")).
  reflexivity.
Defined.

Section Arrival.
Import EncryptionService FileTransferService.
Context `{WebCryptoCorrect}.
Variable amb : Ambient.
Variable transferId : string.
Variable file : File.t.
Variable key : CryptoKey.
Variable clock : nat -> Z.
Variable peerId : string.
Variable h : handle.
Variable r : ref.

Let totalChunks := Math_ceil_div (File.size file) CHUNK_SIZE.

(** The receiver holds the transfer with the key and the size of the
    sender, and the first [k] chunks of the file. *)
Let ready (k : nat) (st : FileTransferService.t) : Prop :=
  JSMap.get transferId (activeTransfers st) = Some r
  /\ JSMap.get transferId (transferCallbacks st) = Some h
  /\ (exists transfer,
         heap st !! r = Some transfer
         /\ keyData (FileTransfer.encryptionKey transfer) = keyData key
         /\ File.size (FileTransfer.file transfer) = File.size file
         /\ File.name (FileTransfer.file transfer) = File.name file)
  /\ match JSMap.get transferId (receivedChunks st) with
     | Some chunks => chunks
     | None => []
     end = map Some (take k (Spec.windows file)).

Lemma array_set_next {A} (value : A) chunks :
  array_set (length chunks) value chunks = chunks ++ [Some value].
Proof. unfold array_set. now rewrite Nat.ltb_irrefl, Nat.sub_diag. Qed.

Lemma forallb_present_map (chunks : list (list byte)) :
  forallb (fun c : option (list byte) => bool_decide (is_Some c)) (map Some chunks)
  = true.
Proof.
  induction chunks as [|c chunks IH]; [reflexivity|].
  cbn [map forallb]. rewrite IH. now rewrite bool_decide_eq_true_2 by eauto.
Qed.

Lemma concatenation_map (chunks : list (list byte)) :
  Spec.concatenation (map Some chunks) = concat chunks.
Proof.
  induction chunks as [|c chunks IH]; [reflexivity|].
  cbn [map]. rewrite concatenation_cons_Some, IH. reflexivity.
Qed.

Lemma downloaded_app tr1 tr2 :
  Spec.downloaded (tr1 ++ tr2) = Spec.downloaded tr1 ++ Spec.downloaded tr2.
Proof. unfold Spec.downloaded. apply omap_app. Qed.

Lemma reportedErrors_app tr1 tr2 :
  Spec.reportedErrors (tr1 ++ tr2)
  = Spec.reportedErrors tr1 ++ Spec.reportedErrors tr2.
Proof. unfold Spec.reportedErrors. apply omap_app. Qed.

Lemma ready_buffer k st (data : list byte) :
  ready k st ->
  Spec.windows file !! k = Some data ->
  Spec.bufferWith transferId (Z.of_nat k) data st
  = map Some (take (S k) (Spec.windows file)).
Proof.
  intros (_ & _ & _ & Hbuf) Hk. rewrite bufferWith_of_nat. rewrite Hbuf.
  rewrite (take_S_r _ _ _ Hk), map_app. cbn [map].
  rewrite <- array_set_next. f_equal.
  rewrite length_map, length_take. apply lookup_lt_Some in Hk. lia.
Qed.

Lemma received_chunks d :
  forall k n st,
    k + S d = totalChunks ->
    ready k st ->
    let arrival :=
      Spec.received clock peerId h n
        (map (chunkMessage amb transferId file key totalChunks) (seq k (S d))) st in
    Spec.downloaded arrival.2 = [(concat (Spec.windows file), File.name file)]
    /\ Spec.reportedErrors arrival.2 = []
    /\ Spec.statusOf r arrival.1 = Some completed
    /\ JSMap.get transferId (activeTransfers arrival.1) = Some r
    /\ JSMap.get transferId (receivedChunks arrival.1) = None.
Proof.
  induction d as [|d IH]; intros k n st Hk Hready.
  - destruct Hready as (Hr & Hcb & (transfer & Ht & Hkey & Hsize & Hname) & Hbuf).
    destruct (chunkMessage_carries amb transferId file key totalChunks k transfer Hkey)
      as (message & Hm & Hid & Hidx & Hlast & Hcarries).
    assert (Hw : Spec.windows file !! k
                 = Some (readFileChunk file (k * CHUNK_SIZE)
                           (Nat.min (k * CHUNK_SIZE + CHUNK_SIZE) (File.size file)))).
    { apply windows_lookup. fold totalChunks. lia. }
    pose proof (ready_buffer k st _
                  (conj Hr (conj Hcb (conj (ex_intro _ transfer
                     (conj Ht (conj Hkey (conj Hsize Hname)))) Hbuf))) Hw) as Hbuffer.
    replace (k =? totalChunks - 1) with true in Hlast
      by (symmetry; apply Nat.eqb_eq; lia).
    rewrite <- Hid in Hr, Hcb.
    destruct (handleIncomingChunk_final (clock n) message st r h transfer _
                Hr Ht Hcb Hcarries Hlast) as (st' & Hst' & Hcases).
    rewrite Hid, Hidx, Hbuffer, forallb_present_map in Hcases.
    destruct Hcases as (Hevs & Hstatus & Hgone).
    cbn [seq map]. rewrite Hm. cbn [Spec.received App.onData].
    pose proof (handleIncomingChunk_registered (clock n) message st r Hr) as Hact.
    destruct (handleIncomingChunk (clock n) message st) as [st1 evs1].
    cbn [fst snd] in *. subst st1 evs1. rewrite app_nil_r.
    split.
    { cbn. rewrite concatenation_map, Hname.
      rewrite take_ge by (rewrite windows_length; fold totalChunks; lia).
      reflexivity. }
    split; [reflexivity|]. split; [exact Hstatus|].
    split; [rewrite Hact, <- Hid; exact Hr|exact Hgone].
  - pose proof Hready as Hready0.
    destruct Hready as (Hr & Hcb & (transfer & Ht & Hkey & Hsize & Hname) & Hbuf).
    destruct (chunkMessage_carries amb transferId file key totalChunks k transfer Hkey)
      as (message & Hm & Hid & Hidx & Hlast & Hcarries).
    assert (Hw : Spec.windows file !! k
                 = Some (readFileChunk file (k * CHUNK_SIZE)
                           (Nat.min (k * CHUNK_SIZE + CHUNK_SIZE) (File.size file)))).
    { apply windows_lookup. fold totalChunks. lia. }
    pose proof (ready_buffer k st _ Hready0 Hw) as Hbuffer.
    replace (k =? totalChunks - 1) with false in Hlast
      by (symmetry; apply Nat.eqb_neq; lia).
    rewrite <- Hid in Hcb.
    destruct (processChunk_carries (clock n) message r h st transfer _ Ht Hcb Hcarries)
      as (st2 & Ht2 & Hact2 & Hcb2 & Hbuf2 & Hrun).
    cbv zeta in Hrun. rewrite Hlast in Hrun.
    rewrite Hid, Hidx in Hbuf2. rewrite Hbuffer in Hbuf2.
    assert (Hready2 : ready (S k) st2).
    { split; [now rewrite Hact2|]. split; [now rewrite Hcb2, <- Hid|].
      split; [|now rewrite Hbuf2].
      eexists. split; [exact Ht2|]. now repeat split. }
    change (seq k (S (S d))) with (k :: seq (S k) (S d)).
    cbn [map]. rewrite Hm. cbn [Spec.received App.onData].
    unfold handleIncomingChunk. rewrite Hid, Hr, Hrun.
    specialize (IH (S k) (S n) st2 ltac:(lia) Hready2). cbv zeta in IH.
    destruct (Spec.received clock peerId h (S n) _ st2) as [st3 evs3].
    cbn [fst snd] in *. exact IH.
Qed.

Lemma array_set_lookup_ne {A} i j (value : A) chunks :
  j <> i -> j < length chunks -> array_set i value chunks !! j = chunks !! j.
Proof.
  intros Hne Hj. unfold array_set. destruct (Nat.ltb_spec i (length chunks)).
  - now apply list_lookup_insert_ne.
  - now apply lookup_app_l.
Qed.


(** The receiver holds the transfer with the key and the size of the
    sender, and at least the chunks with an index in [got], none of them
    the last one. *)
Let holding (got : list nat) (st : FileTransferService.t) : Prop :=
  JSMap.get transferId (activeTransfers st) = Some r
  /\ JSMap.get transferId (transferCallbacks st) = Some h
  /\ (exists transfer,
         heap st !! r = Some transfer
         /\ keyData (FileTransfer.encryptionKey transfer) = keyData key
         /\ File.size (FileTransfer.file transfer) = File.size file
         /\ File.name (FileTransfer.file transfer) = File.name file
         /\ FileTransfer.status transfer = transferring)
  /\ length match JSMap.get transferId (receivedChunks st) with
             | Some chunks => chunks
             | None => []
             end <= totalChunks - 1
  /\ forall j, In j got ->
       match JSMap.get transferId (receivedChunks st) with
       | Some chunks => chunks
       | None => []
       end !! j
       = Some (Some (readFileChunk file (j * CHUNK_SIZE)
                       (Nat.min (j * CHUNK_SIZE + CHUNK_SIZE) (File.size file)))).

Lemma received_unordered order :
  forall got n st,
    holding got st ->
    Forall (fun i => i < totalChunks - 1) order ->
    exists st' evs,
      Spec.received clock peerId h n
        (map (chunkMessage amb transferId file key totalChunks) order) st
      = (st', evs)
      /\ holding (got ++ order) st'
      /\ Spec.downloaded evs = []
      /\ Spec.reportedErrors evs = [].
Proof.
  induction order as [|i order IH]; intros got n st Hhold Hall.
  { exists st, []. rewrite app_nil_r. split; [reflexivity|]. split; [exact Hhold|].
    now split. }
  inversion Hall as [|? ? Hi Hall']; subst.
  destruct Hhold
    as (Hr & Hcb & (transfer & Ht & Hkey & Hsize & Hname & Hstatus) & Hlen & Hgot).
  destruct (chunkMessage_carries amb transferId file key totalChunks i transfer Hkey)
    as (message & Hm & Hid & Hidx & Hlast & Hcarries).
  replace (i =? totalChunks - 1) with false in Hlast
    by (symmetry; apply Nat.eqb_neq; lia).
  rewrite <- Hid in Hcb.
  destruct (processChunk_carries (clock n) message r h st transfer _ Ht Hcb Hcarries)
    as (st2 & Ht2 & Hact2 & Hcb2 & Hbuf2 & Hrun).
  cbv zeta in Hrun. rewrite Hlast in Hrun. rewrite Hid, Hidx in Hbuf2.
  assert (Hhold2 : holding (got ++ [i]) st2).
  { split; [now rewrite Hact2|]. split; [now rewrite Hcb2, <- Hid|].
    split; [eexists; split; [exact Ht2|now repeat split]|].
    rewrite Hbuf2, bufferWith_of_nat. split.
    - rewrite array_set_length. lia.
    - intros j Hj. apply in_app_or in Hj. destruct Hj as [Hj|[<-|[]]].
      + destruct (decide (j = i)) as [->|Hne]; [apply array_set_lookup|].
        specialize (Hgot j Hj). rewrite array_set_lookup_ne; [exact Hgot|exact Hne|].
        now apply lookup_lt_Some in Hgot.
      + apply array_set_lookup. }
  destruct (IH (got ++ [i]) (S n) st2 Hhold2 Hall') as (st' & evs & Hrest & Hhold' & Hd & He).
  cbn [map Spec.received App.onData]. rewrite Hm. cbn [Spec.received App.onData].
  unfold handleIncomingChunk. rewrite Hid, Hr, Hrun, Hrest.
  eexists _, _. split; [reflexivity|].
  split; [now rewrite <- app_assoc in Hhold'|].
  rewrite downloaded_app, reportedErrors_app, Hd, He. now split.
Qed.



Lemma sentMessages_chunks (f : nat -> Message) (g : nat -> FileTransfer.t) h0 l :
  Spec.sentMessages
    (flat_map (fun i => [Send (f i) true; OnProgress h0 (g i)]) l)
  = map f l.
Proof.
  induction l as [|i l IH]; [reflexivity|].
  cbn [flat_map map app]. rewrite sentMessages_send. f_equal. exact IH.
Qed.

End Arrival.

Section Accepted.
Import EncryptionService FileTransferService.
Context `{WebCrypto}.

Lemma acceptedMessages_app tr1 tr2 :
  Spec.acceptedMessages (tr1 ++ tr2)
  = Spec.acceptedMessages tr1 ++ Spec.acceptedMessages tr2.
Proof. unfold Spec.acceptedMessages. apply omap_app. Qed.

Lemma acceptedMessages_callback_progress transferId r (st : FileTransferService.t) :
  Spec.acceptedMessages (callback OnProgress transferId r st) = [].
Proof.
  unfold callback. destruct (JSMap.get transferId (transferCallbacks st));
    [destruct (heap st !! r)|]; reflexivity.
Qed.

Lemma acceptedMessages_callback_complete transferId r (st : FileTransferService.t) :
  Spec.acceptedMessages (callback OnComplete transferId r st) = [].
Proof.
  unfold callback. destruct (JSMap.get transferId (transferCallbacks st));
    [destruct (heap st !! r)|]; reflexivity.
Qed.

Lemma acceptedMessages_handleTransferError transferId error
    (st : FileTransferService.t) :
  Spec.acceptedMessages (handleTransferError transferId error st).2 = [].
Proof.
  unfold handleTransferError.
  destruct (JSMap.get transferId (activeTransfers st)) as [r|]; [|reflexivity].
  cbn [snd]. unfold callback.
  destruct (JSMap.get transferId (transferCallbacks _)); [|reflexivity].
  now destruct (heap _ !! r).
Qed.

Lemma acceptedMessages_sendLoop sendDataFunction (amb : Ambient) transferId r file key
    totalChunks remaining :
  forall i sentChunks st,
    exists k,
      k <= remaining
      /\ Spec.acceptedMessages
           (sendLoop sendDataFunction amb transferId r file key totalChunks
              remaining i sentChunks st).1.2
         = map (chunkMessage amb transferId file key totalChunks) (seq i k).
Proof.
  induction remaining as [|remaining IH]; intros i sentChunks st.
  { exists 0. split; [lia|reflexivity]. }
  cbn [sendLoop]. destruct (status_is paused r st).
  { exists 0. split; [lia|reflexivity]. }
  destruct (sendDataFunction _) eqn:Hsend; cbn [negb].
  - match goal with
    | |- context [sendLoop _ _ _ _ _ _ _ remaining (S i) ?s ?st0] =>
        destruct (IH (S i) s st0) as (k & Hk & Hm);
        destruct (sendLoop sendDataFunction amb transferId r file key totalChunks
                    remaining (S i) s st0) as [[st2 evs2] fin]
    end.
    exists (S k). split; [lia|]. cbn [fst snd] in *.
    change (Spec.acceptedMessages (Send ?m true :: ?tr))
      with (m :: Spec.acceptedMessages tr).
    rewrite acceptedMessages_app, acceptedMessages_callback_progress, Hm.
    reflexivity.
  - match goal with
    | |- context [handleTransferError ?a ?b ?c] =>
        pose proof (acceptedMessages_handleTransferError a b c) as He;
        destruct (handleTransferError a b c) as [st1 evs1]
    end.
    exists 0. split; [lia|]. cbn [fst snd] in *.
    change (Spec.acceptedMessages (Send ?m false :: ?tr))
      with (Spec.acceptedMessages tr).
    exact He.
Qed.

(** What reaches the other peer from a run of the sender: nothing, or the
    'transfer-start' and the chunks up to some index. *)
Lemma acceptedMessages_sendFileChunks transferId sendDataFunction (amb : Ambient)
    (st : FileTransferService.t) r (transfer : FileTransfer.t) :
  JSMap.get transferId (activeTransfers st) = Some r ->
  heap st !! r = Some transfer ->
  extractable (FileTransfer.encryptionKey transfer) = true ->
  let file := FileTransfer.file transfer in
  let totalChunks := Math_ceil_div (File.size file) CHUNK_SIZE in
  let accepted :=
    Spec.acceptedMessages (sendFileChunks transferId sendDataFunction amb st).1.2 in
  accepted = []
  \/ exists checksum k,
       k <= totalChunks
       /\ accepted
          = Spec.withChecksum checksum (Spec.metadata transferId transfer)
              :: map (chunkMessage amb transferId file
                        (FileTransfer.encryptionKey transfer) totalChunks) (seq 0 k).
Proof.
  intros Hr Ht Hex file totalChunks accepted. subst accepted.
  unfold sendFileChunks. rewrite Hr, Ht. unfold exportKey. rewrite Hex.
  fold file. fold totalChunks.
  destruct (sendDataFunction (transfer_start _)) eqn:Hsend; cbn [negb].
  - right.
    match goal with
    | |- context [sendLoop ?f ?a ?t ?r0 ?fl ?k ?T ?n ?i ?s ?st0] =>
        destruct (acceptedMessages_sendLoop f a t r0 fl k T n i s st0) as (k' & Hk & Hm);
        destruct (sendLoop f a t r0 fl k T n i s st0) as [[st2 evs2] fin]
    end.
    cbn [fst snd] in Hm. eexists _, k'. split; [exact Hk|].
    destruct (fin && status_is transferring r st2); cbn [fst snd];
      change (Spec.acceptedMessages (Send ?m true :: ?tr))
        with (m :: Spec.acceptedMessages tr);
      [rewrite acceptedMessages_app, acceptedMessages_callback_complete, app_nil_r|];
      rewrite Hm; reflexivity.
  - left.
    match goal with
    | |- context [handleTransferError ?a ?b ?c] =>
        pose proof (acceptedMessages_handleTransferError a b c) as He;
        destruct (handleTransferError a b c) as [st1 evs1]
    end.
    cbn [fst snd] in *. exact He.
Qed.

End Accepted.

Section Delivery.
Import EncryptionService FileTransferService.
Context `{WebCryptoCorrect}.

Lemma importKey_generated (random : nat -> byte) :
  importKey (Base64.btoa (keyData (generateKey random))) = Ok (generateKey random).
Proof. exact (importKey_exportKey random). Qed.

(** The receiver after the 'transfer-start' of a transfer whose key was
    generated by [startFileTransfer], whatever checksum it announces. *)
Lemma onData_metadata transferId (transfer : FileTransfer.t) random now peerId h
    (receiver : FileTransferService.t) checksum :
  FileTransfer.encryptionKey transfer = generateKey random ->
  let file := FileTransfer.file transfer in
  let r := length (heap receiver) in
  exists st1 incoming,
    App.onData now peerId
      (Spec.withChecksum checksum (Spec.metadata transferId transfer)) h receiver
    = (st1, [])
    /\ JSMap.get transferId (activeTransfers st1) = Some r
    /\ JSMap.get transferId (transferCallbacks st1) = Some h
    /\ heap st1 !! r = Some incoming
    /\ FileTransfer.encryptionKey incoming = generateKey random
    /\ File.size (FileTransfer.file incoming) = File.size file
    /\ File.name (FileTransfer.file incoming) = File.name file
    /\ FileTransfer.status incoming = transferring
    /\ FileTransfer.progress incoming = Num 0
    /\ receivedChunks st1 = receivedChunks receiver.
Proof.
  intros Hkey file r.
  unfold Spec.metadata, Spec.withChecksum, App.onData, App.onTransferStart.
  cbn [TransferStart.encryptionKey TransferStart.transferId TransferStart.fileName
         TransferStart.fileSize TransferStart.checksum].
  rewrite Hkey, importKey_generated.
  eexists _, _. split; [reflexivity|].
  cbn [registerIncomingTransfer activeTransfers transferCallbacks heap
         receivedChunks FileTransfer.id].
  split; [apply get_set_eq|]. split; [apply get_set_eq|].
  split; [now apply list_lookup_middle|]. now repeat split.
Qed.

Lemma sendFileChunks_sends_all transferId (amb : Ambient)
    (sender : FileTransferService.t) r h (transfer : FileTransfer.t) random :
  JSMap.get transferId (activeTransfers sender) = Some r ->
  heap sender !! r = Some transfer ->
  JSMap.get transferId (transferCallbacks sender) = Some h ->
  FileTransfer.encryptionKey transfer = generateKey random ->
  Spec.undisturbed transferId r (interleaved amb) ->
  let file := FileTransfer.file transfer in
  Spec.sentMessages (sendFileChunks transferId (fun _ => true) amb sender).1.2
  = Spec.metadata transferId transfer
      :: map (chunkMessage amb transferId file (FileTransfer.encryptionKey transfer)
                (Math_ceil_div (File.size file) CHUNK_SIZE))
           (seq 0 (Math_ceil_div (File.size file) CHUNK_SIZE)).
Proof.
  intros Hr Ht Hcb Hkey Hquiet file.
  assert (Hex : extractable (FileTransfer.encryptionKey transfer) = true)
    by now rewrite Hkey.
  destruct (sendFileChunks_completes transferId (fun _ => true) amb sender r h transfer
              Hr Ht Hex Hcb Hquiet (fun _ => eq_refl)) as (st' & Hrun & _).
  rewrite Hrun. cbn [fst snd].
  rewrite sentMessages_send, sentMessages_app, sentMessages_chunks.
  cbn. now rewrite app_nil_r.
Qed.

Lemma withChecksum_chunks checksum (f : nat -> Message) l :
  (forall i, exists message, f i = file_chunk message) ->
  map (Spec.withChecksum checksum) (map f l) = map f l.
Proof.
  intros Hf. rewrite map_map. apply map_ext. intros i.
  destruct (Hf i) as [message ->]. reflexivity.
Qed.

Lemma file_arrives_whatever_checksum transferId (amb : Ambient)
    (sender : FileTransferService.t) r h (transfer : FileTransfer.t) random
    clock peerId h' (receiver : FileTransferService.t) checksum :
  JSMap.get transferId (activeTransfers sender) = Some r ->
  heap sender !! r = Some transfer ->
  JSMap.get transferId (transferCallbacks sender) = Some h ->
  FileTransfer.encryptionKey transfer = generateKey random ->
  Spec.undisturbed transferId r (interleaved amb) ->
  let file := FileTransfer.file transfer in
  File.size file = length (File.content file) ->
  0 < File.size file ->
  JSMap.get transferId (receivedChunks receiver) = None ->
  let run := sendFileChunks transferId (fun _ => true) amb sender in
  let arrival :=
    Spec.received clock peerId h' 0
      (map (Spec.withChecksum checksum) (Spec.sentMessages run.1.2)) receiver in
  Spec.downloaded arrival.2 = [(File.content file, File.name file)]
  /\ Spec.reportedErrors arrival.2 = []
  /\ (exists incoming,
         getTransfer transferId arrival.1 = Some incoming
         /\ FileTransfer.status incoming = completed)
  /\ JSMap.get transferId (receivedChunks arrival.1) = None.
Proof.
  intros Hr Ht Hcb Hkey Hquiet file Hsize Hpos Hfresh run arrival.
  subst arrival run.
  rewrite (sendFileChunks_sends_all transferId amb sender r h transfer random
             Hr Ht Hcb Hkey Hquiet).
  fold file. cbn [map].
  rewrite withChecksum_chunks by (intros i; eexists; reflexivity).
  destruct (onData_metadata transferId transfer random (clock 0) peerId h' receiver
              checksum Hkey)
    as (st1 & incoming & Hstart & Hr1 & Hcb1 & Ht1 & Hkey1 & Hsize1 & Hname1 & _ & _ & Hbuf1).
  fold file in Hsize1, Hname1.
  cbn [Spec.received]. rewrite Hstart.
  destruct (Math_ceil_div (File.size file) CHUNK_SIZE) as [|d] eqn:HT.
  { apply Math_ceil_div_zero in HT; [lia|apply CHUNK_SIZE_pos]. }
  pose proof (received_chunks amb transferId file (FileTransfer.encryptionKey transfer)
                clock peerId h' (length (heap receiver)) d 0 1 st1) as Hrest.
  rewrite HT in Hrest. specialize (Hrest eq_refl).
  cbv zeta in Hrest.
  destruct Hrest as (Hdown & Herr & Hstatus & Hreg & Hgone).
  { split; [exact Hr1|]. split; [exact Hcb1|]. split.
    - exists incoming. split; [exact Ht1|]. split; [now rewrite Hkey1, Hkey|].
      now split.
    - rewrite Hbuf1, Hfresh. reflexivity. }
  destruct (Spec.received clock peerId h' 1 _ st1) as [st2 evs2].
  cbn [fst snd app] in *.
  split; [now rewrite Hdown, windows_concat|]. split; [exact Herr|].
  split; [|exact Hgone].
  unfold getTransfer. rewrite Hreg. unfold Spec.statusOf in Hstatus.
  destruct (heap st2 !! length (heap receiver)) as [t2|]; [|discriminate].
  exists t2. split; [reflexivity|]. cbn in Hstatus. congruence.
Qed.

Lemma withChecksum_own transferId (transfer : FileTransfer.t) :
  Spec.withChecksum (FileTransfer.checksum transfer) (Spec.metadata transferId transfer)
  = Spec.metadata transferId transfer.
Proof. reflexivity. Qed.

(** X3.  A file arrives as it was sent.  The sender runs [sendFileChunks]
    on a transfer made by [startFileTransfer], the channel accepts every
    message and nothing else touches the transfer; the receiving peer
    hands the messages, in the order in which they were sent, to its
    message handler.  Then, for a file that is not empty and a receiver
    that holds no chunks under the id yet, the receiver downloads exactly
    one file, with the content and the name of the file that was sent,
    reports no error, ends with the transfer 'completed' and has
    discarded its chunk buffer. *)
Theorem file_arrives transferId (amb : Ambient) (sender : FileTransferService.t)
    r h (transfer : FileTransfer.t) random clock peerId h'
    (receiver : FileTransferService.t) :
  JSMap.get transferId (activeTransfers sender) = Some r ->
  heap sender !! r = Some transfer ->
  JSMap.get transferId (transferCallbacks sender) = Some h ->
  FileTransfer.encryptionKey transfer = generateKey random ->
  Spec.undisturbed transferId r (interleaved amb) ->
  let file := FileTransfer.file transfer in
  File.size file = length (File.content file) ->
  0 < File.size file ->
  JSMap.get transferId (receivedChunks receiver) = None ->
  let run := sendFileChunks transferId (fun _ => true) amb sender in
  let arrival :=
    Spec.received clock peerId h' 0 (Spec.sentMessages run.1.2) receiver in
  Spec.downloaded arrival.2 = [(File.content file, File.name file)]
  /\ Spec.reportedErrors arrival.2 = []
  /\ (exists incoming,
         getTransfer transferId arrival.1 = Some incoming
         /\ FileTransfer.status incoming = completed)
  /\ JSMap.get transferId (receivedChunks arrival.1) = None.
Proof.
  intros Hr Ht Hcb Hkey Hquiet file Hsize Hpos Hfresh run arrival.
  pose proof (file_arrives_whatever_checksum transferId amb sender r h transfer random
                clock peerId h' receiver (FileTransfer.checksum transfer)
                Hr Ht Hcb Hkey Hquiet Hsize Hpos Hfresh) as Hgen.
  cbv zeta in Hgen.
  rewrite (sendFileChunks_sends_all transferId amb sender r h transfer random
             Hr Ht Hcb Hkey Hquiet) in Hgen.
  cbn [map] in Hgen.
  rewrite withChecksum_own in Hgen.
  rewrite withChecksum_chunks in Hgen by (intros i; eexists; reflexivity).
  subst arrival run.
  now rewrite (sendFileChunks_sends_all transferId amb sender r h transfer random
                 Hr Ht Hcb Hkey Hquiet).
Qed.

(** X4.  The checksum of the whole file, which [startFileTransfer]
    computes and the 'transfer-start' announces, is never compared with
    anything by the receiver: whatever text stands in its place, the
    chunks are accepted, the same file is downloaded and the transfer is
    'completed'.  Only the checksum of each chunk is verified. *)
Theorem announced_checksum_is_not_verified transferId (amb : Ambient)
    (sender : FileTransferService.t) r h (transfer : FileTransfer.t) random
    clock peerId h' (receiver : FileTransferService.t) checksum :
  JSMap.get transferId (activeTransfers sender) = Some r ->
  heap sender !! r = Some transfer ->
  JSMap.get transferId (transferCallbacks sender) = Some h ->
  FileTransfer.encryptionKey transfer = generateKey random ->
  Spec.undisturbed transferId r (interleaved amb) ->
  let file := FileTransfer.file transfer in
  File.size file = length (File.content file) ->
  0 < File.size file ->
  JSMap.get transferId (receivedChunks receiver) = None ->
  let run := sendFileChunks transferId (fun _ => true) amb sender in
  let arrival :=
    Spec.received clock peerId h' 0
      (map (Spec.withChecksum checksum) (Spec.sentMessages run.1.2)) receiver in
  Spec.downloaded arrival.2 = [(File.content file, File.name file)]
  /\ Spec.reportedErrors arrival.2 = []
  /\ (exists incoming,
         getTransfer transferId arrival.1 = Some incoming
         /\ FileTransfer.status incoming = completed)
  /\ JSMap.get transferId (receivedChunks arrival.1) = None.
Proof. apply file_arrives_whatever_checksum. Qed.


(** X6.  An interrupted run delivers no file.  Whatever the channel
    accepts or refuses and whatever the other tasks do while the sender is
    suspended, what reaches the receiver is nothing at all or the
    'transfer-start' and the chunks up to some index.  As long as the
    last chunk is not among them, the receiver downloads nothing and
    reports no error, and the transfer that it registered stays
    'transferring'. *)
Theorem interrupted_run_delivers_no_file transferId sendDataFunction (amb : Ambient)
    (sender : FileTransferService.t) r (transfer : FileTransfer.t) random
    clock peerId h (receiver : FileTransferService.t) :
  JSMap.get transferId (activeTransfers sender) = Some r ->
  heap sender !! r = Some transfer ->
  FileTransfer.encryptionKey transfer = generateKey random ->
  JSMap.get transferId (receivedChunks receiver) = None ->
  let totalChunks :=
    Math_ceil_div (File.size (FileTransfer.file transfer)) CHUNK_SIZE in
  let run := sendFileChunks transferId sendDataFunction amb sender in
  let accepted := Spec.acceptedMessages run.1.2 in
  let arrival := Spec.received clock peerId h 0 accepted receiver in
  length accepted <= totalChunks ->
  Spec.downloaded arrival.2 = []
  /\ Spec.reportedErrors arrival.2 = []
  /\ (accepted = [] -> arrival.1 = receiver)
  /\ (accepted <> [] ->
      exists incoming,
        getTransfer transferId arrival.1 = Some incoming
        /\ FileTransfer.status incoming = transferring).
Proof.
  intros Hr Ht Hkey Hfresh totalChunks run accepted arrival Hshort.
  assert (Hex : extractable (FileTransfer.encryptionKey transfer) = true)
    by now rewrite Hkey.
  pose proof (acceptedMessages_sendFileChunks transferId sendDataFunction amb sender r
                transfer Hr Ht Hex) as Hshape.
  cbv zeta in Hshape. fold totalChunks in Hshape.
  subst arrival accepted run.
  destruct Hshape as [Hnone|(checksum & k & Hk & Hsome)].
  { rewrite Hnone. cbn [Spec.received fst snd].
    split; [reflexivity|]. split; [reflexivity|]. split; [reflexivity|].
    intros Hne. contradiction. }
  rewrite Hsome in Hshort |- *.
  cbn [length] in Hshort. rewrite length_map, length_seq in Hshort.
  destruct (onData_metadata transferId transfer random (clock 0) peerId h receiver
              checksum Hkey)
    as (st1 & incoming & Hstart & Hr1 & Hcb1 & Ht1 & Hkey1 & Hsize1 & Hname1 & Hst1 & _ & Hbuf1).
  cbn [Spec.received]. rewrite Hstart.
  destruct (received_unordered amb transferId (FileTransfer.file transfer)
              (FileTransfer.encryptionKey transfer) clock peerId h
              (length (heap receiver)) (seq 0 k) [] 1 st1)
    as (st2 & evs2 & Hrest & Hhold & Hd & He).
  { split; [exact Hr1|]. split; [exact Hcb1|]. split.
    - exists incoming. split; [exact Ht1|]. split; [now rewrite Hkey1, Hkey|].
      now repeat split.
    - rewrite Hbuf1, Hfresh. split; [cbn; lia|]. intros j []. }
  { apply Forall_forall. intros i Hi. apply list_elem_of_In, in_seq in Hi.
    fold totalChunks. lia. }
  fold totalChunks in Hrest. rewrite Hrest. cbn [fst snd app].
  split; [exact Hd|]. split; [exact He|]. split; [discriminate|].
  intros _. destruct Hhold as (Hr2 & _ & (transfer2 & Ht2 & _ & _ & _ & Hst2) & _).
  exists transfer2. unfold getTransfer. now rewrite Hr2.
Qed.

(** X7.  An empty file is announced and nothing more.  The number of
    chunks is 0, so the sender sends the 'transfer-start' alone and
    reports completion at once, with the progress still at its initial
    value.  The receiver completes a transfer only on a chunk flagged as
    last: it registers the transfer and stays 'transferring', without a
    callback and without a download. *)
Theorem empty_file_is_only_announced transferId (amb : Ambient)
    (sender : FileTransferService.t) r h (transfer : FileTransfer.t) random
    clock peerId h' (receiver : FileTransferService.t) :
  JSMap.get transferId (activeTransfers sender) = Some r ->
  heap sender !! r = Some transfer ->
  JSMap.get transferId (transferCallbacks sender) = Some h ->
  FileTransfer.encryptionKey transfer = generateKey random ->
  Spec.undisturbed transferId r (interleaved amb) ->
  File.size (FileTransfer.file transfer) = 0 ->
  let run := sendFileChunks transferId (fun _ => true) amb sender in
  let arrival :=
    Spec.received clock peerId h' 0 (Spec.sentMessages run.1.2) receiver in
  run.1.2
  = [Send (Spec.metadata transferId transfer) true;
     OnComplete h (FileTransfer.set_status completed transfer)]
  /\ arrival.2 = []
  /\ exists incoming,
       getTransfer transferId arrival.1 = Some incoming
       /\ FileTransfer.status incoming = transferring
       /\ FileTransfer.progress incoming = Num 0.
Proof.
  intros Hr Ht Hcb Hkey Hquiet Hsize run arrival.
  assert (Hex : extractable (FileTransfer.encryptionKey transfer) = true)
    by now rewrite Hkey.
  destruct (sendFileChunks_completes transferId (fun _ => true) amb sender r h transfer
              Hr Ht Hex Hcb Hquiet (fun _ => eq_refl)) as (st' & Hrun & _).
  subst arrival run. rewrite Hrun. cbn [fst snd]. rewrite Hsize.
  replace (Math_ceil_div 0 CHUNK_SIZE) with 0 by reflexivity.
  cbn [seq flat_map app Spec.lastSnapshot].
  split; [now destruct transfer|].
  rewrite sentMessages_send. cbn [Spec.sentMessages omap list_omap].
  destruct (onData_metadata transferId transfer random (clock 0) peerId h' receiver
              (FileTransfer.checksum transfer) Hkey)
    as (st1 & incoming & Hstart & Hr1 & _ & Ht1 & _ & _ & _ & Hst1 & Hp1 & _).
  rewrite withChecksum_own in Hstart.
  cbn [Spec.received]. rewrite Hstart. cbn [fst snd app].
  split; [reflexivity|]. exists incoming.
  unfold getTransfer. rewrite Hr1. now repeat split.
Qed.

End Delivery.

Lemma file_arrives_witness :
  let run :=
    @FileTransferService.sendFileChunks Demo.toyCrypto "t1" (fun _ => true)
      (Demo.ambient Spec.quiet) Demo.sender in
  let arrival :=
    @Spec.received Demo.toyCrypto (fun n => Z.of_nat n) "peer-a" 9 0
      (Spec.sentMessages run.1.2) FileTransferService.empty in
  Spec.downloaded arrival.2 = [(File.content Demo.report, File.name Demo.report)]
  /\ Spec.reportedErrors arrival.2 = []
  /\ (exists incoming,
         FileTransferService.getTransfer "t1" arrival.1 = Some incoming
         /\ FileTransfer.status incoming = completed)
  /\ JSMap.get "t1" (FileTransferService.receivedChunks arrival.1) = None.
Proof.
  apply (@file_arrives Demo.toyCrypto toyCrypto_correct "t1"
           (Demo.ambient Spec.quiet) Demo.sender 0 7 Demo.reportTransfer Demo.zeros
           (fun n => Z.of_nat n) "peer-a" 9 FileTransferService.empty).
  - reflexivity.
  - reflexivity.
  - reflexivity.
  - reflexivity.
  - apply quiet_undisturbed.
  - vm_compute. reflexivity.
  - vm_compute. lia.
  - reflexivity.
Defined.

Lemma empty_file_is_only_announced_witness :
  let run :=
    @FileTransferService.sendFileChunks Demo.toyCrypto "t0" (fun _ => true)
      (Demo.ambient Spec.quiet) Demo.senderOfEmpty in
  let arrival :=
    @Spec.received Demo.toyCrypto (fun n => Z.of_nat n) "peer-a" 9 0
      (Spec.sentMessages run.1.2) FileTransferService.empty in
  run.1.2
  = [Send (Spec.metadata "t0" Demo.emptyTransfer) true;
     OnComplete 7 (FileTransfer.set_status completed Demo.emptyTransfer)]
  /\ arrival.2 = []
  /\ exists incoming,
       FileTransferService.getTransfer "t0" arrival.1 = Some incoming
       /\ FileTransfer.status incoming = transferring
       /\ FileTransfer.progress incoming = Num 0.
Proof.
  apply (@empty_file_is_only_announced Demo.toyCrypto "t0"%string
           (Demo.ambient Spec.quiet) Demo.senderOfEmpty 0 7 Demo.emptyTransfer
           Demo.zeros (fun n => Z.of_nat n) "peer-a"%string 9
           FileTransferService.empty).
  - reflexivity.
  - reflexivity.
  - reflexivity.
  - reflexivity.
  - apply quiet_undisturbed.
  - reflexivity.
Defined.

Lemma announced_checksum_is_not_verified_witness :
  let run :=
    @FileTransferService.sendFileChunks Demo.toyCrypto "t1" (fun _ => true)
      (Demo.ambient Spec.quiet) Demo.sender in
  let arrival :=
    @Spec.received Demo.toyCrypto (fun n => Z.of_nat n) "peer-a" 9 0
      (map (Spec.withChecksum "not a checksum") (Spec.sentMessages run.1.2))
      FileTransferService.empty in
  Spec.downloaded arrival.2 = [(File.content Demo.report, File.name Demo.report)]
  /\ Spec.reportedErrors arrival.2 = []
  /\ (exists incoming,
         FileTransferService.getTransfer "t1" arrival.1 = Some incoming
         /\ FileTransfer.status incoming = completed)
  /\ JSMap.get "t1" (FileTransferService.receivedChunks arrival.1) = None.
Proof.
  apply (@announced_checksum_is_not_verified Demo.toyCrypto toyCrypto_correct "t1"
           (Demo.ambient Spec.quiet) Demo.sender 0 7 Demo.reportTransfer Demo.zeros
           (fun n => Z.of_nat n) "peer-a" 9 FileTransferService.empty
           "not a checksum").
  - reflexivity.
  - reflexivity.
  - reflexivity.
  - reflexivity.
  - apply quiet_undisturbed.
  - vm_compute. reflexivity.
  - vm_compute. lia.
  - reflexivity.
Defined.


Lemma interrupted_run_delivers_no_file_witness :
  let run :=
    @FileTransferService.sendFileChunks Demo.toyCrypto "t1" (Demo.acceptBelow 2)
      (Demo.ambient Spec.quiet) Demo.sender in
  let accepted := Spec.acceptedMessages run.1.2 in
  let arrival :=
    @Spec.received Demo.toyCrypto (fun n => Z.of_nat n) "peer-a" 9 0 accepted
      FileTransferService.empty in
  length accepted = 3
  /\ Spec.downloaded arrival.2 = []
  /\ Spec.reportedErrors arrival.2 = []
  /\ exists incoming,
       FileTransferService.getTransfer "t1" arrival.1 = Some incoming
       /\ FileTransfer.status incoming = transferring.
Proof.
  destruct (@interrupted_run_delivers_no_file Demo.toyCrypto toyCrypto_correct "t1"
              (Demo.acceptBelow 2) (Demo.ambient Spec.quiet) Demo.sender 0
              Demo.reportTransfer Demo.zeros (fun n => Z.of_nat n) "peer-a" 9
              FileTransferService.empty eq_refl eq_refl eq_refl eq_refl)
    as (Hd & He & _ & Hsome).
  - vm_compute. lia.
  - split; [vm_compute; reflexivity|]. split; [exact Hd|]. split; [exact He|].
    apply Hsome. vm_compute. discriminate.
Defined.

Section Lost.
Import EncryptionService FileTransferService.
Context `{WebCrypto}.

Lemma received_dropped clock peerId h (chunks : list FileChunk.t) :
  forall n (st : FileTransferService.t),
    findFallback st = None ->
    Forall (fun c => JSMap.get (FileChunk.transferId c) (activeTransfers st) = None)
      chunks ->
    Spec.received clock peerId h n (map file_chunk chunks) st = (st, []).
Proof.
  induction chunks as [|c chunks IH]; intros n st Hnone Hall; [reflexivity|].
  inversion Hall as [|? ? Hc Hall']; subst.
  cbn [map Spec.received App.onData].
  rewrite (handleIncomingChunk_dropped (clock n) c st Hc Hnone).
  now rewrite (IH (S n) st Hnone Hall').
Qed.

(** X8.  Chunks without a transfer are lost without a trace.  While no
    registered transfer is 'transferring', chunks for ids that are not
    registered change nothing and call no callback, however many arrive.
    This is what happens to every chunk of a transfer whose
    'transfer-start' carried a key that [importKey] rejects: the
    application registers nothing for it, and neither side is told. *)
Theorem unannounced_chunks_are_lost clock peerId h n (chunks : list FileChunk.t)
    (st : FileTransferService.t) :
  findFallback st = None ->
  Forall (fun c => JSMap.get (FileChunk.transferId c) (activeTransfers st) = None)
    chunks ->
  Spec.received clock peerId h n (map file_chunk chunks) st = (st, [])
  /\ forall data e,
       importKey (TransferStart.encryptionKey data) = Throw e ->
       Spec.received clock peerId h n (transfer_start data :: map file_chunk chunks) st
       = (st, []).
Proof.
  intros Hnone Hall. split; [now apply received_dropped|].
  intros data e Hkey. cbn [Spec.received App.onData].
  unfold App.onTransferStart. rewrite Hkey.
  now rewrite (received_dropped clock peerId h chunks (S n) st Hnone Hall).
Qed.

End Lost.

Lemma unannounced_chunks_are_lost_witness :
  @Spec.received Demo.toyCrypto (fun n => Z.of_nat n) "peer-a" 9 0
    (transfer_start
       {| TransferStart.transferId := "t1"; TransferStart.fileName := "report.bin";
          TransferStart.fileSize := 9 * 1000; TransferStart.totalChunks := 3;
          TransferStart.encryptionKey := "not base64!";
          TransferStart.checksum := "" |}
       :: map file_chunk [Demo.first; Demo.second; Demo.lastFirst])
    FileTransferService.empty
  = (FileTransferService.empty, []).
Proof.
  destruct (@unannounced_chunks_are_lost Demo.toyCrypto (fun n => Z.of_nat n)
              "peer-a" 9 0 [Demo.first; Demo.second; Demo.lastFirst]
              FileTransferService.empty) as [_ Hstart].
  - reflexivity.
  - repeat constructor.
  - apply (Hstart
             {| TransferStart.transferId := "t1"; TransferStart.fileName := "report.bin";
                TransferStart.fileSize := 9 * 1000; TransferStart.totalChunks := 3;
                TransferStart.encryptionKey := "not base64!";
                TransferStart.checksum := "" |}
             (DOMException "InvalidCharacterError")).
    reflexivity.
Defined.

(** ** Chunks that the receiver turns down *)

Section Rejection.
Import EncryptionService FileTransferService.
Context `{WebCrypto}.

(** X9.  A chunk that is not valid base64, does not decrypt, or fails
    the checksum test fails the transfer and is not stored.  The error
    callback registered under the id of the chunk, if there is one, is
    called once, with a reason that names the chunk: for a checksum that
    does not match, 'Checksum verification failed for chunk' and the
    index; for an exception, 'Failed to process chunk', the index and the
    text of the exception, which is its name followed by the message that
    the engine gives it.  Apart from the status 'failed' the service is as
    it was before the chunk: the chunk buffer, the progress and the speed
    are untouched, and there is no progress report and no download. *)
Theorem chunk_rejected now (message : FileChunk.t) (st : FileTransferService.t)
    r (transfer : FileTransfer.t) :
  JSMap.get (FileChunk.transferId message) (activeTransfers st) = Some r ->
  heap st !! r = Some transfer ->
  let callbacks :=
    JSMap.get (FileChunk.transferId message) (transferCallbacks st) in
  let index := integer_to_string (FileChunk.chunkIndex message) in
  let failedWith reason :=
    handleIncomingChunk now message st
    = (update r (FileTransfer.set_status failed) st,
       Spec.notified callbacks
         (fun h => OnError h (FileTransfer.set_status failed transfer) reason)) in
  (Base64.atob (FileChunk.encryptedData message) = None
   \/ Base64.atob (FileChunk.iv message) = None ->
   failedWith ("Failed to process chunk " ++ index ++ ": "
                 ++ name_and_message "InvalidCharacterError"
                      (exception_message (DOMException "InvalidCharacterError")))%string)
  /\ (forall encryptedBuffer ivArray,
         Base64.atob (FileChunk.encryptedData message) = Some encryptedBuffer ->
         Base64.atob (FileChunk.iv message) = Some ivArray ->
         aes_gcm_decrypt (keyData (FileTransfer.encryptionKey transfer)) ivArray
           encryptedBuffer = None ->
         failedWith ("Failed to process chunk " ++ index ++ ": "
                       ++ name_and_message "OperationError"
                            (exception_message (DOMException "OperationError")))%string)
  /\ (forall encryptedBuffer ivArray data,
         Base64.atob (FileChunk.encryptedData message) = Some encryptedBuffer ->
         Base64.atob (FileChunk.iv message) = Some ivArray ->
         aes_gcm_decrypt (keyData (FileTransfer.encryptionKey transfer)) ivArray
           encryptedBuffer = Some data ->
         generateChecksum data <> FileChunk.checksum message ->
         failedWith ("Checksum verification failed for chunk " ++ index)%string).
Proof.
  intros Hr Ht callbacks index failedWith. subst failedWith callbacks. cbv beta.
  unfold handleIncomingChunk, processChunk. rewrite Hr, Ht.
  split; [|split].
  - intros [Hbad|Hbad].
    + rewrite Hbad.
      now rewrite (handleTransferError_any _ _ st r transfer Hr Ht).
    + rewrite Hbad.
      destruct (Base64.atob (FileChunk.encryptedData message));
        now rewrite (handleTransferError_any _ _ st r transfer Hr Ht).
  - intros enc ivb Henc Hiv Hdec. rewrite Henc, Hiv. unfold decrypt. rewrite Hdec.
    now rewrite (handleTransferError_any _ _ st r transfer Hr Ht).
  - intros enc ivb data Henc Hiv Hdec Hsum. rewrite Henc, Hiv. unfold decrypt.
    rewrite Hdec. unfold verifyChecksum.
    destruct (String.eqb_spec (generateChecksum data) (FileChunk.checksum message))
      as [E|_]; [contradiction|].
    cbn [negb].
    now rewrite (handleTransferError_any _ _ st r transfer Hr Ht).
Qed.

End Rejection.

Lemma chunk_rejected_witness :
  let message :=
    {| FileChunk.transferId := "t1"; FileChunk.chunkIndex := 4;
       FileChunk.encryptedData := "aGk"; FileChunk.iv := "!";
       FileChunk.checksum := ""; FileChunk.isLastChunk := false |} in
  @FileTransferService.handleIncomingChunk Demo.toyCrypto 5000 message Demo.receiving
  = (FileTransferService.update 0 (FileTransfer.set_status failed) Demo.receiving,
     [OnError 7 (FileTransfer.set_status failed (Demo.incomingTransfer "t1"))
        ("Failed to process chunk 4: InvalidCharacterError: "
           ++ "The string to be decoded is not correctly encoded.")]).
Proof.
  refine (proj1 (@chunk_rejected Demo.toyCrypto 5000
                   {| FileChunk.transferId := "t1"; FileChunk.chunkIndex := 4;
                      FileChunk.encryptedData := "aGk"; FileChunk.iv := "!";
                      FileChunk.checksum := ""; FileChunk.isLastChunk := false |}
                   Demo.receiving 0 (Demo.incomingTransfer "t1")
                   eq_refl eq_refl) _).
  right. reflexivity.
Defined.

(** ** Pause, resume and cancel *)

Section ControlCalls.
Import EncryptionService FileTransferService.
Implicit Types (st : FileTransferService.t) (r : ref).

Lemma update_update st r f g :
  update r f (update r g st) = update r (fun transfer => f (g transfer)) st.
Proof.
  destruct st as [hp a c rc]. unfold update, set_heap. cbn. f_equal.
  apply (list_alter_alter_eq f g).
Qed.

Lemma status_is_update s s' r st :
  is_Some (heap st !! r) ->
  status_is s r (update r (FileTransfer.set_status s') st) = TransferStatus_eqb s' s.
Proof.
  intros [transfer Ht]. unfold status_is. now rewrite lookup_update_eq, Ht.
Qed.

(** X10.  Pausing a transfer that is 'transferring' and resuming it at
    once gives back the service as it was, and so does resuming a paused
    transfer and pausing it again.  A second pause, or a second resume,
    changes nothing. *)
Theorem pause_resume_inverse transferId st (transfer : FileTransfer.t) :
  getTransfer transferId st = Some transfer ->
  (FileTransfer.status transfer = transferring ->
   resumeTransfer transferId (pauseTransfer transferId st) = st)
  /\ (FileTransfer.status transfer = paused ->
      pauseTransfer transferId (resumeTransfer transferId st) = st)
  /\ pauseTransfer transferId (pauseTransfer transferId st)
     = pauseTransfer transferId st
  /\ resumeTransfer transferId (resumeTransfer transferId st)
     = resumeTransfer transferId st.
Proof.
  unfold getTransfer. destruct (JSMap.get transferId (activeTransfers st)) as [r|] eqn:Hr;
    [|discriminate].
  intros Ht.
  assert (Hsome : is_Some (heap st !! r)) by eauto.
  assert (Hstatus : forall s, status_is s r st
                              = TransferStatus_eqb (FileTransfer.status transfer) s).
  { intros s. unfold status_is. now rewrite Ht. }
  assert (Hback : forall s s',
             FileTransfer.status transfer = s ->
             update r (FileTransfer.set_status s)
               (update r (FileTransfer.set_status s') st) = st).
  { intros s s' Hs. rewrite update_update. apply (update_id _ _ _ transfer Ht).
    destruct transfer. cbn in *. now subst. }
  unfold pauseTransfer, resumeTransfer.
  repeat split.
  - intros Hs. rewrite Hr, Hstatus, Hs. cbn [TransferStatus_eqb].
    cbn [update set_heap activeTransfers]. rewrite Hr.
    rewrite status_is_update by exact Hsome. cbn [TransferStatus_eqb].
    now apply Hback.
  - intros Hs. rewrite Hr, Hstatus, Hs. cbn [TransferStatus_eqb].
    cbn [update set_heap activeTransfers]. rewrite Hr.
    rewrite status_is_update by exact Hsome. cbn [TransferStatus_eqb].
    now apply Hback.
  - rewrite Hr, Hstatus.
    destruct (TransferStatus_eqb (FileTransfer.status transfer) transferring) eqn:E.
    + cbn [update set_heap activeTransfers]. rewrite Hr.
      now rewrite status_is_update by exact Hsome.
    + now rewrite Hr, Hstatus, E.
  - rewrite Hr, Hstatus.
    destruct (TransferStatus_eqb (FileTransfer.status transfer) paused) eqn:E.
    + cbn [update set_heap activeTransfers]. rewrite Hr.
      now rewrite status_is_update by exact Hsome.
    + now rewrite Hr, Hstatus, E.
Qed.

Lemma pause_resume_inverse_witness :
  (FileTransfer.status (Demo.incomingTransfer "t1") = transferring ->
   resumeTransfer "t1" (pauseTransfer "t1" Demo.receiving) = Demo.receiving)
  /\ (FileTransfer.status (Demo.incomingTransfer "t1") = paused ->
      pauseTransfer "t1" (resumeTransfer "t1" Demo.receiving) = Demo.receiving)
  /\ pauseTransfer "t1" (pauseTransfer "t1" Demo.receiving)
     = pauseTransfer "t1" Demo.receiving
  /\ resumeTransfer "t1" (resumeTransfer "t1" Demo.receiving)
     = resumeTransfer "t1" Demo.receiving.
Proof.
  apply (pause_resume_inverse "t1" Demo.receiving (Demo.incomingTransfer "t1")).
  reflexivity.
Defined.

(** X11.  After [cancelTransfer] the id is not registered any more:
    [getTransfer] finds nothing, a further pause, resume or cancel and a
    reported error do nothing, [sendFileChunks] throws 'Transfer not
    found' without sending, and a chunk that still arrives for the id is
    dropped without a callback unless some other transfer is
    'transferring'. *)
Theorem cancelled_transfer_is_gone `{WebCrypto} transferId st :
  let st' := cancelTransfer transferId st in
  getTransfer transferId st' = None
  /\ pauseTransfer transferId st' = st'
  /\ resumeTransfer transferId st' = st'
  /\ cancelTransfer transferId st' = st'
  /\ (forall error, handleTransferError transferId error st' = (st', []))
  /\ (forall sendDataFunction amb,
         sendFileChunks transferId sendDataFunction amb st'
         = (st', [], Throw (Error "Transfer not found")))
  /\ (forall now message,
         FileChunk.transferId message = transferId ->
         findFallback st' = None ->
         handleIncomingChunk now message st' = (st', [])).
Proof.
  intros st'.
  assert (Hgone : JSMap.get transferId (activeTransfers st') = None).
  { subst st'. unfold cancelTransfer.
    destruct (JSMap.get transferId (activeTransfers st)) as [r|] eqn:Hr; [|exact Hr].
    cbn [set_transferCallbacks set_activeTransfers activeTransfers].
    apply get_delete_eq. }
  unfold getTransfer, pauseTransfer, resumeTransfer, cancelTransfer,
    handleTransferError, sendFileChunks.
  rewrite Hgone. repeat split.
  intros now message Hid Hnone. apply handleIncomingChunk_dropped; [|exact Hnone].
  now rewrite Hid.
Qed.

End ControlCalls.

Section Status.
Import EncryptionService FileTransferService.
Context `{WebCrypto}.

(** X12.  The receiver does not look at the status of a registered
    transfer.  A chunk that decrypts and verifies and is not flagged as
    last is stored and reported to the progress callback whatever the
    status is, 'paused', 'completed' and 'failed' included, and the
    status stays what it was: pausing a transfer does not stop the
    receiving side. *)
Theorem receiver_does_not_look_at_the_status now (message : FileChunk.t)
    (st : FileTransferService.t) r h (transfer : FileTransfer.t) data :
  JSMap.get (FileChunk.transferId message) (activeTransfers st) = Some r ->
  heap st !! r = Some transfer ->
  JSMap.get (FileChunk.transferId message) (transferCallbacks st) = Some h ->
  Spec.carries transfer message data ->
  FileChunk.isLastChunk message = false ->
  let transferId := FileChunk.transferId message in
  let chunkIndex := FileChunk.chunkIndex message in
  let run := handleIncomingChunk now message st in
  run.2 = [OnProgress h (Spec.receivedSnapshot now transfer chunkIndex)]
  /\ Spec.statusOf r run.1 = Some (FileTransfer.status transfer)
  /\ JSMap.get transferId (receivedChunks run.1)
     = Some (Spec.bufferWith transferId chunkIndex data st).
Proof.
  intros Hr Ht Hcb Hcarries Hlast transferId chunkIndex run.
  destruct (processChunk_carries now message r h st transfer data Ht Hcb Hcarries)
    as (st2 & Ht2 & _ & _ & Hbuf2 & Hrun).
  cbv zeta in Hrun. rewrite Hlast in Hrun.
  subst run. unfold handleIncomingChunk. rewrite Hr, Hrun. cbn [fst snd].
  split; [reflexivity|]. split; [|exact Hbuf2].
  unfold Spec.statusOf. now rewrite Ht2.
Qed.

End Status.

Lemma receiver_does_not_look_at_the_status_witness :
  let run :=
    @FileTransferService.handleIncomingChunk Demo.toyCrypto 5000 Demo.first
      Demo.receivingPaused in
  run.2
  = [OnProgress 7
       (Spec.receivedSnapshot 5000
          (FileTransfer.set_status paused (Demo.incomingTransfer "t1")) 0)]
  /\ Spec.statusOf 0 run.1 = Some paused
  /\ JSMap.get "t1" (FileTransferService.receivedChunks run.1)
     = Some (Spec.bufferWith "t1" 0 Demo.hi Demo.receivingPaused).
Proof.
  apply (@receiver_does_not_look_at_the_status Demo.toyCrypto 5000 Demo.first
           Demo.receivingPaused 0 7
           (FileTransfer.set_status paused (Demo.incomingTransfer "t1")) Demo.hi).
  - reflexivity.
  - reflexivity.
  - reflexivity.
  - apply (demo_carries "t1" 0 false).
  - reflexivity.
Defined.

(** ** What a call leaves alone *)

Section Frames.
Import EncryptionService FileTransferService.
Context `{WebCrypto}.
Implicit Types (st : FileTransferService.t) (r : ref).

Lemma sameTransfer_refl (transfer : FileTransfer.t) : Spec.sameTransfer transfer transfer.
Proof. now repeat split. Qed.

Lemma sameTransfer_trans (a b c : FileTransfer.t) :
  Spec.sameTransfer a b -> Spec.sameTransfer b c -> Spec.sameTransfer a c.
Proof.
  intros (?&?&?&?&?&?) (?&?&?&?&?&?). repeat split; congruence.
Qed.

Lemma touchesOnly_refl r st : Spec.touchesOnly r st st.
Proof.
  repeat split. intros transfer Ht. exists transfer. split; [exact Ht|].
  apply sameTransfer_refl.
Qed.

Lemma touchesOnly_trans r st1 st2 st3 :
  Spec.touchesOnly r st1 st2 -> Spec.touchesOnly r st2 st3 ->
  Spec.touchesOnly r st1 st3.
Proof.
  intros (Ha & Hc & Hl & Ho & Hr) (Ha' & Hc' & Hl' & Ho' & Hr').
  split; [congruence|]. split; [congruence|]. split; [congruence|]. split.
  - intros r' Hne. rewrite Ho' by exact Hne. now apply Ho.
  - intros t1 Ht1. destruct (Hr t1 Ht1) as (t2 & Ht2 & Hs12).
    destruct (Hr' t2 Ht2) as (t3 & Ht3 & Hs23).
    exists t3. split; [exact Ht3|]. now apply (sameTransfer_trans _ t2).
Qed.

Lemma touchesOnly_update r f st :
  (forall transfer, Spec.sameTransfer transfer (f transfer)) ->
  Spec.touchesOnly r st (update r f st).
Proof.
  intros Hf. split; [reflexivity|]. split; [reflexivity|]. split.
  { cbn [update set_heap heap]. apply length_alter. }
  split.
  - intros r' Hne. now apply lookup_update_ne.
  - intros transfer Ht. exists (f transfer). split; [|apply Hf].
    now rewrite lookup_update_eq, Ht.
Qed.

Lemma touchesOnly_set_status r s st :
  Spec.touchesOnly r st (update r (FileTransfer.set_status s) st).
Proof. apply touchesOnly_update. intros transfer. now repeat split. Qed.

Lemma touchesOnly_set_progress r p st :
  Spec.touchesOnly r st (update r (FileTransfer.set_progress p) st).
Proof. apply touchesOnly_update. intros transfer. now repeat split. Qed.

Lemma touchesOnly_set_speed r (s : FileTransfer.t -> Number) st :
  Spec.touchesOnly r st
    (update r (fun transfer => FileTransfer.set_speed (s transfer) transfer) st).
Proof. apply touchesOnly_update. intros transfer. now repeat split. Qed.

Lemma touchesOnly_handleTransferError transferId error st r :
  JSMap.get transferId (activeTransfers st) = Some r ->
  Spec.touchesOnly r st (handleTransferError transferId error st).1
  /\ receivedChunks (handleTransferError transferId error st).1 = receivedChunks st.
Proof.
  intros Hr. unfold handleTransferError. rewrite Hr. cbn [fst].
  split; [apply touchesOnly_set_status|reflexivity].
Qed.

Lemma touchesOnly_consistent r st st' :
  Spec.touchesOnly r st st' -> Spec.consistent st -> Spec.consistent st'.
Proof.
  intros (Ha & _ & _ & Ho & Hr) Hcons transferId r0 Hget.
  rewrite Ha in Hget. destruct (Hcons transferId r0 Hget) as (transfer & Ht & Hid).
  destruct (decide (r0 = r)) as [->|Hne].
  - destruct (Hr transfer Ht) as (transfer' & Ht' & Hsame).
    exists transfer'. split; [exact Ht'|]. destruct Hsame as (E & _). congruence.
  - exists transfer. split; [|exact Hid]. now rewrite Ho.
Qed.

Lemma touchesOnly_processChunk now (message : FileChunk.t) r st :
  JSMap.get (FileChunk.transferId message) (activeTransfers st) = Some r ->
  let st' := (processChunk now message r st).1.1 in
  Spec.touchesOnly r st st'
  /\ forall other,
       other <> FileChunk.transferId message ->
       JSMap.get other (receivedChunks st') = JSMap.get other (receivedChunks st).
Proof.
  intros Hr. cbv zeta. unfold processChunk.
  assert (Hrefl : Spec.touchesOnly r st st
                  /\ forall other,
                       other <> FileChunk.transferId message ->
                       JSMap.get other (receivedChunks st)
                       = JSMap.get other (receivedChunks st)).
  { split; [apply touchesOnly_refl|reflexivity]. }
  destruct (Base64.atob (FileChunk.encryptedData message)); [|exact Hrefl].
  destruct (Base64.atob (FileChunk.iv message)); [|exact Hrefl].
  destruct (heap st !! r) as [transfer|]; [|exact Hrefl].
  destruct (decrypt _ _ _) as [data|e]; [|exact Hrefl].
  destruct (verifyChecksum _ _); cbn [negb].
  - set (st1 := storeChunk _ _ data st).
    set (st2 := update r (FileTransfer.set_progress _) st1).
    set (st3 := update r _ st2).
    assert (H13 : Spec.touchesOnly r st st3).
    { apply (touchesOnly_trans r st st2).
      - subst st2. apply (touchesOnly_trans r st st1).
        + subst st1. unfold storeChunk. repeat split.
          intros transfer0 Ht0. exists transfer0. split; [exact Ht0|].
          apply sameTransfer_refl.
        + apply touchesOnly_set_progress.
      - subst st3. apply touchesOnly_set_speed. }
    assert (Hb3 : forall other,
               other <> FileChunk.transferId message ->
               JSMap.get other (receivedChunks st3) = JSMap.get other (receivedChunks st)).
    { intros other Hne. subst st3 st2 st1.
      cbn [update set_heap receivedChunks storeChunk set_receivedChunks].
      apply get_set_ne. congruence. }
    destruct (FileChunk.isLastChunk message); [|now split].
    destruct (reconstructFile _ st3) as [completeFile|e]; [|now split].
    cbn [fst]. split.
    + apply (touchesOnly_trans r st st3); [exact H13|].
      apply (touchesOnly_trans r st3 (update r (FileTransfer.set_status completed) st3)).
      * apply touchesOnly_set_status.
      * repeat split. intros transfer0 Ht0. exists transfer0. split; [exact Ht0|].
        apply sameTransfer_refl.
    + intros other Hne. cbn [set_receivedChunks receivedChunks update set_heap].
      rewrite get_delete_ne by congruence. now apply Hb3.
  - destruct (touchesOnly_handleTransferError (FileChunk.transferId message)
                ("Checksum verification failed for chunk "
                   ++ integer_to_string (FileChunk.chunkIndex message)) st r Hr)
      as [Ht Hb].
    destruct (handleTransferError _ _ st) as [st1 evs1]. cbn [fst] in *.
    split; [exact Ht|]. intros other _. now rewrite Hb.
Qed.

Lemma touchesOnly_handleIncomingChunk now (message : FileChunk.t) st r :
  JSMap.get (FileChunk.transferId message) (activeTransfers st) = Some r ->
  let st' := (handleIncomingChunk now message st).1 in
  Spec.touchesOnly r st st'
  /\ forall other,
       other <> FileChunk.transferId message ->
       JSMap.get other (receivedChunks st') = JSMap.get other (receivedChunks st).
Proof.
  intros Hr. cbv zeta. unfold handleIncomingChunk. rewrite Hr.
  destruct (touchesOnly_processChunk now message r st Hr) as [Ht Hb].
  destruct (processChunk now message r st) as [[st1 evs1] [u|e]]; cbn [fst] in *.
  - now split.
  - assert (Hr1 : JSMap.get (FileChunk.transferId message) (activeTransfers st1) = Some r).
    { destruct Ht as (Ha & _). now rewrite Ha. }
    match goal with
    | |- context [handleTransferError ?a ?b ?c] =>
        destruct (touchesOnly_handleTransferError a b c r Hr1) as [Ht' Hb'];
        destruct (handleTransferError a b c) as [st2 evs2]
    end.
    cbn [fst] in *. split.
    + now apply (touchesOnly_trans r st st1).
    + intros other Hne. rewrite Hb'. now apply Hb.
Qed.

(** X13.  A chunk for a registered transfer concerns this transfer
    alone.  Whether the chunk is stored, completes the transfer or fails
    it, the registry and the callbacks stay as they are, every other
    transfer object is untouched, the chunk buffers of the other ids are
    untouched, and of the transfer itself only [status], [progress] and
    [speed] may change. *)
Theorem chunk_concerns_one_transfer now (message : FileChunk.t) st r :
  JSMap.get (FileChunk.transferId message) (activeTransfers st) = Some r ->
  let st' := (handleIncomingChunk now message st).1 in
  Spec.touchesOnly r st st'
  /\ forall other,
       other <> FileChunk.transferId message ->
       JSMap.get other (receivedChunks st') = JSMap.get other (receivedChunks st).
Proof. apply touchesOnly_handleIncomingChunk. Qed.

Section SenderPreserves.
Variable sendDataFunction : Message -> bool.
Variable amb : Ambient.
Variable transferId : string.
Variable r : ref.
Variable P : FileTransferService.t -> Prop.
Hypothesis Henv : forall w st, P st -> P (interleaved amb w st).
Hypothesis Hupd :
  forall r0 st st',
    r0 = r \/ JSMap.get transferId (activeTransfers st) = Some r0 ->
    Spec.touchesOnly r0 st st' ->
    receivedChunks st' = receivedChunks st ->
    P st -> P st'.

Lemma handleTransferError_preserves error st :
  P st -> P (handleTransferError transferId error st).1.
Proof.
  intros HP. unfold handleTransferError.
  destruct (JSMap.get transferId (activeTransfers st)) as [r0|] eqn:Hr0; [|exact HP].
  cbn [fst]. apply (Hupd r0 st); [now right|apply touchesOnly_set_status|reflexivity|exact HP].
Qed.

Lemma sendLoop_preserves file key totalChunks remaining :
  forall i sentChunks st,
    P st ->
    P (sendLoop sendDataFunction amb transferId r file key totalChunks
         remaining i sentChunks st).1.1.
Proof.
  induction remaining as [|remaining IH]; intros i sentChunks st HP; [exact HP|].
  cbn [sendLoop]. destruct (status_is paused r st); [exact HP|].
  destruct (sendDataFunction _); cbn [negb].
  - match goal with
    | |- context [sendLoop _ _ _ _ _ _ _ remaining (S i) ?s ?st0] =>
        assert (HP0 : P st0);
        [|specialize (IH (S i) s st0 HP0);
          destruct (sendLoop sendDataFunction amb transferId r file key totalChunks
                      remaining (S i) s st0) as [[st2 evs2] fin]; exact IH]
    end.
    eapply Hupd; [now left|apply touchesOnly_set_speed|reflexivity|].
    eapply Hupd; [now left|apply touchesOnly_set_progress|reflexivity|].
    now apply Henv.
  - match goal with
    | |- context [handleTransferError ?a ?b ?c] =>
        pose proof (handleTransferError_preserves b c) as He;
        destruct (handleTransferError a b c) as [st1 evs1]
    end.
    cbn [fst] in *. apply He. now apply Henv.
Qed.

Lemma sendFileChunks_preserves st :
  JSMap.get transferId (activeTransfers st) = Some r ->
  P st -> P (sendFileChunks transferId sendDataFunction amb st).1.1.
Proof.
  intros Hr HP. unfold sendFileChunks. rewrite Hr.
  destruct (heap st !! r) as [transfer|]; [|exact HP].
  assert (HP0 : P (interleaved amb 0 (update r (FileTransfer.set_status transferring) st))).
  { apply Henv. eapply Hupd; [now left|apply touchesOnly_set_status|reflexivity|exact HP]. }
  destruct (exportKey _) as [keyData|e]; [|exact HP0].
  destruct (sendDataFunction _); cbn [negb].
  - match goal with
    | |- context [sendLoop ?f ?a ?t ?r0 ?fl ?k ?T ?n ?i ?s ?st0] =>
        pose proof (sendLoop_preserves fl k T n i s st0 HP0) as Hloop;
        destruct (sendLoop f a t r0 fl k T n i s st0) as [[st2 evs2] fin]
    end.
    cbn [fst] in *.
    destruct (fin && status_is transferring r st2); cbn [fst]; [|exact Hloop].
    eapply Hupd; [now left|apply touchesOnly_set_status|reflexivity|exact Hloop].
  - match goal with
    | |- context [handleTransferError ?a ?b ?c] =>
        pose proof (handleTransferError_preserves b c HP0) as He;
        destruct (handleTransferError a b c) as [st1 evs1]
    end.
    exact He.
Qed.

End SenderPreserves.

(** X14.  [sendFileChunks] concerns one transfer alone.  As long as the
    other tasks that run while it is suspended do not go beyond this
    either, a run leaves the registry, the callbacks and the chunk
    buffers as they are and every other transfer object untouched, and of
    the transfer itself it changes at most [status], [progress] and
    [speed]: never the id, the file, the key, the checksum, the peer or
    the start time. *)
Theorem sendFileChunks_concerns_one_transfer transferId sendDataFunction
    (amb : Ambient) st r :
  JSMap.get transferId (activeTransfers st) = Some r ->
  (forall w st0,
      Spec.touchesOnly r st0 (interleaved amb w st0)
      /\ receivedChunks (interleaved amb w st0) = receivedChunks st0) ->
  let st' := (sendFileChunks transferId sendDataFunction amb st).1.1 in
  Spec.touchesOnly r st st' /\ receivedChunks st' = receivedChunks st.
Proof.
  intros Hr Henv. cbv zeta.
  apply (sendFileChunks_preserves sendDataFunction amb transferId r
           (fun st' => Spec.touchesOnly r st st'
                       /\ receivedChunks st' = receivedChunks st)).
  - intros w st0 [Ht Hb]. destruct (Henv w st0) as [Ht' Hb']. split.
    + now apply (touchesOnly_trans r st st0).
    + congruence.
  - intros r0 st1 st2 Hr0 Ht12 Hb12 [Ht Hb].
    assert (r0 = r) as ->.
    { destruct Hr0 as [|Hr0]; [assumption|].
      destruct Ht as (Ha & _). rewrite Ha, Hr in Hr0. congruence. }
    split; [now apply (touchesOnly_trans r st st1)|congruence].
  - exact Hr.
  - split; [apply touchesOnly_refl|reflexivity].
Qed.

End Frames.

Lemma chunk_concerns_one_transfer_witness :
  let st' :=
    (@FileTransferService.handleIncomingChunk Demo.toyCrypto 5000 Demo.second
       Demo.receiving).1 in
  Spec.touchesOnly 0 Demo.receiving st'
  /\ forall other,
       other <> FileChunk.transferId Demo.second ->
       JSMap.get other (FileTransferService.receivedChunks st')
       = JSMap.get other (FileTransferService.receivedChunks Demo.receiving).
Proof.
  apply (@chunk_concerns_one_transfer Demo.toyCrypto 5000 Demo.second Demo.receiving 0).
  reflexivity.
Defined.

Lemma sendFileChunks_concerns_one_transfer_witness :
  let st' :=
    (@FileTransferService.sendFileChunks Demo.toyCrypto "t1" (Demo.acceptBelow 1)
       (Demo.ambient Spec.quiet) Demo.sender).1.1 in
  Spec.touchesOnly 0 Demo.sender st'
  /\ FileTransferService.receivedChunks st'
     = FileTransferService.receivedChunks Demo.sender.
Proof.
  apply (@sendFileChunks_concerns_one_transfer Demo.toyCrypto "t1"%string
           (Demo.acceptBelow 1) (Demo.ambient Spec.quiet) Demo.sender 0).
  - reflexivity.
  - intros w st0. split; [apply touchesOnly_refl|reflexivity].
Defined.

(** ** The registry *)

Section Registry.
Import EncryptionService FileTransferService.
Context `{WebCrypto}.
Implicit Types (st : FileTransferService.t) (r : ref).

Lemma consistent_empty : Spec.consistent FileTransferService.empty.
Proof. intros transferId r Hget. discriminate. Qed.

Lemma consistent_register (transfer : FileTransfer.t) h st :
  Spec.consistent st -> Spec.consistent (registerIncomingTransfer transfer h st).
Proof.
  intros Hcons transferId r Hget.
  cbn [registerIncomingTransfer activeTransfers heap] in *.
  destruct (String.eqb_spec transferId (FileTransfer.id transfer)) as [->|Hne].
  - rewrite get_set_eq in Hget. injection Hget as <-.
    exists transfer. split; [now apply list_lookup_middle|reflexivity].
  - rewrite get_set_ne in Hget by exact Hne.
    destruct (Hcons transferId r Hget) as (transfer0 & Ht0 & Hid).
    exists transfer0. split; [|exact Hid]. now apply lookup_app_l_Some.
Qed.

Lemma consistent_onTransferStart now peerId (data : TransferStart.t) h st :
  Spec.consistent st -> Spec.consistent (App.onTransferStart now peerId data h st).
Proof.
  intros Hcons. unfold App.onTransferStart.
  destruct (importKey _); [|exact Hcons]. now apply consistent_register.
Qed.

Lemma consistent_pause transferId st :
  Spec.consistent st -> Spec.consistent (pauseTransfer transferId st).
Proof.
  intros Hcons. unfold pauseTransfer.
  destruct (JSMap.get transferId (activeTransfers st)) as [r|]; [|exact Hcons].
  destruct (status_is transferring r st); [|exact Hcons].
  apply (touchesOnly_consistent r st); [apply touchesOnly_set_status|exact Hcons].
Qed.

Lemma consistent_resume transferId st :
  Spec.consistent st -> Spec.consistent (resumeTransfer transferId st).
Proof.
  intros Hcons. unfold resumeTransfer.
  destruct (JSMap.get transferId (activeTransfers st)) as [r|]; [|exact Hcons].
  destruct (status_is paused r st); [|exact Hcons].
  apply (touchesOnly_consistent r st); [apply touchesOnly_set_status|exact Hcons].
Qed.

Lemma consistent_cancel transferId st :
  Spec.consistent st -> Spec.consistent (cancelTransfer transferId st).
Proof.
  intros Hcons. unfold cancelTransfer.
  destruct (JSMap.get transferId (activeTransfers st)) as [r|]; [|exact Hcons].
  assert (Hcons1 : Spec.consistent (update r (FileTransfer.set_status failed) st)).
  { apply (touchesOnly_consistent r st); [apply touchesOnly_set_status|exact Hcons]. }
  intros other r0 Hget.
  cbn [set_transferCallbacks set_activeTransfers activeTransfers heap] in Hget |- *.
  destruct (String.eqb_spec other transferId) as [->|Hne].
  - now rewrite get_delete_eq in Hget.
  - rewrite get_delete_ne in Hget by exact Hne. now apply Hcons1.
Qed.

Lemma consistent_handleTransferError transferId error st :
  Spec.consistent st -> Spec.consistent (handleTransferError transferId error st).1.
Proof.
  intros Hcons. unfold handleTransferError.
  destruct (JSMap.get transferId (activeTransfers st)) as [r|]; [|exact Hcons].
  cbn [fst]. apply (touchesOnly_consistent r st); [apply touchesOnly_set_status|exact Hcons].
Qed.

Lemma consistent_rekey r transferId st :
  is_Some (heap st !! r) ->
  Spec.consistent st -> Spec.consistent (rekey r transferId st).
Proof.
  intros [transfer Ht] Hcons other r0 Hget. unfold rekey in *. rewrite Ht in *.
  cbn [set_activeTransfers update set_heap activeTransfers heap] in *.
  destruct (String.eqb_spec other transferId) as [->|Hne].
  - rewrite get_set_eq in Hget. injection Hget as <-.
    exists (FileTransfer.set_id transferId transfer).
    split; [now rewrite list_lookup_alter_eq, Ht|reflexivity].
  - rewrite get_set_ne in Hget by exact Hne.
    destruct (String.eqb_spec other (FileTransfer.id transfer)) as [->|Hne'].
    { now rewrite get_delete_eq in Hget. }
    rewrite get_delete_ne in Hget by exact Hne'.
    destruct (Hcons other r0 Hget) as (transfer0 & Ht0 & Hid).
    exists transfer0. split; [|exact Hid].
    rewrite list_lookup_alter_ne; [exact Ht0|].
    intros ->. rewrite Ht in Ht0. congruence.
Qed.

Lemma findFallback_Some st r :
  findFallback st = Some r -> Spec.statusOf r st = Some transferring.
Proof.
  unfold findFallback. intros Hfind.
  destruct (find_first _ _ _ Hfind) as (_ & _ & _ & Hs & _).
  now apply status_is_true.
Qed.

Lemma consistent_handleIncomingChunk now (message : FileChunk.t) st :
  Spec.consistent st -> Spec.consistent (handleIncomingChunk now message st).1.
Proof.
  intros Hcons.
  destruct (JSMap.get (FileChunk.transferId message) (activeTransfers st)) as [r|] eqn:Hr.
  - destruct (touchesOnly_handleIncomingChunk now message st r Hr) as [Ht _].
    now apply (touchesOnly_consistent r st).
  - destruct (findFallback st) as [r|] eqn:Hfind.
    + rewrite (handleIncomingChunk_fallback now message st r Hr Hfind).
      pose proof (rekey_registered r (FileChunk.transferId message) st) as Hr'.
      destruct (touchesOnly_handleIncomingChunk now message _ r Hr') as [Ht _].
      apply (touchesOnly_consistent r _ _ Ht).
      apply consistent_rekey; [|exact Hcons].
      apply findFallback_Some in Hfind. unfold Spec.statusOf in Hfind.
      destruct (heap st !! r); [eauto|discriminate].
    + now rewrite (handleIncomingChunk_dropped now message st Hr Hfind).
Qed.

Lemma consistent_sendFileChunks transferId sendDataFunction (amb : Ambient) st :
  (forall w st0, Spec.consistent st0 -> Spec.consistent (interleaved amb w st0)) ->
  Spec.consistent st ->
  Spec.consistent (sendFileChunks transferId sendDataFunction amb st).1.1.
Proof.
  intros Henv Hcons.
  destruct (JSMap.get transferId (activeTransfers st)) as [r|] eqn:Hr.
  - apply (sendFileChunks_preserves sendDataFunction amb transferId r Spec.consistent);
      [exact Henv| |exact Hr|exact Hcons].
    intros r0 st1 st2 _ Ht _. now apply (touchesOnly_consistent r0 st1).
  - unfold sendFileChunks. now rewrite Hr.
Qed.

(** X15.  The registry stays consistent: if every registered id leads
    to a transfer object that carries this id, then this is still so
    after a registration (by [startFileTransfer], by
    [registerIncomingTransfer] or by the application on a
    'transfer-start'), after a pause, a resume or a cancel, after an
    incoming chunk, also one that is matched by the fallback and stored
    under a new id, and after a run of [sendFileChunks] during which the
    other tasks keep it so.  It holds of the empty service, hence of
    every state that these calls reach: [getTransfer(id)], when it
    returns a transfer, returns one whose [id] is [id]. *)
Theorem registry_stays_consistent st :
  Spec.consistent st ->
  (forall transfer h, Spec.consistent (registerIncomingTransfer transfer h st))
  /\ (forall transferId random now file peerId h,
         Spec.consistent (startFileTransfer transferId random now file peerId h st))
  /\ (forall now peerId data h,
         Spec.consistent (App.onTransferStart now peerId data h st))
  /\ (forall transferId,
         Spec.consistent (pauseTransfer transferId st)
         /\ Spec.consistent (resumeTransfer transferId st)
         /\ Spec.consistent (cancelTransfer transferId st))
  /\ (forall now message, Spec.consistent (handleIncomingChunk now message st).1)
  /\ (forall transferId sendDataFunction (amb : Ambient),
         (forall w st0, Spec.consistent st0 -> Spec.consistent (interleaved amb w st0)) ->
         Spec.consistent (sendFileChunks transferId sendDataFunction amb st).1.1)
  /\ (forall transferId transfer,
         getTransfer transferId st = Some transfer ->
         FileTransfer.id transfer = transferId).
Proof.
  intros Hcons.
  split; [intros; now apply consistent_register|].
  split; [intros; now apply consistent_register|].
  split; [intros; now apply consistent_onTransferStart|].
  split.
  { intros transferId.
    split; [now apply consistent_pause|].
    split; [now apply consistent_resume|now apply consistent_cancel]. }
  split; [intros; now apply consistent_handleIncomingChunk|].
  split; [intros; now apply consistent_sendFileChunks|].
  intros transferId transfer. unfold getTransfer.
  destruct (JSMap.get transferId (activeTransfers st)) as [r|] eqn:Hr; [|discriminate].
  intros Ht. destruct (Hcons transferId r Hr) as (transfer' & Ht' & Hid). congruence.
Qed.

Lemma getTransfer_update_other transferId other r f st :
  Spec.consistent st ->
  JSMap.get transferId (activeTransfers st) = Some r ->
  other <> transferId ->
  getTransfer other (update r f st) = getTransfer other st.
Proof.
  intros Hcons Hr Hne. unfold getTransfer. cbn [update set_heap activeTransfers heap].
  destruct (JSMap.get other (activeTransfers st)) as [r'|] eqn:Hr'; [|reflexivity].
  apply list_lookup_alter_ne. intros ->.
  destruct (Hcons transferId r' Hr) as (t1 & Ht1 & Hid1).
  destruct (Hcons other r' Hr') as (t2 & Ht2 & Hid2). congruence.
Qed.

(** X16.  A pause, a resume, a cancel or a reported error concerns one
    id.  In a consistent registry the transfer that [getTransfer] returns
    for any other id is the same before and after, and [cancelTransfer]
    removes no other callbacks. *)
Theorem control_calls_are_local transferId other st :
  Spec.consistent st ->
  other <> transferId ->
  getTransfer other (pauseTransfer transferId st) = getTransfer other st
  /\ getTransfer other (resumeTransfer transferId st) = getTransfer other st
  /\ getTransfer other (cancelTransfer transferId st) = getTransfer other st
  /\ (forall error,
         getTransfer other (handleTransferError transferId error st).1
         = getTransfer other st)
  /\ JSMap.get other (transferCallbacks (cancelTransfer transferId st))
     = JSMap.get other (transferCallbacks st).
Proof.
  intros Hcons Hne.
  unfold pauseTransfer, resumeTransfer, cancelTransfer, handleTransferError.
  destruct (JSMap.get transferId (activeTransfers st)) as [r|] eqn:Hr;
    [|now repeat split].
  pose proof (fun f => getTransfer_update_other transferId other r f st Hcons Hr Hne)
    as Hupd.
  split; [destruct (status_is transferring r st); [apply Hupd|reflexivity]|].
  split; [destruct (status_is paused r st); [apply Hupd|reflexivity]|].
  split.
  { rewrite <- (Hupd (FileTransfer.set_status failed)). unfold getTransfer.
    cbn [set_transferCallbacks set_activeTransfers activeTransfers heap update set_heap].
    now rewrite get_delete_ne by exact Hne. }
  split; [intros error; apply Hupd|].
  cbn [set_transferCallbacks set_activeTransfers transferCallbacks update set_heap].
  now apply get_delete_ne.
Qed.

End Registry.

Lemma consistent_receivingTwo : Spec.consistent Demo.receivingTwo.
Proof.
  unfold Demo.receivingTwo, Demo.receiver.
  do 2 apply consistent_onTransferStart. apply consistent_empty.
Qed.

Lemma registry_stays_consistent_witness :
  Spec.consistent
    (@FileTransferService.handleIncomingChunk Demo.toyCrypto 5000 Demo.orphan
       Demo.receivingTwo).1
  /\ forall transfer,
       FileTransferService.getTransfer "b" Demo.receivingTwo = Some transfer ->
       FileTransfer.id transfer = "b"%string.
Proof.
  destruct (@registry_stays_consistent Demo.toyCrypto Demo.receivingTwo
              consistent_receivingTwo) as (_ & _ & _ & _ & Hchunk & _ & Hid).
  split; [apply Hchunk|apply Hid].
Defined.

Lemma control_calls_are_local_witness :
  FileTransferService.getTransfer "b" (FileTransferService.pauseTransfer "a" Demo.receivingTwo)
  = FileTransferService.getTransfer "b" Demo.receivingTwo
  /\ FileTransferService.getTransfer "b"
       (FileTransferService.cancelTransfer "a" Demo.receivingTwo)
     = FileTransferService.getTransfer "b" Demo.receivingTwo.
Proof.
  destruct (control_calls_are_local "a" "b" Demo.receivingTwo consistent_receivingTwo)
    as (Hpause & _ & Hcancel & _).
  - discriminate.
  - split; [exact Hpause|exact Hcancel].
Defined.

(** ** Checksums *)

Section Checksums.
Import EncryptionService.
Context `{WebCrypto}.

Lemma concat_hex_cons (b : byte) (l : list byte) :
  String.concat "" (map hex_of_byte (b :: l))
  = String (hex_digit (Byte.to_N b / 16))
      (String (hex_digit (Byte.to_N b mod 16))
         (String.concat "" (map hex_of_byte l))).
Proof. destruct l; reflexivity. Qed.

Lemma hex_digit_index (n : N) :
  (n < 16)%N ->
  Base64.index_from (hex_digit n) "0123456789abcdef" 0 = Some n.
Proof.
  intros Hn. rewrite <- (N2Nat.id n). assert (Hk : N.to_nat n < 16) by lia.
  revert Hk. generalize (N.to_nat n). intros k Hk.
  do 16 (destruct k as [|k]; [reflexivity|]). lia.
Qed.

Lemma hex_digit_alphabet (n : N) :
  (n < 16)%N -> In (hex_digit n) (list_ascii_of_string "0123456789abcdef").
Proof.
  intros Hn. rewrite <- (N2Nat.id n). assert (Hk : N.to_nat n < 16) by lia.
  revert Hk. generalize (N.to_nat n). intros k Hk.
  do 16 (destruct k as [|k]; [cbn; tauto|]). lia.
Qed.

Lemma byte_digits (b : byte) :
  (Byte.to_N b / 16 < 16)%N /\ (Byte.to_N b mod 16 < 16)%N.
Proof.
  pose proof (Byte.to_N_bounded b) as Hb. split.
  - apply N.Div0.div_lt_upper_bound. lia.
  - apply N.mod_lt. lia.
Qed.

Lemma hex_of_byte_inj (b b' : byte) : hex_of_byte b = hex_of_byte b' -> b = b'.
Proof.
  unfold hex_of_byte. intros [= Hq Hr].
  destruct (byte_digits b) as [Hb1 Hb2]. destruct (byte_digits b') as [Hb1' Hb2'].
  apply (f_equal (fun c => Base64.index_from c "0123456789abcdef" 0)) in Hq, Hr.
  rewrite !hex_digit_index in Hq, Hr by assumption.
  injection Hq as Hq. injection Hr as Hr.
  assert (E : Byte.to_N b = Byte.to_N b').
  { rewrite (N.div_mod (Byte.to_N b) 16), (N.div_mod (Byte.to_N b') 16) by lia.
    now rewrite Hq, Hr. }
  apply (f_equal Byte.of_N) in E. rewrite !Byte.of_to_N in E. now injection E.
Qed.

Lemma hex_inj (l l' : list byte) :
  String.concat "" (map hex_of_byte l) = String.concat "" (map hex_of_byte l') ->
  l = l'.
Proof.
  revert l'. induction l as [|b l IH]; intros [|b' l'].
  - reflexivity.
  - rewrite concat_hex_cons. discriminate.
  - rewrite concat_hex_cons. discriminate.
  - rewrite !concat_hex_cons. intros [= Hq Hr Hrest].
    f_equal; [|now apply IH].
    apply hex_of_byte_inj. unfold hex_of_byte. now rewrite Hq, Hr.
Qed.

(** X17.  A checksum is the digest written in lower-case hexadecimal,
    two digits for each byte. *)
Theorem checksum_is_lowercase_hex (data : list byte) :
  String.length (generateChecksum data) = 2 * length (sha256 data)
  /\ Forall (fun c => In c (list_ascii_of_string "0123456789abcdef"))
       (list_ascii_of_string (generateChecksum data)).
Proof.
  unfold generateChecksum. induction (sha256 data) as [|b l [IHlen IHall]].
  - split; [reflexivity|constructor].
  - rewrite concat_hex_cons. destruct (byte_digits b) as [Hq Hr]. split.
    + cbn [String.length]. rewrite IHlen. cbn [length]. lia.
    + cbn [list_ascii_of_string].
      constructor; [now apply hex_digit_alphabet|].
      constructor; [now apply hex_digit_alphabet|exact IHall].
Qed.

(** X18.  [verifyChecksum] accepts one text for given data, the
    checksum that [generateChecksum] writes for them, and two checksums
    are the same text exactly when the digests are the same bytes: the
    hexadecimal form loses nothing.  So data pass the test against the
    checksum of other data only if both have the same SHA-256 digest. *)
Theorem checksum_decides_the_digest (data data' : list byte) (expectedChecksum : string) :
  (verifyChecksum data expectedChecksum = true
   <-> expectedChecksum = generateChecksum data)
  /\ (generateChecksum data = generateChecksum data' <-> sha256 data = sha256 data')
  /\ (verifyChecksum data (generateChecksum data') = true
      <-> sha256 data = sha256 data').
Proof.
  assert (Hverify : forall d e, verifyChecksum d e = true <-> e = generateChecksum d).
  { intros d e. unfold verifyChecksum. rewrite String.eqb_eq. split; congruence. }
  assert (Hdigest : generateChecksum data = generateChecksum data'
                    <-> sha256 data = sha256 data').
  { unfold generateChecksum. split; [apply hex_inj|congruence]. }
  split; [apply Hverify|]. split; [exact Hdigest|].
  rewrite Hverify, <- Hdigest. split; congruence.
Qed.

End Checksums.

(** ** Progress *)

Section Progress.
Import EncryptionService FileTransferService.
Context `{WebCrypto}.

Lemma percent_bounds totalChunks n :
  0 < n -> n <= totalChunks ->
  exists q,
    Spec.percent totalChunks n = Num q
    /\ (0 < q)%Q /\ (q <= 100)%Q /\ (n = totalChunks -> (q == 100)%Q).
Proof.
  intros Hn Hle. destruct totalChunks as [|t]; [lia|].
  unfold Spec.percent, quotient. cbn [times]. eexists. split; [reflexivity|].
  assert (Hden : Z.pos (Pos.of_nat (S t)) = Z.of_nat (S t)).
  { rewrite <- Pos.of_nat_succ, Zpos_P_of_succ_nat. lia. }
  unfold Qlt, Qle, Qeq. cbn [Qmult Qnum Qden].
  rewrite ?Pos2Z.inj_mul, ?Hden. repeat split; try intros ->; lia.
Qed.

Lemma reportedProgress_chunks (f : nat -> Message) (g : nat -> FileTransfer.t) h l :
  Spec.reportedProgress
    (flat_map (fun i => [Send (f i) true; OnProgress h (g i)]) l)
  = map (fun i => FileTransfer.progress (g i)) l.
Proof.
  induction l as [|i l IH]; [reflexivity|].
  cbn [flat_map map app].
  change (Spec.reportedProgress (Send ?m ?b :: ?tr)) with (Spec.reportedProgress tr).
  change (Spec.reportedProgress (OnProgress ?h0 ?t :: ?tr))
    with (FileTransfer.progress t :: Spec.reportedProgress tr).
  now rewrite IH.
Qed.

Lemma completions_chunks (f : nat -> Message) (g : nat -> FileTransfer.t) h l :
  Spec.completions
    (flat_map (fun i => [Send (f i) true; OnProgress h (g i)]) l) = [].
Proof. induction l as [|i l IH]; [reflexivity|exact IH]. Qed.

(** X19.  The progress of an undisturbed run of the sender on a file
    that is not empty: every value reported to the progress callback is
    above 0 and at most 100, there is one report for each chunk, and the
    transfer handed to the completion callback, once, is 'completed' with
    a progress of 100. *)
Theorem sender_progress_ends_at_100 transferId sendDataFunction (amb : Ambient)
    (st : FileTransferService.t) r h (transfer : FileTransfer.t) :
  JSMap.get transferId (activeTransfers st) = Some r ->
  heap st !! r = Some transfer ->
  extractable (FileTransfer.encryptionKey transfer) = true ->
  JSMap.get transferId (transferCallbacks st) = Some h ->
  Spec.undisturbed transferId r (interleaved amb) ->
  (forall m, sendDataFunction m = true) ->
  0 < File.size (FileTransfer.file transfer) ->
  let run := sendFileChunks transferId sendDataFunction amb st in
  length (Spec.reportedProgress run.1.2)
  = Math_ceil_div (File.size (FileTransfer.file transfer)) CHUNK_SIZE
  /\ Forall (fun p => exists q, p = Num q /\ (0 < q)%Q /\ (q <= 100)%Q)
       (Spec.reportedProgress run.1.2)
  /\ exists done q,
       Spec.completions run.1.2 = [done]
       /\ FileTransfer.status done = completed
       /\ FileTransfer.progress done = Num q
       /\ (q == 100)%Q.
Proof.
  intros Hr Ht Hex Hcb Hquiet Haccept Hpos run.
  destruct (sendFileChunks_completes transferId sendDataFunction amb st r h transfer
              Hr Ht Hex Hcb Hquiet Haccept) as (st' & Hrun & _).
  subst run. rewrite Hrun. cbn [fst snd].
  set (totalChunks := Math_ceil_div (File.size (FileTransfer.file transfer)) CHUNK_SIZE).
  assert (HT : 0 < totalChunks).
  { destruct totalChunks eqn:E; [|lia].
    apply Math_ceil_div_zero in E; [lia|apply CHUNK_SIZE_pos]. }
  change (Spec.reportedProgress (Send ?m ?b :: ?tr)) with (Spec.reportedProgress tr).
  change (Spec.completions (Send ?m ?b :: ?tr)) with (Spec.completions tr).
  rewrite reportedProgress_app, completions_app, reportedProgress_chunks,
    completions_chunks.
  cbn [Spec.reportedProgress Spec.completions omap list_omap app].
  rewrite app_nil_r. split; [now rewrite length_map, length_seq|]. split.
  - apply Forall_forall. intros p Hp. apply list_elem_of_In, in_map_iff in Hp.
    destruct Hp as (i & <- & Hi). apply in_seq in Hi.
    destruct (percent_bounds totalChunks (S i)) as (q & Hq & Hlo & Hhi & _); [lia|lia|].
    exists q. split; [exact Hq|]. now split.
  - destruct totalChunks as [|i] eqn:E; [lia|].
    destruct (percent_bounds (S i) (S i)) as (q & Hq & _ & _ & Hfull); [lia|lia|].
    eexists _, q. split; [reflexivity|]. split; [reflexivity|].
    split; [exact Hq|now apply Hfull].
Qed.


End Progress.

Lemma sender_progress_ends_at_100_witness :
  let run :=
    @FileTransferService.sendFileChunks Demo.toyCrypto "t1" Demo.accept
      (Demo.ambient Spec.quiet) Demo.sender in
  length (Spec.reportedProgress run.1.2)
  = Math_ceil_div (File.size (FileTransfer.file Demo.reportTransfer))
      FileTransferService.CHUNK_SIZE
  /\ Forall (fun p => exists q, p = Num q /\ (0 < q)%Q /\ (q <= 100)%Q)
       (Spec.reportedProgress run.1.2)
  /\ exists done q,
       Spec.completions run.1.2 = [done]
       /\ FileTransfer.status done = completed
       /\ FileTransfer.progress done = Num q
       /\ (q == 100)%Q.
Proof.
  apply (@sender_progress_ends_at_100 Demo.toyCrypto "t1"%string Demo.accept
           (Demo.ambient Spec.quiet) Demo.sender 0 7 Demo.reportTransfer).
  - reflexivity.
  - reflexivity.
  - reflexivity.
  - reflexivity.
  - apply quiet_undisturbed.
  - reflexivity.
  - vm_compute. lia.
Defined.


(** ** What the receiver can throw, and registration *)

Section Exceptions.
Import EncryptionService FileTransferService.
Context `{WebCrypto}.



(** X22.  [startFileTransfer] registers a new transfer and does nothing
    else: the transfer is 'pending' with progress and speed 0, has a
    freshly generated key and the checksum of the whole content of the
    file; it and its callbacks are found under the id, also when the id
    was in use before.  Nothing is sent and no callback is called.  In a
    consistent registry every other id leads to the same transfer and the
    same callbacks as before. *)
Theorem startFileTransfer_registers transferId random now file peerId h
    (st : FileTransferService.t) :
  let st' := startFileTransfer transferId random now file peerId h st in
  getTransfer transferId st'
  = Some {| FileTransfer.id := transferId; FileTransfer.file := file;
            FileTransfer.status := pending; FileTransfer.progress := Num 0;
            FileTransfer.speed := Num 0; FileTransfer.startTime := now;
            FileTransfer.encryptionKey := generateKey random;
            FileTransfer.checksum := generateChecksum (File.content file);
            FileTransfer.peerId := peerId |}
  /\ JSMap.get transferId (transferCallbacks st') = Some h
  /\ receivedChunks st' = receivedChunks st
  /\ (Spec.consistent st ->
      forall other,
        other <> transferId ->
        getTransfer other st' = getTransfer other st
        /\ JSMap.get other (transferCallbacks st')
           = JSMap.get other (transferCallbacks st)).
Proof.
  cbv zeta. unfold startFileTransfer, calculateFileChecksum, getTransfer.
  cbn [registerIncomingTransfer activeTransfers transferCallbacks heap receivedChunks
         FileTransfer.id].
  rewrite !get_set_eq. split; [now apply list_lookup_middle|].
  split; [reflexivity|]. split; [reflexivity|].
  intros Hcons other Hne. rewrite !get_set_ne by exact Hne. split; [|reflexivity].
  destruct (JSMap.get other (activeTransfers st)) as [r|] eqn:Hr; [|reflexivity].
  destruct (Hcons other r Hr) as (transfer & Ht & _).
  rewrite Ht. now apply lookup_app_l_Some.
Qed.

End Exceptions.

(** ** peerService.ts *)

Section Connections.
Import PeerService.
Implicit Types (st : PeerService.t) (peerId : string).

Lemma get_keys {V} (m : JSMap.t V) k v :
  JSMap.get k m = Some v -> In k (JSMap.keys m).
Proof.
  induction m as [|[k' v'] m IH]; [discriminate|].
  cbn [JSMap.get JSMap.keys map fst].
  destruct (String.eqb_spec k k') as [->|Hne]; [now left|].
  intros Hget. right. now apply IH.
Qed.

Lemma get_map {V} (f : V -> V) (m : JSMap.t V) k :
  JSMap.get k (map (fun '(k', v) => (k', f v)) m) = f <$> JSMap.get k m.
Proof.
  induction m as [|[k' v'] m IH]; [reflexivity|].
  cbn [map JSMap.get]. now destruct (String.eqb k k').
Qed.

Lemma keys_map {V} (f : V -> V) (m : JSMap.t V) :
  JSMap.keys (map (fun '(k', v) => (k', f v)) m) = JSMap.keys m.
Proof.
  unfold JSMap.keys. rewrite map_map. apply map_ext. now intros [k' v'].
Qed.

Lemma sendData_result peerId data st :
  (sendData peerId data st).2 = isConnectedTo peerId st.
Proof.
  unfold sendData, isConnectedTo.
  destruct (JSMap.get peerId (connections st)) as [connection|]; [|reflexivity].
  now destruct (DataConnection.open connection).
Qed.

(** X23.  [sendData] succeeds exactly for a peer with an open
    connection.  Then the data are handed to this connection, after what
    it was given before; otherwise nothing changes.  The connections of
    the other peers are untouched, and which peers are connected is the
    same after the call. *)
Theorem sendData_reaches_an_open_connection peerId data st :
  (sendData peerId data st).2 = isConnectedTo peerId st
  /\ (isConnectedTo peerId st = false -> (sendData peerId data st).1 = st)
  /\ (isConnectedTo peerId st = true ->
      exists connection,
        JSMap.get peerId (connections st) = Some connection
        /\ JSMap.get peerId (connections (sendData peerId data st).1)
           = Some {| DataConnection.open := true;
                     DataConnection.sent := DataConnection.sent connection ++ [data] |})
  /\ (forall other,
         other <> peerId ->
         JSMap.get other (connections (sendData peerId data st).1)
         = JSMap.get other (connections st))
  /\ (forall other,
         isConnectedTo other (sendData peerId data st).1 = isConnectedTo other st).
Proof.
  unfold sendData, isConnectedTo.
  destruct (JSMap.get peerId (connections st)) as [connection|] eqn:Hc;
    [destruct (DataConnection.open connection) eqn:Hopen|];
    cbn [fst snd]; repeat split; try discriminate.
  - intros _. exists connection. split; [reflexivity|].
    cbn [set_connections connections]. rewrite get_set_eq.
    unfold DataConnection.send. now rewrite Hopen.
  - intros other Hne. cbn [set_connections connections]. now apply get_set_ne.
  - intros other. cbn [set_connections connections].
    destruct (String.eqb_spec other peerId) as [->|Hne].
    + rewrite get_set_eq, Hc. cbn [DataConnection.send DataConnection.open].
      reflexivity.
    + now rewrite get_set_ne.
Qed.

(** X24.  [getConnectedPeers] lists the peers that [isConnectedTo]
    accepts, [disconnect] and the handler of the 'close' and 'error'
    events both end with the peer not connected and leave the
    connections of the other peers alone, and [sendData] to a peer that
    was disconnected fails. *)
Theorem connected_peers_are_the_open_connections peerId st :
  (In peerId (getConnectedPeers st) <-> isConnectedTo peerId st = true)
  /\ isConnectedTo peerId (disconnect peerId st) = false
  /\ isConnectedTo peerId (onClose peerId st) = false
  /\ ~ In peerId (getConnectedPeers (disconnect peerId st))
  /\ (forall data, (sendData peerId data (disconnect peerId st)).2 = false)
  /\ (forall other,
         other <> peerId ->
         JSMap.get other (connections (disconnect peerId st))
         = JSMap.get other (connections st)
         /\ JSMap.get other (connections (onClose peerId st))
            = JSMap.get other (connections st)).
Proof.
  assert (Hlist : forall p s, In p (getConnectedPeers s) <-> isConnectedTo p s = true).
  { intros p s. unfold getConnectedPeers, isConnectedTo. rewrite filter_In. split.
    - now intros [_ Hopen].
    - intros Hopen. split; [|exact Hopen].
      destruct (JSMap.get p (connections s)) as [connection|] eqn:Hc; [|discriminate].
      now apply (get_keys _ _ connection). }
  assert (Hgone : isConnectedTo peerId (disconnect peerId st) = false).
  { unfold isConnectedTo, disconnect.
    destruct (JSMap.get peerId (connections st)) as [connection|] eqn:Hc.
    - cbn [set_connections connections]. now rewrite get_delete_eq.
    - now rewrite Hc. }
  split; [apply Hlist|]. split; [exact Hgone|]. split.
  { unfold isConnectedTo, onClose. cbn [set_connections connections].
    now rewrite get_delete_eq. }
  split.
  { rewrite Hlist, Hgone. discriminate. }
  split.
  { intros data. now rewrite sendData_result. }
  intros other Hne. unfold disconnect, onClose. split.
  - destruct (JSMap.get peerId (connections st)); [|reflexivity].
    cbn [set_connections connections]. now apply get_delete_ne.
  - cbn [set_connections connections]. now apply get_delete_ne.
Qed.


(** X25.  [broadcast] does for every peer what [sendData] does for
    one: the connection of a peer after a broadcast is its connection
    after [sendData] to this peer.  No peer is added or removed, and
    which peers are connected is the same after the call. *)
Theorem broadcast_is_sendData_to_every_peer data st peerId :
  JSMap.keys (connections (broadcast data st)) = JSMap.keys (connections st)
  /\ JSMap.get peerId (connections (broadcast data st))
     = JSMap.get peerId (connections (sendData peerId data st).1)
  /\ isConnectedTo peerId (broadcast data st) = isConnectedTo peerId st.
Proof.
  unfold broadcast. cbn [set_connections connections].
  pose proof (get_map
                (fun connection =>
                   if DataConnection.open connection
                   then DataConnection.send data connection else connection)
                (connections st) peerId) as Hget.
  pose proof (keys_map
                (fun connection =>
                   if DataConnection.open connection
                   then DataConnection.send data connection else connection)
                (connections st)) as Hkeys.
  split; [exact Hkeys|].
  unfold isConnectedTo, sendData. cbn [set_connections connections].
  rewrite Hget.
  destruct (JSMap.get peerId (connections st)) as [connection|] eqn:Hc;
    cbn [fmap option_fmap option_map].
  2: { cbn [fst]. now rewrite Hc. }
  destruct (DataConnection.open connection) eqn:Hopen; cbn [fst].
  - cbn [set_connections connections]. rewrite get_set_eq. split; [reflexivity|].
    exact Hopen.
  - rewrite Hc. split; [reflexivity|exact Hopen].
Qed.

Lemma set_not_empty {V} k (v : V) m : JSMap.set k v m <> [].
Proof.
  destruct m as [|[k' v'] m]; cbn [JSMap.set]; [discriminate|].
  now destruct (String.eqb k k').
Qed.

(** X26.  [connectToPeer] goes on to wait for a connection only for a
    well-formed id that is not the own one and has no entry yet, on a
    peer that is open, and it enters the new connection into the map at
    once, before the connection is open.  From then on
    [getConnectionStatus] answers 'connected' and a second
    [connectToPeer] to the same id resolves as already connected, while
    [isConnectedTo] and [sendData] still follow the [open] flag of the
    connection. *)
Theorem connectToPeer_registers_before_open peerId connection st st' :
  connectToPeer peerId connection st = Waiting st' ->
  validatePeerId peerId = true
  /\ (exists p, peer st = Some p /\ Peer.open p = true /\ Peer.id p <> peerId)
  /\ JSMap.get peerId (connections st) = None
  /\ JSMap.get peerId (connections st') = Some connection
  /\ isConnectedTo peerId st' = DataConnection.open connection
  /\ (forall data, (sendData peerId data st').2 = DataConnection.open connection)
  /\ (forall p, peer st = Some p -> Peer.disconnected p = false ->
                getConnectionStatus st' = connected)
  /\ (forall connection', connectToPeer peerId connection' st' = Resolved).
Proof.
  unfold connectToPeer at 1.
  destruct (validatePeerId peerId) eqn:Hvalid; cbn [negb]; [|discriminate].
  destruct (peer st) as [p|] eqn:Hpeer; [|discriminate].
  destruct (Peer.open p) eqn:Hopen; cbn [negb]; [|discriminate].
  unfold JSMap.has.
  destruct (JSMap.get peerId (connections st)) as [c|] eqn:Hc; [discriminate|].
  destruct (String.eqb_spec peerId (Peer.id p)) as [Hself|Hother]; [discriminate|].
  intros [= <-].
  assert (Hget : JSMap.get peerId (connections (setupConnection peerId connection st))
                 = Some connection).
  { cbn [setupConnection set_connections connections]. apply get_set_eq. }
  split; [reflexivity|]. split; [exists p; now repeat split; congruence|].
  split; [reflexivity|]. split; [exact Hget|].
  assert (Hconn : isConnectedTo peerId (setupConnection peerId connection st)
                  = DataConnection.open connection).
  { unfold isConnectedTo. now rewrite Hget. }
  split; [exact Hconn|]. split; [intros data; now rewrite sendData_result|].
  split.
  - intros p' [= <-] Hdis. unfold getConnectionStatus.
    cbn [setupConnection set_connections peer connections]. rewrite Hpeer, Hdis.
    pose proof (set_not_empty peerId connection (connections st)) as Hne.
    destruct (JSMap.set peerId connection (connections st)); [contradiction|reflexivity].
  - intros connection'. unfold connectToPeer. rewrite Hvalid. cbn [negb].
    change (peer (setupConnection peerId connection st)) with (peer st).
    rewrite Hpeer, Hopen. cbn [negb]. unfold JSMap.has. now rewrite Hget.
Qed.

(** X27.  [getConnectionStatus] never answers 'connecting', and it
    answers 'connected' exactly when there is a peer that is not
    disconnected and the map of connections has an entry, open or not. *)
Theorem connection_status_counts_entries st :
  getConnectionStatus st <> connecting
  /\ (getConnectionStatus st = connected
      <-> exists p, peer st = Some p /\ Peer.disconnected p = false
                    /\ connections st <> []).
Proof.
  unfold getConnectionStatus. destruct (peer st) as [p|].
  - destruct (Peer.disconnected p) eqn:Hdis.
    + split; [discriminate|]. split; [discriminate|].
      intros (p' & [= <-] & Hd & _). congruence.
    + destruct (connections st) as [|entry m]; cbn [length Nat.eqb].
      * split; [discriminate|]. split; [discriminate|].
        intros (p' & _ & _ & Hne). contradiction.
      * split; [discriminate|]. split; [|reflexivity].
        intros _. exists p. now repeat split.
  - split; [discriminate|]. split; [discriminate|].
    intros (p' & Hp & _). discriminate.
Qed.

End Connections.

Lemma connectToPeer_registers_before_open_witness :
  let st' := PeerService.setupConnection "peer-b" Demo.pendingConnection Demo.peerService in
  PeerService.isConnectedTo "peer-b" st' = false
  /\ PeerService.getConnectionStatus st' = PeerService.connected
  /\ PeerService.connectToPeer "peer-b" Demo.pendingConnection st' = PeerService.Resolved.
Proof.
  destruct (PeerService.connectToPeer "peer-b" Demo.pendingConnection Demo.peerService)
    as [message| |st'] eqn:Hrun; try discriminate Hrun.
  destruct (connectToPeer_registers_before_open "peer-b" Demo.pendingConnection
              Demo.peerService st' Hrun)
    as (_ & _ & _ & _ & Hconn & _ & Hstatus & Hagain).
  assert (st' = PeerService.setupConnection "peer-b" Demo.pendingConnection
                  Demo.peerService) as <-
    by (vm_compute in Hrun; injection Hrun as <-; reflexivity).
  split; [exact Hconn|]. split; [|apply Hagain].
  now apply (Hstatus _ eq_refl).
Defined.

(** ** Peer ids *)

Section PeerIds.
Import PeerService.

Lemma is_hex_digit_id_char c : is_hex_digit c = true -> is_id_char c = true.
Proof.
  unfold is_hex_digit, is_id_char, in_range. intros Hhex.
  repeat match goal with
         | |- context [(?a <=? ?b)%N] => destruct (N.leb_spec a b)
         | Hc : context [(?a <=? ?b)%N] |- _ => destruct (N.leb_spec a b)
         end; cbn in *; try reflexivity; try discriminate; lia.
Qed.

Lemma hex_run_spec n : forall s s',
  hex_run n s = Some s' ->
  exists pre, s = pre ++ s' /\ length pre = n /\ forallb is_id_char pre = true.
Proof.
  induction n as [|n IH]; intros s s'; cbn [hex_run].
  - intros [= ->]. now exists [].
  - destruct s as [|c s]; [discriminate|].
    destruct (is_hex_digit c) eqn:Hc; [|discriminate].
    intros Hrun. destruct (IH s s' Hrun) as (pre & -> & Hlen & Hall).
    exists (c :: pre). split; [reflexivity|]. split; [cbn; lia|].
    cbn [forallb]. now rewrite (is_hex_digit_id_char c Hc), Hall.
Qed.

Lemma dash_spec s s' :
  dash s = Some s' ->
  exists pre, s = pre ++ s' /\ length pre = 1 /\ forallb is_id_char pre = true.
Proof.
  unfold dash. destruct s as [|c s]; [discriminate|].
  destruct (Ascii.eqb_spec c "-") as [->|]; [|discriminate].
  intros [= ->]. now exists ["-"%char].
Qed.

Lemma string_length_list s : String.length s = length (list_ascii_of_string s).
Proof. induction s as [|c s IH]; [reflexivity|]. cbn. now rewrite IH. Qed.

Lemma uuid_is_short s : uuidRegex_test s = true -> shortIdRegex_test s = true.
Proof.
  unfold uuidRegex_test, shortIdRegex_test.
  set (cs := list_ascii_of_string s).
  destruct (hex_run 8 cs) as [s0|] eqn:H0; cbn [mbind option_bind]; [|discriminate].
  destruct (dash s0) as [s1|] eqn:H1; cbn [mbind option_bind]; [|discriminate].
  destruct (hex_run 4 s1) as [s2|] eqn:H2; cbn [mbind option_bind]; [|discriminate].
  destruct (dash s2) as [s3|] eqn:H3; cbn [mbind option_bind]; [|discriminate].
  destruct (hex_run 4 s3) as [s4|] eqn:H4; cbn [mbind option_bind]; [|discriminate].
  destruct (dash s4) as [s5|] eqn:H5; cbn [mbind option_bind]; [|discriminate].
  destruct (hex_run 4 s5) as [s6|] eqn:H6; cbn [mbind option_bind]; [|discriminate].
  destruct (dash s6) as [s7|] eqn:H7; cbn [mbind option_bind]; [|discriminate].
  destruct (hex_run 12 s7) as [[|c s8]|] eqn:H8; try discriminate.
  intros _.
  apply hex_run_spec in H0, H2, H4, H6, H8. apply dash_spec in H1, H3, H5, H7.
  destruct H0 as (p0 & -> & L0 & A0). destruct H1 as (p1 & -> & L1 & A1).
  destruct H2 as (p2 & -> & L2 & A2). destruct H3 as (p3 & -> & L3 & A3).
  destruct H4 as (p4 & -> & L4 & A4). destruct H5 as (p5 & -> & L5 & A5).
  destruct H6 as (p6 & -> & L6 & A6). destruct H7 as (p7 & -> & L7 & A7).
  destruct H8 as (p8 & -> & L8 & A8).
  rewrite !length_app, !forallb_app, L0, L1, L2, L3, L4, L5, L6, L7, L8,
    A0, A1, A2, A3, A4, A5, A6, A7, A8.
  reflexivity.
Qed.

(** X28.  [validatePeerId] accepts exactly the ids of 1 to 50
    characters that are letters, digits, [-] or [_].  The UUID pattern
    adds nothing: every text that it matches is matched by the short
    pattern as well. *)
Theorem validatePeerId_is_the_short_pattern peerId :
  validatePeerId peerId = shortIdRegex_test peerId
  /\ (validatePeerId peerId = true
      <-> 1 <= String.length peerId <= 50
          /\ Forall (fun c => is_id_char c = true) (list_ascii_of_string peerId)).
Proof.
  assert (Hsame : validatePeerId peerId = shortIdRegex_test peerId).
  { unfold validatePeerId.
    destruct (uuidRegex_test peerId) eqn:Huuid; [|reflexivity].
    now rewrite (uuid_is_short peerId Huuid). }
  split; [exact Hsame|]. rewrite Hsame. unfold shortIdRegex_test.
  rewrite string_length_list, !andb_true_iff, !Nat.leb_le, forallb_forall,
    List.Forall_forall.
  tauto.
Qed.

End PeerIds.

